(** * cpsm: path utilities and the CtrlP matching driver

    A shallow embedding of [src/path_util.h], [src/path_util.cc] and of the
    driver [cpsm_ctrlp_match] in [src/python_extension_main.cc], with the
    properties the specification states about them. *)

From Equations Require Import Equations.
From Equations.Prop Require Import Logic.
From Stdlib Require Import ZArith Ascii String Bool Arith Lia List.
Import ListNotations.

Set Implicit Arguments.

(** ** Machine integers

    [std::size_t] and [unsigned int] are unsigned and wrap around; the
    widths are those of the LP64 targets the extension is built for. *)

Module Word.

Definition size_t_bits : Z := 64.
Definition unsigned_bits : Z := 32.
Definition int_bits : Z := 32.

Definition size_t_mod : Z := 2 ^ size_t_bits.
Definition unsigned_mod : Z := 2 ^ unsigned_bits.

Definition wrap_size_t (z : Z) : Z := z mod size_t_mod.
Definition wrap_unsigned (z : Z) : Z := z mod unsigned_mod.

Definition INT_MIN : Z := - 2 ^ (int_bits - 1).
Definition INT_MAX : Z := 2 ^ (int_bits - 1) - 1.
Definition is_int (z : Z) : Prop := (INT_MIN <= z <= INT_MAX)%Z.
Definition is_unsigned (z : Z) : Prop := (0 <= z < unsigned_mod)%Z.
Definition is_size_t (z : Z) : Prop := (0 <= z < size_t_mod)%Z.

End Word.

(** ** Path utilities ([path_util.h], [path_util.cc]) *)

Module PathUtil.

Import Word.

(** [boost::string_ref]: a view of a run of bytes.  [remove_prefix] and
    [substr] make new views of the same bytes, so a view is modelled by the
    bytes it shows. *)
Definition string_ref : Type := list ascii.

Definition ref (s : string) : string_ref := list_ascii_of_string s.

(** [operator!=] of [boost::string_ref]: the two views differ in length or
    in some byte. *)
Fixpoint string_ref_eqb (a b : string_ref) : bool :=
  match a, b with
  | [], [] => true
  | c :: a', d :: b' => Ascii.eqb c d && string_ref_eqb a' b'
  | _, _ => false
  end.

Definition string_ref_neqb (a b : string_ref) : bool :=
  negb (string_ref_eqb a b).

(** The POSIX branch of [path_separator]. *)
Definition path_separator : ascii := "/"%char.

(** [string_ref::find_first_of(c)]; [None] is [npos]. *)
Fixpoint find_first_of (s : string_ref) (c : ascii) : option nat :=
  match s with
  | [] => None
  | d :: s' =>
      if Ascii.eqb d c then Some 0
      else match find_first_of s' c with
           | Some pos => Some (S pos)
           | None => None
           end
  end.

(** [string_ref::find_last_of(c)]. *)
Fixpoint find_last_of (s : string_ref) (c : ascii) : option nat :=
  match s with
  | [] => None
  | d :: s' =>
      match find_last_of s' c with
      | Some pos => Some (S pos)
      | None => if Ascii.eqb d c then Some 0 else None
      end
  end.

(** [s.substr(pos, n)] and [s.substr(pos)], for [pos] within [s] (the
    library throws [std::out_of_range] beyond it; no call below does
    that). *)
Definition substr (s : string_ref) (pos n : nat) : string_ref :=
  firstn n (skipn pos s).

Definition substr_from (s : string_ref) (pos : nat) : string_ref :=
  skipn pos s.

(** [s.remove_prefix(n)], for [n <= s.size()]. *)
Definition remove_prefix (s : string_ref) (n : nat) : string_ref :=
  skipn n s.

Definition empty (s : string_ref) : bool :=
  match s with [] => true | _ => false end.

Definition path_basename (path : string_ref) : string_ref :=
  match find_last_of path path_separator with
  | Some pos => substr_from path (pos + 1)
  | None => path
  end.

(** The loop of [path_components_of]: [path] is the view still to be split,
    [parts] the vector built so far.  Each turn either returns or removes
    a non-empty prefix from [path]. *)
Equations? path_components_of_loop (path : string_ref)
    (parts : list string_ref) : list string_ref by wf (length path) lt :=
  path_components_of_loop path parts
    with inspect (find_first_of path path_separator) => {
    | exist _ None _ =>
        if negb (empty path) then parts ++ [path] else parts
    | exist _ (Some pos) Hpos =>
        let len := pos + 1 in
        path_components_of_loop (remove_prefix path len)
                                (parts ++ [substr path 0 len]) }.
Proof.
  unfold remove_prefix. subst len. rewrite length_skipn.
  assert (Hlt : pos < length path); [|lia].
  clear path_components_of_loop parts. revert pos Hpos.
  induction path as [|d s IH]; simpl; intros pos H; [discriminate|].
  destruct (Ascii.eqb d path_separator); [injection H as <-; lia|].
  destruct (find_first_of s path_separator) as [q|]; [|discriminate].
  injection H as <-. specialize (IH q eq_refl). lia.
Qed.

Definition path_components_of (path : string_ref) : list string_ref :=
  path_components_of_loop path [].

(** [common_prefix]: the two iterators advance together; [common_ancestors]
    is a [std::size_t] counter. *)
Section CommonPrefix.

Variable T : Type.
Variable neqb : T -> T -> bool.

Fixpoint common_prefix_loop (x y : list T) (common_ancestors : Z) : Z :=
  match x, y with
  | a :: x', b :: y' =>
      if neqb a b then common_ancestors
      else common_prefix_loop x' y' (wrap_size_t (common_ancestors + 1))
  | _, _ => common_ancestors
  end.

Definition common_prefix (x y : list T) : Z := common_prefix_loop x y 0.

End CommonPrefix.

(** [x.size()] of a vector, as a [std::size_t]. *)
Definition size {A} (v : list A) : Z := Z.of_nat (length v).

(** The arithmetic of [path_distance_between] is done in [std::size_t].
    [CharCount], the type of the result, is declared in [str_util.h],
    which is not under [src/]; it is taken to be as wide as
    [std::size_t]. *)
Definition path_distance_between (x y : list string_ref) : Z :=
  wrap_size_t (wrap_size_t (size x + size y)
               - wrap_size_t (2 * common_prefix string_ref_neqb x y)).

End PathUtil.

(** ** The CtrlP driver ([python_extension_main.cc]) *)

Module Driver.

Import Word PathUtil.

(** A C++ computation yields a value or throws; [what] is the message of
    the exception. *)
Inductive Outcome (A : Type) : Type :=
| Ok (a : A)
| Throw (what : string).

Arguments Ok {A} a.
Arguments Throw {A} what.

Definition bind {A B : Type} (c : Outcome A) (k : A -> Outcome B) : Outcome B :=
  match c with
  | Ok a => k a
  | Throw what => Throw what
  end.

Notation "x <- c ;; k" := (bind c (fun x => k))
  (at level 61, c at next level, right associativity).

(** Modelled from the spec: the class [Error] of [str_util.h], which is not
    under [src/]: "a single error kind [Error] carries a formatted message
    assembled from heterogeneous fragments".  [Error fragments] is the
    message [what()] returns. *)
Definition Error (fragments : list string) : string :=
  String.concat "" fragments.

(** *** The host

    A Python object is known by its identity and by what
    [PyString_AsStringAndSize] makes of it: the bytes of a string, or a
    failure (with the error indicator set) for anything else. *)
Record PyObject : Type := {
  ob_id : nat;
  ob_bytes : option string_ref
}.

(** How the iterator ends once its objects are used up: [PyIter_Next]
    returns NULL in both cases, with no exception set when the iterator is
    exhausted and with the exception set when retrieving the item raised. *)
Inductive IterEnd : Type :=
| Exhausted
| Raises.

Record PyIter : Type := {
  pending : list PyObject;
  ending : IterEnd
}.

(** [PyObject_GetIter(items_obj)]. *)
Inductive ItemsObj : Type :=
| NotIterable
| Iterable (it : PyIter).

(** The exception the caller finds set when the function returns. *)
Inductive PyErr : Type :=
| RuntimeError (msg : string)
| HostException.

(** What [cpsm_ctrlp_match] hands back: the tuple of the matched objects
    and the highlight regexes, or NULL with an exception set.
    [error_pending] says that the error indicator of the interpreter was
    left set although a tuple is returned. *)
Inductive PyResult : Type :=
| PyTuple (matches_list : list PyObject) (regexes_list : list string)
          (error_pending : bool)
| PyNULL (err : PyErr).

(** The arguments as [PyArg_ParseTupleAndKeywords] stores them; an absent
    string is the empty view. *)
Record Args : Type := {
  query : string_ref;
  limit_int : Z;
  mmode : string_ref;
  is_path : Z;
  cur_file : string_ref;
  highlight_mode : string_ref;
  match_crfile : Z;
  max_threads_int : Z;
  query_inverting_delimiter : string_ref;
  unicode : Z
}.

Record MatcherOpts : Type := {
  mo_cur_file : string_ref;
  mo_is_path : bool;
  mo_match_crfile : bool
}.

Record StringHandlerOpts : Type := {
  so_unicode : bool
}.

Definition to_bool (i : Z) : bool := negb (i =? 0)%Z.

(** [get_nr_threads], with the value of [Thread::hardware_concurrency()]
    as an argument. *)
Definition get_nr_threads (hardware_concurrency max_threads : Z) : Z :=
  let nr_threads := hardware_concurrency in
  let nr_threads := if (nr_threads =? 0)%Z then 1%Z else nr_threads in
  let nr_threads :=
    if negb (max_threads =? 0)%Z && (nr_threads >? max_threads)%Z
    then max_threads else nr_threads in
  wrap_unsigned nr_threads.

(** Lines 162 to 164: the conversions of [limit_int] and
    [max_threads_int]. *)
Definition limit_of (limit_int : Z) : Z :=
  if (limit_int >=? 0)%Z then wrap_size_t limit_int else 0%Z.

Definition max_threads_of (max_threads_int : Z) : Z :=
  if (max_threads_int >=? 0)%Z then wrap_unsigned max_threads_int else 0%Z.

Definition kBatchSizeBytes : Z := 8192.

(** [Item]: the bytes of a candidate and the object they belong to. *)
Record Item : Type := {
  first : string_ref;
  second : PyObject
}.

(** What a substringer of [ctrlp_util.h] returns: a view into its argument,
    [sub_offset] bytes after its start. *)
Record Substr : Type := {
  sub_offset : Z;
  sub_view : string_ref
}.

Definition str (s : string_ref) : string := string_of_list_ascii s.

(** [v.empty()] of a vector. *)
Definition empty_vec {A : Type} (v : list A) : bool :=
  match v with [] => true | _ => false end.

(** *** What the driver takes from the headers that are not under [src/]

    [match.h], [matcher.h], [ctrlp_util.h], [str_util.h] and [par_util.h]
    are parameters of the model. *)

Section Model.

(** The score a [Match] carries. *)
Variable Score : Type.

(** [Match<Item>]: the item and the score [Matcher::match] writes. *)
Record Match : Type := {
  item : Item;
  score : Score
}.

(** [Matcher::match(item_str, m, nullptr, &buf, &buf2)] on a fresh
    [Match<Item> m(item)] is [match_ item_str item]: it throws, returns
    false ([None]) or returns true with the score it has written.
    [Matcher::match(item_str, m, &match_positions)] is [match_positions]:
    on true it also yields the set of positions, in increasing order. *)
Record Matcher : Type := {
  match_ : string_ref -> Item -> Outcome (option Score);
  match_positions : string_ref -> Match -> Outcome (option (Score * list Z))
}.

Record Headers : Type := {
  (** [operator<] of [Match<Item>], used by the heap and by the sort *)
  match_lt : Match -> Match -> bool;
  (** [Thread::hardware_concurrency()] *)
  hardware_concurrency : Z;
  (** the constructor of [Matcher] *)
  Matcher_new : string_ref -> MatcherOpts -> StringHandlerOpts ->
                Outcome Matcher;
  (** [match_mode_item_substr_fn]; [None] is an empty [std::function] *)
  match_mode_item_substr_fn :
    string_ref -> Outcome (option (string_ref -> Substr));
  (** [get_highlight_regexes(mode, item, positions, regexes)]: the
      vector [regexes] after the call *)
  get_highlight_regexes :
    string_ref -> string_ref -> list Z -> list string ->
    Outcome (list string);
  (** [str_split] and [str_join] *)
  str_split : string_ref -> ascii -> list string_ref;
  str_join : list string_ref -> string_ref -> string_ref
}.

Variable hdr : Headers.

(** *** Heap and sort

    [matches] is kept as the sequence of its elements.  How
    [std::push_heap] arranges them inside the vector is the library's
    business and no line of the driver looks at it; what the driver relies
    on is that [std::pop_heap] moves a largest element to the back. *)
Definition push_heap (v : list Match) : list Match := v.

Fixpoint take_largest (m : Match) (v : list Match) : Match * list Match :=
  match v with
  | [] => (m, [])
  | m' :: v' =>
      if match_lt hdr m m'
      then let (big, rest) := take_largest m' v' in (big, m :: rest)
      else let (big, rest) := take_largest m v' in (big, m' :: rest)
  end.

Definition pop_heap (v : list Match) : list Match :=
  match v with
  | [] => []
  | m :: v' => let (big, rest) := take_largest m v' in rest ++ [big]
  end.

(** [v.back()] and [v.pop_back()]. *)
Definition back {A : Type} (v : list A) : option A :=
  nth_error v (length v - 1).

Definition pop_back {A : Type} (v : list A) : list A := removelast v.

Fixpoint insert_sorted (m : Match) (v : list Match) : list Match :=
  match v with
  | [] => [m]
  | m' :: v' =>
      if match_lt hdr m m' then m :: m' :: v' else m' :: insert_sorted m v'
  end.

Definition sort (v : list Match) : list Match :=
  fold_right insert_sorted [] v.

(** Modelled from the spec: [sort_limit] of [match.h], which is not under
    [src/]: "If [K > 0 && total > K], nth-element-then-sort-prefix to
    extract the top K in full order; otherwise full sort." *)
Definition sort_limit (v : list Match) (limit : Z) : list Match :=
  if (limit >? 0)%Z && (size v >? limit)%Z
  then firstn (Z.to_nat limit) (sort v)
  else sort v.

(** *** One worker *)

Inductive Status : Type :=
| Running
| Returned
| Threw (what : string).

(** The variables of the thread's closure: [items] and [unmatched_objs]
    are its own, [matches] is its slot of [thread_matches]. *)
Record Worker : Type := {
  items : list Item;
  unmatched_objs : list PyObject;
  matches : list Match;
  status : Status
}.

(** What the threads share under [items_mu]; [error_indicator] is the
    error indicator of the interpreter. *)
Record Shared : Type := {
  items_iter : PyIter;
  end_of_python_iter : bool;
  have_python_ex : bool;
  error_indicator : bool
}.

Definition item_str_of (item_substr_fn : option (string_ref -> Substr))
    (s : string_ref) : string_ref :=
  match item_substr_fn with
  | Some f => sub_view (f s)
  | None => s
  end.

(** The body of the loop over [items], lines 235 to 253. *)
Definition process_item (matcher : Matcher)
    (item_substr_fn : option (string_ref -> Substr)) (limit : Z)
    (matches : list Match) (unmatched_objs : list PyObject) (it : Item)
    : list Match * list PyObject * option string :=
  let item_str := item_str_of item_substr_fn (first it) in
  match match_ matcher item_str it with
  | Throw what => (matches, unmatched_objs, Some what)
  | Ok (Some sc) =>
      let matches := matches ++ [{| item := it; score := sc |}] in
      if negb (limit =? 0)%Z then
        let matches := push_heap matches in
        if (size matches >? limit)%Z then
          let matches := pop_heap matches in
          let unmatched_objs :=
            match back matches with
            | Some m => unmatched_objs ++ [second (item m)]
            | None => unmatched_objs
            end in
          (pop_back matches, unmatched_objs, None)
        else (matches, unmatched_objs, None)
      else (matches, unmatched_objs, None)
  | Ok None => (matches, unmatched_objs ++ [second it], None)
  end.

(** The loop over [items]; it stops at the first exception, which leaves
    the thread's function. *)
Fixpoint process_items (matcher : Matcher)
    (item_substr_fn : option (string_ref -> Substr)) (limit : Z)
    (batch : list Item) (matches : list Match)
    (unmatched_objs : list PyObject)
    : list Match * list PyObject * option string :=
  match batch with
  | [] => (matches, unmatched_objs, None)
  | it :: batch' =>
      match process_item matcher item_substr_fn limit matches
                         unmatched_objs it with
      | (matches', unmatched_objs', None) =>
          process_items matcher item_substr_fn limit batch' matches'
                        unmatched_objs'
      | stopped => stopped
      end
  end.

Definition set_iter (sh : Shared) (rest : list PyObject) : Shared :=
  {| items_iter := {| pending := rest; ending := ending (items_iter sh) |};
     end_of_python_iter := end_of_python_iter sh;
     have_python_ex := have_python_ex sh;
     error_indicator := error_indicator sh |}.

(** The inner loop, lines 211 to 228, with [items_mu] held.  The match on
    [rest] is [PyIter_Next]: an object, or NULL.  The Boolean of the result
    says that the thread's function has returned (line 223). *)
Fixpoint collect_batch (rest : list PyObject) (sh : Shared)
    (items : list Item) (batch_size_bytes : Z)
    : Shared * list Item * bool :=
  if (batch_size_bytes <? kBatchSizeBytes)%Z then
    match rest with
    | [] =>
        ({| items_iter := {| pending := []; ending := Exhausted |};
            end_of_python_iter := true;
            have_python_ex := have_python_ex sh;
            error_indicator :=
              match ending (items_iter sh) with
              | Raises => true
              | Exhausted => error_indicator sh
              end |}, items, false)
    | item_obj :: rest' =>
        match ob_bytes item_obj with
        | None =>
            ({| items_iter :=
                  {| pending := rest'; ending := ending (items_iter sh) |};
                end_of_python_iter := end_of_python_iter sh;
                have_python_ex := true;
                error_indicator := true |}, items, true)
        | Some item_data =>
            collect_batch rest' sh
              (items ++ [{| first := item_data; second := item_obj |}])
              (wrap_size_t (batch_size_bytes + size item_data))
        end
    end
  else (set_iter sh rest, items, false).

(** [release_unmatched_objs], run when the thread's function is left. *)
Definition leave (w : Worker) (st : Status) : Worker :=
  {| items := []; unmatched_objs := []; matches := matches w; status := st |}.

(** One turn of the [while (true)] of a worker: the batch is collected
    with [items_mu] held and then matched without it.  The matching reads
    the matcher and writes only what belongs to the thread, so a turn is
    taken as one step of the thread that got the mutex.  Allocation
    ([matches.reserve], [unmatched_objs.reserve], [emplace_back]) is taken
    to succeed. *)
Definition worker_turn (matcher : Matcher)
    (item_substr_fn : option (string_ref -> Substr)) (limit : Z)
    (sh : Shared) (w : Worker) : Shared * Worker :=
  if end_of_python_iter sh || have_python_ex sh then (sh, leave w Returned)
  else
    match collect_batch (pending (items_iter sh)) sh (items w) 0 with
    | (sh', _, true) => (sh', leave w Returned)
    | (sh', batch, false) =>
        if empty_vec batch then (sh', leave w Returned)
        else
          match process_items matcher item_substr_fn limit batch
                              (matches w) [] with
          | (matches', _, Some what) =>
              (sh', {| items := []; unmatched_objs := [];
                       matches := matches'; status := Threw what |})
          | (matches', unmatched_objs', None) =>
              (sh', {| items := []; unmatched_objs := unmatched_objs';
                       matches := matches'; status := Running |})
          end
    end.

(** *** The threads together *)

Record State : Type := {
  shared : Shared;
  threads : list Worker
}.

Fixpoint set_nth {A : Type} (v : list A) (i : nat) (a : A) : list A :=
  match v, i with
  | [], _ => []
  | _ :: v', O => a :: v'
  | b :: v', S i' => b :: set_nth v' i' a
  end.

(** Thread [i] takes its next turn, if it is still running. *)
Definition step (matcher : Matcher)
    (item_substr_fn : option (string_ref -> Substr)) (limit : Z)
    (i : nat) (st : State) : State :=
  match nth_error (threads st) i with
  | Some w =>
      match status w with
      | Running =>
          let (sh', w') :=
            worker_turn matcher item_substr_fn limit (shared st) w in
          {| shared := sh'; threads := set_nth (threads st) i w' |}
      | _ => st
      end
  | None => st
  end.

(** The threads run in the order in which they get [items_mu]: [sched]
    lists the thread of each turn.  Turns of different threads meet only
    at the mutex, so every interleaving of the threads is the run of some
    [sched]. *)
Definition run (matcher : Matcher)
    (item_substr_fn : option (string_ref -> Substr)) (limit : Z)
    (sched : list nat) (st : State) : State :=
  fold_left (fun st i => step matcher item_substr_fn limit i st) sched st.

(** [threads[i].join()] waits until thread [i] has left its function.  A
    turn that does not leave it takes at least one object from the
    iterator, so the turns below are enough. *)
Definition join (matcher : Matcher)
    (item_substr_fn : option (string_ref -> Substr)) (limit : Z)
    (i : nat) (st : State) : State :=
  Nat.iter (length (pending (items_iter (shared st))) + 2)
           (step matcher item_substr_fn limit i) st.

(** What the driver does to the threads, in order. *)
Inductive Event : Type :=
| EvJoin (i : nat)
| EvThrow (what : string).

(** The loop of lines 260 to 266 over the threads from [i] on; [n] of them
    are left. *)
Fixpoint join_threads (matcher : Matcher)
    (item_substr_fn : option (string_ref -> Substr)) (limit : Z)
    (n i : nat) (st : State) (nr_matches : Z) (trace : list Event)
    : State * list Event * Outcome Z :=
  match n with
  | O => (st, trace, Ok nr_matches)
  | S n' =>
      let st := join matcher item_substr_fn limit i st in
      let trace := trace ++ [EvJoin i] in
      match nth_error (threads st) i with
      | Some w =>
          match status w with
          | Threw what =>
              (st, trace ++ [EvThrow (Error [what])], Throw (Error [what]))
          | _ =>
              join_threads matcher item_substr_fn limit n' (S i) st
                (wrap_size_t (nr_matches + size (matches w))) trace
          end
      | None => (st, trace, Ok nr_matches)
      end
  end.

(** *** The request *)

Definition new_worker : Worker :=
  {| items := []; unmatched_objs := []; matches := []; status := Running |}.

Definition start (it : PyIter) (nr_threads : Z) : State :=
  {| shared := {| items_iter := it; end_of_python_iter := false;
                  have_python_ex := false; error_indicator := false |};
     threads := repeat new_worker (Z.to_nat nr_threads) |}.

(** Lines 141 to 150. *)
Definition invert_query (query query_inverting_delimiter : string_ref)
    : Outcome string_ref :=
  match query_inverting_delimiter with
  | [] => Ok query
  | delimiter :: _ =>
      if (size query_inverting_delimiter >? 1)%Z
      then Throw
             (Error ["query inverting delimiter must be a single character"
                     %string])
      else Ok (str_join hdr (rev (str_split hdr query delimiter)) [])
  end.

Definition highlighting (highlight_mode : string_ref) : bool :=
  negb (empty highlight_mode)
  && string_ref_neqb highlight_mode (ref "none").

(** The loop of the highlight pass, lines 288 to 309.  The score the
    second call writes into [m] is not read afterwards. *)
Fixpoint highlight_pass (matcher : Matcher)
    (item_substr_fn : option (string_ref -> Substr))
    (highlight_mode : string_ref) (all_matches : list Match)
    (match_regexes : list string) : Outcome (list string) :=
  match all_matches with
  | [] => Ok match_regexes
  | m :: rest =>
      let item_str := item_str_of item_substr_fn (first (item m)) in
      found <- match_positions matcher item_str m ;;
      match found with
      | None =>
          Throw (Error ["failed to re-match known match '"%string;
                        str item_str;
                        "' during highlight pass"%string])
      | Some (_, positions) =>
          let positions :=
            match item_substr_fn with
            | Some f =>
                let base := sub_offset (f (first (item m))) in
                map (fun pos => wrap_size_t (base + pos)) positions
            | None => positions
            end in
          match_regexes <- get_highlight_regexes hdr highlight_mode
                             (first (item m)) positions match_regexes ;;
          highlight_pass matcher item_substr_fn highlight_mode rest
                         match_regexes
      end
  end.

(** Lines 271 to 280: the per-thread lists, one after the other, then
    [sort_limit]. *)
Definition merge_matches (thread_matches : list Worker) (limit : Z)
    : list Match :=
  sort_limit (concat (map matches thread_matches)) limit.

(** What the highlight pass and the translation to Python start from. *)
Record Merged : Type := {
  the_matcher : Matcher;
  the_item_substr_fn : option (string_ref -> Substr);
  all_matches : list Match;
  error_left_set : bool
}.

(** The [try] block up to [sort_limit], lines 140 to 280.  [Ok (inl r)] is
    a [return r] statement, [Throw] an exception that reaches the handler.
    The driver's actions on the threads are recorded next to the result. *)
Definition match_stage (args : Args) (items_obj : ItemsObj)
    (sched : list nat) : list Event * Outcome (PyResult + Merged) :=
  match invert_query (query args) (query_inverting_delimiter args) with
  | Throw what => ([], Throw what)
  | Ok query =>
  let mopts := {| mo_cur_file := cur_file args;
                  mo_is_path := to_bool (is_path args);
                  mo_match_crfile := to_bool (match_crfile args) |} in
  let sopts := {| so_unicode := to_bool (unicode args) |} in
  match Matcher_new hdr query mopts sopts with
  | Throw what => ([], Throw what)
  | Ok matcher =>
  match match_mode_item_substr_fn hdr (mmode args) with
  | Throw what => ([], Throw what)
  | Ok item_substr_fn =>
  let limit := limit_of (limit_int args) in
  let max_threads := max_threads_of (max_threads_int args) in
  let nr_threads := get_nr_threads (hardware_concurrency hdr) max_threads in
  match items_obj with
  | NotIterable => ([], Ok (inl (PyNULL HostException)))
  | Iterable it =>
  let st := run matcher item_substr_fn limit sched (start it nr_threads) in
  match join_threads matcher item_substr_fn limit (Z.to_nat nr_threads) 0
                     st 0 [] with
  | (_, trace, Throw what) => (trace, Throw what)
  | (st, trace, Ok _) =>
      if have_python_ex (shared st)
      then (trace, Ok (inl (PyNULL HostException)))
      else
        (trace,
         Ok (inr {| the_matcher := matcher;
                    the_item_substr_fn := item_substr_fn;
                    all_matches := merge_matches (threads st) limit;
                    error_left_set := error_indicator (shared st) |}))
  end end end end end.

(** The rest of the [try] block, lines 282 to 346: the highlight pass and
    the tuple.  Allocation in the interpreter ([PyTuple_New], [PyList_New],
    [PyList_Append]) is taken to succeed. *)
Definition output_stage (args : Args) (mg : Merged) : Outcome PyResult :=
  match_regexes <-
    (if highlighting (highlight_mode args)
     then highlight_pass (the_matcher mg) (the_item_substr_fn mg)
                         (highlight_mode args) (all_matches mg) []
     else Ok []) ;;
  Ok (PyTuple (map (fun m => second (item m)) (all_matches mg))
              match_regexes (error_left_set mg)).

Definition ctrlp_match_body (args : Args) (items_obj : ItemsObj)
    (sched : list nat) : list Event * Outcome PyResult :=
  let (trace, reached) := match_stage args items_obj sched in
  (trace,
   r <- reached ;;
   match r with
   | inl result => Ok result
   | inr mg => output_stage args mg
   end).

(** [cpsm_ctrlp_match] after the parsing of its arguments: the [try] block
    and its handler, which sets a [RuntimeError] with the message of the
    exception and returns NULL. *)
Definition cpsm_ctrlp_match (args : Args) (items_obj : ItemsObj)
    (sched : list nat) : PyResult :=
  match snd (ctrlp_match_body args items_obj sched) with
  | Ok result => result
  | Throw what => PyNULL (RuntimeError what)
  end.

(** The order in which the driver joined, and whether it threw. *)
Definition driver_trace (args : Args) (items_obj : ItemsObj)
    (sched : list nat) : list Event :=
  fst (ctrlp_match_body args items_obj sched).

End Model.

End Driver.

(** ** A small matcher

    Concrete headers on which the statements below are run: a candidate
    matches when it starts with [m] and scores its length, matching a
    candidate that starts with [!] throws, and the call that records
    positions fails on a candidate that starts with [mx]. *)

Module Scenario.

Import Word PathUtil Driver.

Definition starts_with (c : ascii) (s : string_ref) : bool :=
  match s with
  | d :: _ => Ascii.eqb c d
  | [] => false
  end.

Definition small_match (s : string_ref) (it : Item) : Outcome (option Z) :=
  if starts_with "!" s then Throw "boom"%string
  else if starts_with "m" s then Ok (Some (size s))
  else Ok None.

Definition small_match_positions (s : string_ref) (m : Match Z)
    : Outcome (option (Z * list Z)) :=
  match s with
  | "m"%char :: "x"%char :: _ => Ok None
  | _ => Ok (Some (score m, [0%Z]))
  end.

Definition small_matcher : Matcher Z :=
  {| match_ := small_match; match_positions := small_match_positions |}.

Definition small_headers (hardware_concurrency : Z) : Headers Z :=
  {| match_lt := fun a b => (score a <? score b)%Z;
     hardware_concurrency := hardware_concurrency;
     Matcher_new := fun _ _ _ => Ok small_matcher;
     match_mode_item_substr_fn := fun _ => Ok None;
     get_highlight_regexes :=
       fun _ candidate _ regexes => Ok (regexes ++ [str candidate]);
     str_split := fun s _ => [s];
     str_join := fun parts _ => concat parts |}.

Definition py_str (id : nat) (s : string) : PyObject :=
  {| ob_id := id; ob_bytes := Some (ref s) |}.

Definition py_int (id : nat) : PyObject :=
  {| ob_id := id; ob_bytes := None |}.

Definition request (limit max_threads : Z) (highlight delimiter : string)
    : Args :=
  {| query := ref "m"; limit_int := limit; mmode := ref "full-line";
     is_path := 0; cur_file := []; highlight_mode := ref highlight;
     match_crfile := 0; max_threads_int := max_threads;
     query_inverting_delimiter := ref delimiter; unicode := 0 |}.

Definition candidates : PyIter :=
  {| pending := [py_str 1 "ma"; py_str 2 "zz"; py_str 3 "mbcd";
                 py_str 4 "mbc"; py_str 5 "q"; py_str 6 "mzzzzz"];
     ending := Exhausted |}.

(** Two matching candidates; the second call fails on the second one. *)
Definition candidates_rematch : PyIter :=
  {| pending := [py_str 1 "ma"; py_str 2 "mxy"]; ending := Exhausted |}.

Definition match_of (id : nat) (s : string) : Match Z :=
  {| item := {| first := ref s; second := py_str id s |};
     score := size (ref s) |}.

(** A candidate on which matching throws, then a matching one. *)
Definition candidates_throwing : PyIter :=
  {| pending := [py_str 1 "!a"; py_str 2 "mm"]; ending := Exhausted |}.

(** An iterator that raises after its first candidate. *)
Definition candidates_raising : PyIter :=
  {| pending := [py_str 1 "ma"]; ending := Raises |}.

End Scenario.

(** * Properties *)

(** ** Machine integers *)

Module WordFacts.

Import Word.

Lemma wrap_size_t_small z : is_size_t z -> wrap_size_t z = z.
Proof. intros H. apply Z.mod_small. exact H. Qed.

Lemma wrap_unsigned_small z : is_unsigned z -> wrap_unsigned z = z.
Proof. intros H. apply Z.mod_small. exact H. Qed.

Lemma size_t_mod_eq : size_t_mod = 18446744073709551616%Z.
Proof. reflexivity. Qed.

Lemma unsigned_mod_eq : unsigned_mod = 4294967296%Z.
Proof. reflexivity. Qed.

Lemma wrap_size_t_range z : is_size_t (wrap_size_t z).
Proof. apply Z.mod_pos_bound. reflexivity. Qed.

End WordFacts.

(** ** Path utilities *)

Module PathFacts.

Import Word WordFacts PathUtil.

Lemma find_first_of_Some s c pos :
  find_first_of s c = Some pos ->
  pos < length s /\ ~ In c (firstn pos s) /\
  firstn (pos + 1) s = firstn pos s ++ [c].
Proof.
  revert pos. induction s as [|d s IH]; simpl; intros pos H; [discriminate|].
  destruct (Ascii.eqb_spec d c) as [->|Hne].
  - injection H as <-. simpl. repeat split; [lia | tauto].
  - destruct (find_first_of s c) as [q|] eqn:E; [|discriminate].
    injection H as <-. destruct (IH q eq_refl) as (Hlt & Hnin & Hfst).
    simpl. repeat split.
    + lia.
    + intros [Hd | Hin]; [congruence | tauto].
    + now rewrite Hfst.
Qed.

Lemma find_first_of_None s c : find_first_of s c = None -> ~ In c s.
Proof.
  induction s as [|d s IH]; simpl; intros H; [tauto|].
  destruct (Ascii.eqb_spec d c) as [->|Hne]; [discriminate|].
  destruct (find_first_of s c); [discriminate|].
  intros [Hd | Hin]; [congruence | now apply IH].
Qed.

(** A component cut at a separator: the separator is its last byte and
    occurs nowhere before. *)
Definition dir_component (c : string_ref) : Prop :=
  exists body, c = body ++ [path_separator] /\ ~ In path_separator body.

(** What is left after the last separator. *)
Definition tail_component (c : string_ref) : Prop :=
  c <> [] /\ ~ In path_separator c.

(** The result of the loop: the parts it was given, then the components cut
    at separators, then what is left of the path if that is not empty. *)
Lemma path_components_of_loop_shape path parts :
  exists dirs tail,
    path_components_of_loop path parts = parts ++ dirs ++ tail /\
    Forall dir_component dirs /\
    (tail = [] \/ exists c, tail = [c] /\ tail_component c) /\
    concat (dirs ++ tail) = path.
Proof.
  funelim (path_components_of_loop path parts).
  - (* a separator at [pos] *)
    destruct H as (dirs & tail & Hloop & Hdirs & Htail & Hcat).
    exists (substr path 0 (pos + 1) :: dirs), tail.
    pose proof (find_first_of_Some _ _ Hpos) as (Hlt & Hnin & Hfst).
    repeat split.
    + rewrite Hloop. rewrite <- app_assoc. reflexivity.
    + constructor; [|exact Hdirs].
      exists (firstn pos path). unfold substr. simpl. auto.
    + exact Htail.
    + simpl. rewrite Hcat. unfold substr, remove_prefix. simpl.
      apply firstn_skipn.
  - (* no separator left *)
    pose proof (find_first_of_None _ _ e) as Hnin.
    destruct path as [|c path]; simpl.
    + exists [], []. simpl. rewrite app_nil_r. auto.
    + exists [], [c :: path]. simpl. repeat split; auto.
      * right. exists (c :: path). repeat split; [discriminate | exact Hnin].
      * now rewrite app_nil_r.
Qed.

Lemma dir_component_shape c :
  dir_component c ->
  c <> [] /\
  forall i, nth_error c i = Some path_separator -> S i = length c.
Proof.
  intros (body & -> & Hnin). split.
  - destruct body; discriminate.
  - intros i Hi. rewrite length_app. simpl.
    destruct (Nat.lt_ge_cases i (length body)) as [Hlt | Hge].
    + rewrite nth_error_app1 in Hi by exact Hlt.
      apply nth_error_In in Hi. contradiction.
    + assert (Hsome : nth_error (body ++ [path_separator]) i <> None)
        by (rewrite Hi; discriminate).
      apply nth_error_Some in Hsome. rewrite length_app in Hsome.
      simpl in Hsome. lia.
Qed.

Lemma tail_component_shape c :
  tail_component c ->
  c <> [] /\
  forall i, nth_error c i = Some path_separator -> S i = length c.
Proof.
  intros (Hne & Hnin). split; [exact Hne|].
  intros i Hi. apply nth_error_In in Hi. contradiction.
Qed.

Lemma string_ref_eqb_eq a b : string_ref_eqb a b = true <-> a = b.
Proof.
  revert b. induction a as [|c a IH]; destruct b as [|d b]; simpl;
    try (split; [discriminate | discriminate]); [tauto|].
  rewrite andb_true_iff, Ascii.eqb_eq, IH.
  split; [intros [-> ->]; reflexivity | intros H; injection H; auto].
Qed.

Lemma string_ref_neqb_sym a b : string_ref_neqb a b = string_ref_neqb b a.
Proof.
  unfold string_ref_neqb. f_equal.
  destruct (string_ref_eqb a b) eqn:E, (string_ref_eqb b a) eqn:E';
    try reflexivity.
  - apply string_ref_eqb_eq in E. subst.
    rewrite (proj2 (string_ref_eqb_eq b b) eq_refl) in E'. discriminate.
  - apply string_ref_eqb_eq in E'. subst.
    rewrite (proj2 (string_ref_eqb_eq a a) eq_refl) in E. discriminate.
Qed.

(** [n] is the number of equal leading components of [x] and [y]: the
    first [n] components agree and the next ones, if both paths have one,
    differ. *)
Definition equal_leading_components (n : nat) (x y : list string_ref)
    : Prop :=
  n <= length x /\ n <= length y /\ firstn n x = firstn n y /\
  forall a b, nth_error x n = Some a -> nth_error y n = Some b -> a <> b.

Lemma common_prefix_loop_counts (x y : list string_ref) :
  forall acc : Z,
    (0 <= acc)%Z ->
    (acc + Z.of_nat (Nat.min (length x) (length y)) < size_t_mod)%Z ->
    exists n : nat,
      equal_leading_components n x y /\
      common_prefix_loop string_ref_neqb x y acc = (acc + Z.of_nat n)%Z.
Proof.
  revert y. induction x as [|a x IH]; intros y acc Hacc Hbound.
  - exists 0. simpl. unfold equal_leading_components. simpl.
    repeat split; try lia. intros ? ? H; discriminate.
  - destruct y as [|b y].
    + exists 0. simpl. unfold equal_leading_components. simpl.
      repeat split; try lia. intros ? ? _ H; discriminate.
    + cbn [common_prefix_loop].
      destruct (string_ref_neqb a b) eqn:E; unfold string_ref_neqb in E.
      * apply negb_true_iff in E.
        exists 0. unfold equal_leading_components. simpl.
        repeat split; try lia.
        intros a' b' Ha Hb. injection Ha as <-. injection Hb as <-.
        intros ->. rewrite (proj2 (string_ref_eqb_eq b b) eq_refl) in E.
        discriminate.
      * apply negb_false_iff, string_ref_eqb_eq in E. subst b.
        cbn [length] in Hbound. rewrite <- Nat.succ_min_distr in Hbound.
        rewrite wrap_size_t_small by (unfold is_size_t; lia).
        destruct (IH y (acc + 1)%Z) as (n & (Hx & Hy & Hfst & Hnext) & Hres);
          [lia | lia |].
        exists (S n). split.
        -- unfold equal_leading_components. simpl.
           repeat split; try lia. now rewrite Hfst. exact Hnext.
        -- rewrite Hres. lia.
Qed.

Lemma common_prefix_loop_sym (x y : list string_ref) :
  forall acc : Z,
    common_prefix_loop string_ref_neqb x y acc
    = common_prefix_loop string_ref_neqb y x acc.
Proof.
  revert y. induction x as [|a x IH]; intros [|b y] acc; simpl;
    try reflexivity.
  rewrite (string_ref_neqb_sym b a).
  destruct (string_ref_neqb a b); [reflexivity | apply IH].
Qed.

End PathFacts.

(** ** The claims about the path utilities *)

Import Word WordFacts PathUtil PathFacts.

(** C3.  For decomposed paths [x] and [y] (whose sizes, as every pair of
    vectors in memory, add up within [std::size_t]),
    [path_distance_between x y] is [|x| + |y| - 2 * common_prefix x y],
    where [common_prefix x y] is the number of equal leading components;
    the distance is not negative and is the same in both directions.  The
    law needs nothing of the roots, so it holds for paths that share
    one. *)
Theorem path_distance_between_law (x y : list string_ref) :
  (size x + size y < size_t_mod)%Z ->
  path_distance_between x y
    = (size x + size y - 2 * common_prefix string_ref_neqb x y)%Z /\
  equal_leading_components
    (Z.to_nat (common_prefix string_ref_neqb x y)) x y /\
  (0 <= path_distance_between x y)%Z /\
  path_distance_between x y = path_distance_between y x.
Proof.
  intros Hbound. unfold size in Hbound.
  destruct (@common_prefix_loop_counts x y 0%Z) as (n & Hn & Hcp);
    [lia | lia |].
  fold (common_prefix string_ref_neqb x y) in Hcp. simpl in Hcp.
  pose proof Hn as (Hx & Hy & _).
  assert (Hdist : path_distance_between x y
                  = (size x + size y - 2 * Z.of_nat n)%Z).
  { unfold path_distance_between. rewrite Hcp. unfold size.
    rewrite (@wrap_size_t_small (Z.of_nat (length x) + Z.of_nat (length y)))
      by (unfold is_size_t; lia).
    rewrite (@wrap_size_t_small (2 * Z.of_nat n))
      by (unfold is_size_t; lia).
    apply wrap_size_t_small. unfold is_size_t. lia. }
  split; [|split; [|split]].
  - rewrite Hdist, Hcp. reflexivity.
  - rewrite Hcp, Nat2Z.id. exact Hn.
  - rewrite Hdist. unfold size. lia.
  - unfold path_distance_between, common_prefix.
    rewrite (common_prefix_loop_sym x y), (Z.add_comm (size x)).
    reflexivity.
Qed.

Lemma path_distance_between_law_witness :
  let x := path_components_of (ref "a/b/c.txt") in
  let y := path_components_of (ref "a/x.txt") in
  path_distance_between x y = 3%Z /\
  path_distance_between x y
    = (size x + size y - 2 * common_prefix string_ref_neqb x y)%Z /\
  path_distance_between x y = path_distance_between y x.
Proof.
  split; [reflexivity|].
  pose proof (@path_distance_between_law
                (path_components_of (ref "a/b/c.txt"))
                (path_components_of (ref "a/x.txt")) eq_refl)
    as (Hlaw & _ & _ & Hsym).
  split; [exact Hlaw | exact Hsym].
Defined.

(** C4.  Concatenating the components of [path_components_of p] in order
    gives [p] back; every component but the last one ends with the path
    separator; the empty path has no component. *)
Theorem path_components_of_concat (p : string_ref) :
  concat (path_components_of p) = p /\
  (forall i c,
      nth_error (path_components_of p) i = Some c ->
      S i < length (path_components_of p) ->
      exists body, c = body ++ [path_separator]) /\
  path_components_of [] = [].
Proof.
  unfold path_components_of.
  destruct (path_components_of_loop_shape p [])
    as (dirs & tail & Hloop & Hdirs & Htail & Hcat).
  simpl in Hloop. rewrite Hloop. split; [|split].
  - exact Hcat.
  - intros i c Hi Hlt. rewrite length_app in Hlt.
    assert (Hidx : i < length dirs).
    { destruct Htail as [-> | (t & -> & _)]; simpl in Hlt; lia. }
    rewrite nth_error_app1 in Hi by exact Hidx.
    apply nth_error_In in Hi.
    rewrite Forall_forall in Hdirs.
    destruct (Hdirs c Hi) as (body & Hbody & _). now exists body.
  - reflexivity.
Qed.

(** C10.  Every component of [path_components_of p] is non-empty, and the
    path separator occurs in it at no position other than the last. *)
Theorem path_components_of_separator_last (p : string_ref) :
  Forall (fun c : string_ref =>
            c <> [] /\
            forall i, nth_error c i = Some path_separator ->
                      S i = length c)
         (path_components_of p).
Proof.
  unfold path_components_of.
  destruct (path_components_of_loop_shape p [])
    as (dirs & tail & Hloop & Hdirs & Htail & _).
  simpl in Hloop. rewrite Hloop. apply Forall_app. split.
  - eapply Forall_impl; [|exact Hdirs].
    intros c Hc. now apply dir_component_shape.
  - destruct Htail as [-> | (t & -> & Ht)]; constructor; [|constructor].
    now apply tail_component_shape.
Qed.

(** ** The driver: arguments and thread count *)

Module DriverFacts.

Import Word WordFacts PathUtil Driver.

(** [args] with another [limit_int], and with another [max_threads_int]. *)
Definition with_limit_int (args : Args) (n : Z) : Args :=
  {| query := query args; limit_int := n; mmode := mmode args;
     is_path := is_path args; cur_file := cur_file args;
     highlight_mode := highlight_mode args;
     match_crfile := match_crfile args;
     max_threads_int := max_threads_int args;
     query_inverting_delimiter := query_inverting_delimiter args;
     unicode := unicode args |}.

Definition with_max_threads_int (args : Args) (n : Z) : Args :=
  {| query := query args; limit_int := limit_int args; mmode := mmode args;
     is_path := is_path args; cur_file := cur_file args;
     highlight_mode := highlight_mode args;
     match_crfile := match_crfile args;
     max_threads_int := n;
     query_inverting_delimiter := query_inverting_delimiter args;
     unicode := unicode args |}.

(** The number of threads the request starts. *)
Definition nr_threads_of (hardware_concurrency max_threads_int : Z) : Z :=
  get_nr_threads hardware_concurrency (max_threads_of max_threads_int).

Ltac unsigned_range :=
  unfold is_unsigned; rewrite unsigned_mod_eq; lia.

Lemma get_nr_threads_value (hw max_threads : Z) :
  is_unsigned hw -> is_unsigned max_threads ->
  get_nr_threads hw max_threads
  = Z.max 1 (if (max_threads >? 0)%Z then Z.min hw max_threads else hw).
Proof.
  unfold is_unsigned, get_nr_threads. rewrite unsigned_mod_eq.
  intros Hhw Hmt.
  destruct (Z.eqb_spec hw 0) as [-> | Hhw0];
    destruct (Z.eqb_spec max_threads 0) as [-> | Hmt0]; cbn [negb andb].
  - reflexivity.
  - destruct (Z.gtb_spec 1 max_threads); [lia|].
    destruct (Z.gtb_spec max_threads 0); [|lia].
    rewrite wrap_unsigned_small by unsigned_range. lia.
  - rewrite wrap_unsigned_small by unsigned_range. cbn. lia.
  - destruct (Z.gtb_spec max_threads 0); [|lia].
    destruct (Z.gtb_spec hw max_threads);
      rewrite wrap_unsigned_small by unsigned_range; lia.
Qed.

Lemma max_threads_of_unsigned (n : Z) :
  is_int n -> is_unsigned (max_threads_of n) /\
              max_threads_of n = Z.max 0 n.
Proof.
  unfold is_int, INT_MIN, INT_MAX, int_bits, max_threads_of, is_unsigned.
  rewrite unsigned_mod_eq. intros H.
  simpl in H.
  destruct (Z.geb_spec n 0).
  - rewrite wrap_unsigned_small by unsigned_range. lia.
  - lia.
Qed.

Lemma length_threads_start (Score : Type) (it : PyIter) (n : Z) :
  length (threads (start Score it n)) = Z.to_nat n.
Proof. unfold start. simpl. apply repeat_length. Qed.

End DriverFacts.

Import Driver DriverFacts.

(** C5.  The number of worker threads is
    [min (hardware_concurrency, max_threads)] when [max_threads > 0] and
    [hardware_concurrency] when [max_threads = 0], and never less than 1:
    this is the value of [get_nr_threads], the value the request computes
    from its argument [max_threads_int], and the number of threads it
    starts. *)
Theorem nr_threads_law (Score : Type) (hw max_threads : Z) (it : PyIter) :
  is_unsigned hw -> is_int max_threads ->
  let expected :=
    Z.max 1 (if (max_threads >? 0)%Z then Z.min hw max_threads else hw) in
  ((0 <= max_threads)%Z -> get_nr_threads hw max_threads = expected) /\
  nr_threads_of hw max_threads = expected /\
  length (threads (start Score it (nr_threads_of hw max_threads)))
  = Z.to_nat expected.
Proof.
  intros Hhw Hint expected.
  destruct (max_threads_of_unsigned Hint) as (Huns & Hval).
  assert (H2 : nr_threads_of hw max_threads = expected).
  { unfold nr_threads_of. rewrite get_nr_threads_value by assumption.
    subst expected. rewrite Hval.
    destruct (Z.gtb_spec (Z.max 0 max_threads) 0);
      destruct (Z.gtb_spec max_threads 0); lia. }
  split; [|split].
  - intros Hpos. unfold nr_threads_of in H2.
    rewrite Hval, Z.max_r in H2 by lia. exact H2.
  - exact H2.
  - rewrite length_threads_start, H2. reflexivity.
Qed.

Lemma nr_threads_law_witness :
  nr_threads_of 8 2 = 2%Z /\ nr_threads_of 0 0 = 1%Z /\
  length (threads (start Z Scenario.candidates (nr_threads_of 8 2))) = 2.
Proof.
  assert (Hhw : is_unsigned 8) by (split; [lia | reflexivity]).
  assert (Hmt : is_int 2) by (split; [discriminate | discriminate]).
  destruct (@nr_threads_law Z 8 2 Scenario.candidates Hhw Hmt)
    as (_ & H2 & H3).
  split; [exact H2 | split; [reflexivity | exact H3]].
Defined.

(** C6.  A [query_inverting_delimiter] of more than one code unit makes
    the request fail with the error "query inverting delimiter must be a
    single character": NULL is returned, no tuple, and no thread has been
    started. *)
Theorem long_query_inverting_delimiter_is_refused (Score : Type)
    (hdr : Headers Score) (args : Args) (items_obj : ItemsObj)
    (sched : list nat) :
  (size (query_inverting_delimiter args) > 1)%Z ->
  cpsm_ctrlp_match hdr args items_obj sched
  = PyNULL (RuntimeError
              "query inverting delimiter must be a single character") /\
  driver_trace hdr args items_obj sched = [].
Proof.
  intros Hlong.
  unfold cpsm_ctrlp_match, driver_trace, ctrlp_match_body, match_stage,
    invert_query.
  destruct (query_inverting_delimiter args) as [|delimiter rest] eqn:E.
  - unfold size in Hlong. simpl in Hlong. lia.
  - destruct (Z.gtb_spec (size (delimiter :: rest)) 1) as [_ | Hle];
      [|lia].
    split; reflexivity.
Qed.

Lemma long_query_inverting_delimiter_is_refused_witness :
  cpsm_ctrlp_match (Scenario.small_headers 2)
                   (Scenario.request 0 0 "" "::")
                   (Iterable Scenario.candidates) [0; 1]
  = PyNULL (RuntimeError
              "query inverting delimiter must be a single character").
Proof.
  apply (@long_query_inverting_delimiter_is_refused Z
           (Scenario.small_headers 2) (Scenario.request 0 0 "" "::")
           (Iterable Scenario.candidates) [0; 1]).
  reflexivity.
Defined.

(** C9.  A negative [limit] and a negative [max_threads] are taken as 0:
    the conversions give 0, and the request answers exactly as it does
    for 0, so no error comes from the sign. *)
Theorem negative_limit_and_max_threads_count_as_zero (Score : Type)
    (hdr : Headers Score) (args : Args) (items_obj : ItemsObj)
    (sched : list nat) (n : Z) :
  (n < 0)%Z ->
  limit_of n = 0%Z /\
  max_threads_of n = 0%Z /\
  cpsm_ctrlp_match hdr (with_limit_int args n) items_obj sched
  = cpsm_ctrlp_match hdr (with_limit_int args 0) items_obj sched /\
  cpsm_ctrlp_match hdr (with_max_threads_int args n) items_obj sched
  = cpsm_ctrlp_match hdr (with_max_threads_int args 0) items_obj sched.
Proof.
  intros Hneg.
  assert (Hlimit : limit_of n = 0%Z).
  { unfold limit_of. destruct (Z.geb_spec n 0); [lia | reflexivity]. }
  assert (Hthreads : max_threads_of n = 0%Z).
  { unfold max_threads_of. destruct (Z.geb_spec n 0); [lia | reflexivity]. }
  split; [exact Hlimit | split; [exact Hthreads | split]].
  - unfold cpsm_ctrlp_match, ctrlp_match_body, match_stage, output_stage.
    cbn [with_limit_int query limit_int mmode is_path cur_file
         highlight_mode match_crfile max_threads_int
         query_inverting_delimiter unicode].
    rewrite Hlimit. reflexivity.
  - unfold cpsm_ctrlp_match, ctrlp_match_body, match_stage, output_stage.
    cbn [with_max_threads_int query limit_int mmode is_path cur_file
         highlight_mode match_crfile max_threads_int
         query_inverting_delimiter unicode].
    rewrite Hthreads. reflexivity.
Qed.

Lemma negative_limit_and_max_threads_count_as_zero_witness :
  limit_of (-1) = 0%Z /\ max_threads_of (-1) = 0%Z /\
  cpsm_ctrlp_match (Scenario.small_headers 2)
                   (Scenario.request (-1) (-1) "" "")
                   (Iterable Scenario.candidates) [1; 0]
  = cpsm_ctrlp_match (Scenario.small_headers 2)
                     (Scenario.request 0 (-1) "" "")
                     (Iterable Scenario.candidates) [1; 0].
Proof.
  destruct (@negative_limit_and_max_threads_count_as_zero Z
              (Scenario.small_headers 2) (Scenario.request 7 (-1) "" "")
              (Iterable Scenario.candidates) [1; 0] (-1) eq_refl)
    as (Hlimit & Hthreads & Hsame & _).
  split; [exact Hlimit | split; [exact Hthreads | exact Hsame]].
Defined.

(** ** The highlight pass *)

Module HighlightFacts.

Import Word WordFacts PathUtil PathFacts Driver.

Section WithHeaders.

Variable Score : Type.
Variable hdr : Headers Score.
Variable matcher : Matcher Score.
Variable item_substr_fn : option (string_ref -> Substr).
Variable highlight_mode : string_ref.

(** The message of the error the highlight pass raises for [m]. *)
Definition rematch_error (m : Match Score) : string :=
  Error ["failed to re-match known match '"%string;
         str (item_str_of item_substr_fn (first (item m)));
         "' during highlight pass"%string].

(** The call that records positions returns false on [m]. *)
Definition rematch_fails (m : Match Score) : Prop :=
  match_positions matcher (item_str_of item_substr_fn (first (item m))) m
  = Ok None.

Lemma highlight_pass_app (pre rest : list (Match Score))
    (regexes : list string) :
  highlight_pass hdr matcher item_substr_fn highlight_mode (pre ++ rest)
                 regexes
  = bind (highlight_pass hdr matcher item_substr_fn highlight_mode pre
                         regexes)
         (highlight_pass hdr matcher item_substr_fn highlight_mode rest).
Proof.
  revert regexes. induction pre as [|m pre IH]; intros regexes; simpl.
  - reflexivity.
  - destruct (match_positions matcher _ m) as [[[sc positions]|]|what];
      simpl; try reflexivity.
    destruct (get_highlight_regexes hdr _ _ _ _) as [regexes'|what];
      simpl; [apply IH | reflexivity].
Qed.

Lemma highlight_pass_fails_at (m : Match Score) (rest : list (Match Score))
    (regexes : list string) :
  rematch_fails m ->
  highlight_pass hdr matcher item_substr_fn highlight_mode (m :: rest)
                 regexes
  = Throw (rematch_error m).
Proof.
  unfold rematch_fails. intros H. simpl. rewrite H. reflexivity.
Qed.

Lemma highlight_pass_throws (v : list (Match Score)) (m : Match Score) :
  In m v -> rematch_fails m ->
  forall regexes, exists what,
    highlight_pass hdr matcher item_substr_fn highlight_mode v regexes
    = Throw what.
Proof.
  intros Hin Hfail.
  apply in_split in Hin. destruct Hin as (pre & post & ->).
  intros regexes. rewrite highlight_pass_app.
  destruct (highlight_pass hdr matcher item_substr_fn highlight_mode pre
                           regexes) as [regexes'|what]; simpl.
  - exists (rematch_error m). now apply highlight_pass_fails_at.
  - now exists what.
Qed.

End WithHeaders.

Lemma highlighting_true (mode : string_ref) :
  mode <> ref "" -> mode <> ref "none" -> highlighting mode = true.
Proof.
  intros Hempty Hnone. unfold highlighting. apply andb_true_iff. split.
  - destruct mode; [now elim Hempty | reflexivity].
  - unfold string_ref_neqb. apply negb_true_iff.
    destruct (string_ref_eqb mode (ref "none")) eqn:E; [|reflexivity].
    apply string_ref_eqb_eq in E. contradiction.
Qed.

End HighlightFacts.

Import HighlightFacts.

(** C8.  With a highlight mode other than [""] and ["none"], when the
    request reaches the highlight pass and the second call of
    [matcher.match] returns false on one of the merged matches, the request
    ends with an error and NULL, whatever the other matches are: no tuple
    is returned.  When the passes over the matches before it went through,
    the error is "failed to re-match known match '...' during highlight
    pass" for that match. *)
Theorem failed_rematch_aborts_the_request (Score : Type)
    (hdr : Headers Score) (args : Args) (items_obj : ItemsObj)
    (sched : list nat) (mg : Merged Score) (m : Match Score) :
  highlight_mode args <> ref "" ->
  highlight_mode args <> ref "none" ->
  snd (match_stage hdr args items_obj sched) = Ok (inr mg) ->
  In m (all_matches mg) ->
  rematch_fails (the_matcher mg) (the_item_substr_fn mg) m ->
  (exists what,
      cpsm_ctrlp_match hdr args items_obj sched
      = PyNULL (RuntimeError what)) /\
  (forall pre post regexes,
      all_matches mg = pre ++ m :: post ->
      highlight_pass hdr (the_matcher mg) (the_item_substr_fn mg)
                     (highlight_mode args) pre [] = Ok regexes ->
      cpsm_ctrlp_match hdr args items_obj sched
      = PyNULL (RuntimeError
                  (rematch_error (the_item_substr_fn mg) m))).
Proof.
  intros Hempty Hnone Hstage Hin Hfail.
  pose proof (highlighting_true Hempty Hnone) as Hmode.
  unfold cpsm_ctrlp_match, ctrlp_match_body.
  destruct (match_stage hdr args items_obj sched) as [trace reached].
  simpl in Hstage. subst reached. simpl. unfold output_stage.
  rewrite Hmode. split.
  - destruct (highlight_pass_throws hdr (highlight_mode args) _ Hin Hfail [])
      as (what & ->).
    simpl. now exists what.
  - intros pre post regexes Hsplit Hpre.
    rewrite Hsplit, highlight_pass_app, Hpre. cbn [bind].
    rewrite (highlight_pass_fails_at hdr (highlight_mode args) post regexes
               Hfail).
    reflexivity.
Qed.

Lemma failed_rematch_aborts_the_request_witness :
  cpsm_ctrlp_match (Scenario.small_headers 2)
                   (Scenario.request 0 0 "basic" "")
                   (Iterable Scenario.candidates_rematch) [0]
  = PyNULL (RuntimeError
              "failed to re-match known match 'mxy' during highlight pass").
Proof.
  pose (mg := {| the_matcher := Scenario.small_matcher;
                 the_item_substr_fn := None;
                 all_matches := [Scenario.match_of 1 "ma";
                                 Scenario.match_of 2 "mxy"];
                 error_left_set := false |}).
  destruct (@failed_rematch_aborts_the_request Z
              (Scenario.small_headers 2)
              (Scenario.request 0 0 "basic" "")
              (Iterable Scenario.candidates_rematch) [0] mg
              (Scenario.match_of 2 "mxy"))
    as (_ & Hmessage).
  - discriminate.
  - discriminate.
  - reflexivity.
  - simpl. right. left. reflexivity.
  - reflexivity.
  - apply (Hmessage [Scenario.match_of 1 "ma"] [] ["ma"%string]);
      reflexivity.
Defined.

(** ** Where the driver leaves the specification *)

(** C2 (the code does otherwise).  Two threads; matching throws in thread
    0 while thread 1 has not yet taken a turn.  The loop of lines 260 to
    266 joins thread 0, finds its exception and throws at once: thread 1,
    still running, is never joined, and the request ends with the error of
    thread 0. *)
Theorem join_loop_throws_before_joining_every_thread :
  let hdr := Scenario.small_headers 2 in
  let args := Scenario.request 0 0 "" "" in
  let items_obj := Iterable Scenario.candidates_throwing in
  let running := run hdr Scenario.small_matcher None 0 [0]
                     (start Z Scenario.candidates_throwing 2) in
  nr_threads_of (hardware_concurrency hdr) (max_threads_int args) = 2%Z /\
  driver_trace hdr args items_obj [0] = [EvJoin 0; EvThrow "boom"] /\
  ~ In (EvJoin 1) (driver_trace hdr args items_obj [0]) /\
  map (@status Z)
      (threads (fst (fst (join_threads hdr Scenario.small_matcher None 0
                                       2 0 running 0 []))))
  = [Threw "boom"; Running] /\
  cpsm_ctrlp_match hdr args items_obj [0] = PyNULL (RuntimeError "boom").
Proof.
  cbv zeta. split; [reflexivity|]. split; [reflexivity|].
  split; [|split; reflexivity].
  intros [H | [H | []]]; discriminate.
Qed.

(** C7 (the code does otherwise).  The iterator raises after its first
    candidate: [PyIter_Next] returns NULL with the exception set.  The
    worker takes this for the end of the stream: it sets
    [end_of_python_iter], leaves [have_python_ex] unset, does not return
    but matches the batch, and the request returns a tuple with the
    exception still set. *)
Theorem iterator_error_is_taken_for_end_of_stream :
  let hdr := Scenario.small_headers 2 in
  let args := Scenario.request 0 0 "" "" in
  let st := start Z Scenario.candidates_raising 1 in
  let turn := worker_turn hdr Scenario.small_matcher None 0 (shared st)
                          (new_worker Z) in
  have_python_ex (fst turn) = false /\
  end_of_python_iter (fst turn) = true /\
  error_indicator (fst turn) = true /\
  status (snd turn) = Running /\
  matches (snd turn) = [Scenario.match_of 1 "ma"] /\
  cpsm_ctrlp_match hdr args (Iterable Scenario.candidates_raising) [0]
  = PyTuple [Scenario.py_str 1 "ma"] [] true.
Proof.
  cbv zeta. repeat split; reflexivity.
Qed.

(** ** The top-K lists and the size of the result *)

Module TopKFacts.

Import Word WordFacts PathUtil Driver.

Section WithMatcher.

Variable Score : Type.
Variable hdr : Headers Score.
Variable matcher : Matcher Score.
Variable item_substr_fn : option (string_ref -> Substr).
Variable limit : Z.

Hypothesis limit_nonneg : (0 <= limit)%Z.

(** The first call of [matcher.match] returns true on [it]. *)
Definition is_match (it : Item) : bool :=
  match match_ matcher (item_str_of item_substr_fn (first it)) it with
  | Ok (Some _) => true
  | _ => false
  end.

(** The number of candidates among [objs] that match: a candidate is an
    object with its bytes. *)
Definition obj_matches (obj : PyObject) : bool :=
  match ob_bytes obj with
  | Some item_data => is_match {| first := item_data; second := obj |}
  | None => false
  end.

Definition count_matches (objs : list PyObject) : nat :=
  length (filter obj_matches objs).

(** The length of a list of [len] matches after [d] more matches were
    offered to it under the limit. *)
Definition grow (len d : nat) : nat :=
  if (limit =? 0)%Z then len + d else Nat.min (len + d) (Z.to_nat limit).

(** A list of [len] matches respects the limit. *)
Definition within_limit_len (len : nat) : Prop :=
  (0 < limit)%Z -> len <= Z.to_nat limit.

Lemma take_largest_length (v : list (Match Score)) :
  forall m, length (snd (take_largest hdr m v)) = length v.
Proof.
  induction v as [|m' v IH]; intros m; simpl; [reflexivity|].
  destruct (match_lt hdr m m').
  - specialize (IH m'). destruct (take_largest hdr m' v). simpl in *. lia.
  - specialize (IH m). destruct (take_largest hdr m v). simpl in *. lia.
Qed.

Lemma pop_heap_length (v : list (Match Score)) :
  length (pop_heap hdr v) = length v.
Proof.
  destruct v as [|m v]; simpl; [reflexivity|].
  pose proof (take_largest_length v m) as H.
  destruct (take_largest hdr m v) as [big rest]. simpl in H.
  rewrite length_app. simpl. lia.
Qed.

Lemma pop_back_length (A : Type) (v : list A) :
  length (pop_back v) = length v - 1.
Proof.
  unfold pop_back. induction v as [|a [|b v] IH]; simpl in *; lia.
Qed.

Lemma grow_none len : within_limit_len len -> grow len 0 = len.
Proof.
  unfold grow, within_limit_len. intros H.
  destruct (Z.eqb_spec limit 0); [lia|].
  rewrite Nat.add_0_r. apply Nat.min_l. apply H. lia.
Qed.

Lemma grow_more len d :
  within_limit_len len -> grow (grow len 1) d = grow len (S d).
Proof.
  unfold grow, within_limit_len. intros H.
  destruct (Z.eqb_spec limit 0); lia.
Qed.

Lemma grow_within_limit len d : within_limit_len (grow len d).
Proof.
  unfold grow, within_limit_len. intros H.
  destruct (Z.eqb_spec limit 0); lia.
Qed.

(** One candidate: the list stays within the limit, and its length grows
    as [grow] says when no exception leaves the loop. *)
Lemma process_item_length (matches : list (Match Score))
    (unmatched_objs : list PyObject) (it : Item) :
  within_limit_len (length matches) ->
  let r := process_item hdr matcher item_substr_fn limit matches
                        unmatched_objs it in
  within_limit_len (length (fst (fst r))) /\
  (snd r = None ->
   length (fst (fst r))
   = grow (length matches) (if is_match it then 1 else 0)).
Proof.
  intros Hlen. unfold process_item, is_match.
  destruct (match_ matcher (item_str_of item_substr_fn (first it)) it)
    as [[sc|]|what]; cbn zeta.
  - (* a match *)
    unfold push_heap, size.
    destruct (Z.eqb_spec limit 0) as [Hzero | Hpos]; cbn [negb].
    + cbn [fst snd]. rewrite length_app. cbn [length]. split.
      * unfold within_limit_len. lia.
      * intros _. unfold grow. rewrite Hzero. reflexivity.
    + unfold within_limit_len in Hlen.
      destruct (Z.gtb_spec (Z.of_nat (length (matches ++ [{| item := it; score := sc |}]))) limit)
        as [Hover | Hfits]; cbn [fst snd];
        rewrite ?pop_back_length, ?pop_heap_length, length_app in *;
        cbn [length] in *; unfold grow, within_limit_len;
        destruct (Z.eqb_spec limit 0); try contradiction; split; lia.
  - (* no match *)
    cbn [fst snd]. split; [exact Hlen|]. intros _.
    symmetry. now apply grow_none.
  - (* matching throws *)
    cbn [fst snd]. split; [exact Hlen | discriminate].
Qed.

(** A batch: the same, with the number of its candidates that match. *)
Lemma process_items_length (batch : list Item) :
  forall (matches : list (Match Score)) (unmatched_objs : list PyObject),
    within_limit_len (length matches) ->
    let r := process_items hdr matcher item_substr_fn limit batch matches
                           unmatched_objs in
    within_limit_len (length (fst (fst r))) /\
    (snd r = None ->
     length (fst (fst r))
     = grow (length matches) (length (filter is_match batch))).
Proof.
  induction batch as [|it batch IH]; intros matches unmatched_objs Hlen.
  - cbn. split; [exact Hlen|]. intros _. symmetry. now apply grow_none.
  - cbn [process_items filter].
    pose proof (process_item_length matches unmatched_objs it Hlen)
      as (Hlen' & Hgrow).
    destruct (process_item hdr matcher item_substr_fn limit matches
                           unmatched_objs it)
      as [[matches' unmatched_objs'] [what|]]; cbn [fst snd] in *.
    + split; [exact Hlen' | discriminate].
    + specialize (Hgrow eq_refl).
      destruct (IH matches' unmatched_objs' Hlen') as (Hlen'' & Hgrow').
      split; [exact Hlen''|].
      intros Hnone. rewrite (Hgrow' Hnone), Hgrow.
      destruct (is_match it); cbn [length].
      * now apply grow_more.
      * rewrite grow_none by exact Hlen. reflexivity.
Qed.

(** A candidate as the inner loop builds it from an object. *)
Definition built_from_object (it : Item) : Prop :=
  ob_bytes (second it) = Some (first it).

Lemma obj_matches_built (it : Item) :
  built_from_object it -> obj_matches (second it) = is_match it.
Proof.
  unfold built_from_object, obj_matches. intros ->. now destruct it.
Qed.

Lemma count_matches_built (pulled : list Item) :
  Forall built_from_object pulled ->
  count_matches (map second pulled) = length (filter is_match pulled).
Proof.
  unfold count_matches. induction 1 as [|it pulled Hit _ IH];
    [reflexivity|].
  cbn [map filter]. rewrite (obj_matches_built Hit).
  destruct (is_match it); cbn [length]; now rewrite IH.
Qed.

Lemma count_matches_app (a b : list PyObject) :
  count_matches (a ++ b) = count_matches a + count_matches b.
Proof. unfold count_matches. now rewrite filter_app, length_app. Qed.

(** What the inner loop does to the iterator, the batch and the flags,
    entered with [end_of_python_iter] unset. *)
Lemma collect_batch_spec (rest : list PyObject) :
  forall (sh : Shared) (items : list Item) (acc : Z)
         (sh' : Shared) (batch : list Item) (returned : bool),
    collect_batch rest sh items acc = (sh', batch, returned) ->
    end_of_python_iter sh = false ->
    exists pulled : list Item,
      Forall built_from_object pulled /\
      length (pending (items_iter sh')) + length pulled <= length rest /\
      (end_of_python_iter sh' = true -> pending (items_iter sh') = []) /\
      (returned = true -> have_python_ex sh' = true) /\
      (returned = false ->
       batch = items ++ pulled /\
       rest = map second pulled ++ pending (items_iter sh') /\
       have_python_ex sh' = have_python_ex sh /\
       ((acc < kBatchSizeBytes)%Z -> pulled = [] ->
        end_of_python_iter sh' = true)).
Proof.
  induction rest as [|item_obj rest IH];
    intros sh items acc sh' batch returned Hrun Hend.
  - exists []. cbn [collect_batch] in Hrun.
    destruct (Z.ltb_spec acc kBatchSizeBytes);
      injection Hrun as <- <- <-; cbn; rewrite ?app_nil_r;
      repeat split; try discriminate; auto; try lia.
  - cbn [collect_batch] in Hrun.
    destruct (Z.ltb_spec acc kBatchSizeBytes) as [Hlt | Hge].
    + destruct (ob_bytes item_obj) as [item_data|] eqn:Hbytes.
      * destruct (IH _ _ _ _ _ _ Hrun Hend)
          as (pulled & Hbuilt & Hlen & Hempty & Hret & Hloop).
        exists ({| first := item_data; second := item_obj |} :: pulled).
        split; [constructor; [exact Hbytes | exact Hbuilt]|].
        split; [cbn [length]; lia|].
        split; [exact Hempty|]. split; [exact Hret|].
        intros Hfalse.
        destruct (Hloop Hfalse) as (Hbatch & Hrest & Hex & _).
        split; [rewrite Hbatch, <- app_assoc; reflexivity|].
        split; [cbn [map second app]; now rewrite <- Hrest|].
        split; [exact Hex|]. discriminate.
      * injection Hrun as <- <- <-. exists []. cbn.
        repeat split; try discriminate; auto; try lia;
          try (rewrite Hend; discriminate).
    + injection Hrun as <- <- <-. exists []. cbn. rewrite app_nil_r.
      repeat split; try discriminate; auto; try lia;
        try (rewrite Hend; discriminate).
Qed.

(** One turn of a worker that starts with no items of its own. *)
Lemma worker_turn_spec (sh sh' : Shared) (w w' : Worker Score) :
  worker_turn hdr matcher item_substr_fn limit sh w = (sh', w') ->
  items w = [] ->
  (end_of_python_iter sh = true -> pending (items_iter sh) = []) ->
  within_limit_len (length (matches w)) ->
  items w' = [] /\
  within_limit_len (length (matches w')) /\
  (end_of_python_iter sh' = true -> pending (items_iter sh') = []) /\
  (end_of_python_iter sh = true -> end_of_python_iter sh' = true) /\
  (have_python_ex sh = true -> have_python_ex sh' = true) /\
  (status w' = Returned ->
   end_of_python_iter sh' || have_python_ex sh' = true) /\
  (status w' = Running ->
   length (pending (items_iter sh')) < length (pending (items_iter sh))) /\
  (have_python_ex sh' = false ->
   (forall what, status w' <> Threw what) ->
   exists d,
     d + count_matches (pending (items_iter sh'))
     = count_matches (pending (items_iter sh)) /\
     length (matches w') = grow (length (matches w)) d).
Proof.
  intros Hturn Hitems Hend Hlen. unfold worker_turn in Hturn.
  destruct (end_of_python_iter sh || have_python_ex sh) eqn:Hflags.
  - (* a flag is set: the thread returns *)
    injection Hturn as <- <-. cbn.
    repeat split; auto; try discriminate.
    intros _ _. exists 0. split; [reflexivity|].
    symmetry. now apply grow_none.
  - apply orb_false_iff in Hflags. destruct Hflags as (Hend0 & Hex0).
    destruct (collect_batch (pending (items_iter sh)) sh (items w) 0)
      as [[sh1 batch] returned] eqn:Hcollect.
    destruct (collect_batch_spec _ _ _ _ Hcollect Hend0)
      as (pulled & Hbuilt & Hshorter & Hempty & Hreturned & Hloop).
    destruct returned.
    + (* an object that is no string *)
      injection Hturn as <- <-. cbn.
      specialize (Hreturned eq_refl).
      repeat split; auto; try discriminate; try congruence.
      * intros _. rewrite Hreturned. apply orb_true_r.
    + destruct (Hloop eq_refl) as (Hbatch & Hrest & Hex & Hnothing).
      rewrite Hitems in Hbatch. cbn [app] in Hbatch. subst batch.
      destruct pulled as [|it pulled]; cbn [empty_vec] in Hturn.
      * (* nothing pulled: the stream has ended *)
        injection Hturn as <- <-. cbn.
        assert (Hend1 : end_of_python_iter sh1 = true)
          by (apply Hnothing; [reflexivity | reflexivity]).
        repeat split; auto; try discriminate; try congruence.
        -- intros _. rewrite Hend1. reflexivity.
        -- intros _ _. exists 0. cbn [map app] in Hrest.
           rewrite Hrest. split; [reflexivity|].
           symmetry. now apply grow_none.
      * (* a batch to match *)
        pose proof (process_items_length (it :: pulled) (matches w) []
                      Hlen) as (Hwithin & Hgrow).
        destruct (process_items hdr matcher item_substr_fn limit
                                (it :: pulled) (matches w) [])
          as [[matches' unmatched_objs'] [what|]];
          injection Hturn as <- <-; cbn [fst snd] in *; cbn.
        -- repeat split; auto; try discriminate; try congruence.
           intros _ Hthrew. now elim (Hthrew what).
        -- repeat split; auto; try discriminate; try congruence.
           ++ intros _. cbn [length] in Hshorter. lia.
           ++ intros _ _. exists (length (filter is_match (it :: pulled))).
              split; [|now apply Hgrow].
              rewrite Hrest, count_matches_app, count_matches_built
                by exact Hbuilt.
              reflexivity.
Qed.

(** *** The state of all threads *)

Lemma set_nth_split (A : Type) (v : list A) :
  forall (i : nat) (w a : A),
    nth_error v i = Some w ->
    exists pre post,
      v = pre ++ w :: post /\ set_nth v i a = pre ++ a :: post /\
      length pre = i.
Proof.
  induction v as [|b v IH]; intros [|i] w a H; try discriminate.
  - injection H as ->. now exists [], v.
  - cbn in H. destruct (IH i w a H) as (pre & post & -> & Hset & Hlen).
    exists (b :: pre), post. cbn. rewrite Hset, Hlen. auto.
Qed.

(** What a step is: nothing, or a turn of a running thread. *)
Lemma step_cases (i : nat) (st : State Score) :
  step hdr matcher item_substr_fn limit i st = st \/
  exists w sh' w' pre post,
    threads st = pre ++ w :: post /\ length pre = i /\
    status w = Running /\
    worker_turn hdr matcher item_substr_fn limit (shared st) w = (sh', w') /\
    step hdr matcher item_substr_fn limit i st
    = {| shared := sh'; threads := pre ++ w' :: post |}.
Proof.
  unfold step. destruct (nth_error (threads st) i) as [w|] eqn:Hnth;
    [|now left].
  destruct (status w) eqn:Hstatus; try now left.
  right.
  destruct (worker_turn hdr matcher item_substr_fn limit (shared st) w)
    as [sh' w'] eqn:Hturn.
  destruct (@set_nth_split _ (threads st) i w w' Hnth)
    as (pre & post & Hv & Hset & Hlen).
  exists w, sh', w', pre, post. rewrite Hset. auto.
Qed.

(** Sequences of steps. *)
Inductive steps : State Score -> State Score -> Prop :=
| steps_done (st : State Score) : steps st st
| steps_next (st st' : State Score) (i : nat) :
    steps (step hdr matcher item_substr_fn limit i st) st' -> steps st st'.

Lemma steps_trans (a b c : State Score) :
  steps a b -> steps b c -> steps a c.
Proof.
  induction 1 as [|a b i _ IH]; intros Hbc; [exact Hbc|].
  apply steps_next with i. now apply IH.
Qed.

Lemma run_steps (sched : list nat) :
  forall st, steps st (run hdr matcher item_substr_fn limit sched st).
Proof.
  induction sched as [|i sched IH]; intros st; cbn.
  - constructor.
  - apply steps_next with i. apply IH.
Qed.

Lemma iter_steps (i n : nat) :
  forall st,
    steps st (Nat.iter n (step hdr matcher item_substr_fn limit i) st).
Proof.
  induction n as [|n IH]; intros st.
  - constructor.
  - rewrite Nat.iter_succ_r. apply steps_next with i. apply IH.
Qed.

Lemma join_steps (i : nat) (st : State Score) :
  steps st (join hdr matcher item_substr_fn limit i st).
Proof. apply iter_steps. Qed.

(** What holds of every state of a request. *)
Definition worker_ok (sh : Shared) (w : Worker Score) : Prop :=
  items w = [] /\
  within_limit_len (length (matches w)) /\
  (status w = Returned ->
   end_of_python_iter sh || have_python_ex sh = true).

Definition state_ok (st : State Score) : Prop :=
  (end_of_python_iter (shared st) = true ->
   pending (items_iter (shared st)) = []) /\
  Forall (worker_ok (shared st)) (threads st).

(** No error so far: no object that is not a string, no exception. *)
Definition no_threw (w : Worker Score) : Prop :=
  forall what, status w <> Threw what.

Definition clean (st : State Score) : Prop :=
  have_python_ex (shared st) = false /\ Forall no_threw (threads st).

(** The matches the threads hold, and the matching candidates still in
    the iterator. *)
Definition held (v : list (Worker Score)) : nat :=
  list_sum (map (fun w => length (matches w)) v).

Definition left (st : State Score) : nat :=
  count_matches (pending (items_iter (shared st))).

Definition full (w : Worker Score) : Prop :=
  length (matches w) = Z.to_nat limit.

(** Of [total] matching candidates none is lost, unless a thread holds as
    many as the limit allows. *)
Definition counted (total : nat) (st : State Score) : Prop :=
  clean st ->
  held (threads st) + left st <= total /\
  (held (threads st) + left st = total \/
   ((0 < limit)%Z /\ Exists full (threads st))).

Lemma held_app (a b : list (Worker Score)) :
  held (a ++ b) = held a + held b.
Proof. unfold held. now rewrite map_app, list_sum_app. Qed.

Lemma worker_ok_flags (sh sh' : Shared) (w : Worker Score) :
  (end_of_python_iter sh = true -> end_of_python_iter sh' = true) ->
  (have_python_ex sh = true -> have_python_ex sh' = true) ->
  worker_ok sh w -> worker_ok sh' w.
Proof.
  intros Hend Hex (Hitems & Hlen & Hret). repeat split; auto.
  intros Hreturned. apply Hret in Hreturned.
  apply orb_true_iff in Hreturned. apply orb_true_iff. tauto.
Qed.

(** A step from a state that is in order: nothing, or a turn with all
    that [worker_turn_spec] says of it. *)
Lemma step_spec (i : nat) (st : State Score) :
  state_ok st ->
  step hdr matcher item_substr_fn limit i st = st \/
  exists w sh' w' pre post,
    threads st = pre ++ w :: post /\ length pre = i /\
    status w = Running /\
    step hdr matcher item_substr_fn limit i st
    = {| shared := sh'; threads := pre ++ w' :: post |} /\
    worker_ok (shared st) w /\
    items w' = [] /\
    within_limit_len (length (matches w')) /\
    (end_of_python_iter sh' = true -> pending (items_iter sh') = []) /\
    (end_of_python_iter (shared st) = true ->
     end_of_python_iter sh' = true) /\
    (have_python_ex (shared st) = true -> have_python_ex sh' = true) /\
    (status w' = Returned ->
     end_of_python_iter sh' || have_python_ex sh' = true) /\
    (status w' = Running ->
     length (pending (items_iter sh'))
     < length (pending (items_iter (shared st)))) /\
    (have_python_ex sh' = false -> no_threw w' ->
     exists d,
       d + count_matches (pending (items_iter sh'))
       = count_matches (pending (items_iter (shared st))) /\
       length (matches w') = grow (length (matches w)) d).
Proof.
  intros (Hend & Hworkers).
  destruct (step_cases i st)
    as [Hsame | (w & sh' & w' & pre & post & Hv & Hlen & Hrun & Hturn & Hstep)];
    [now left | right].
  exists w, sh', w', pre, post.
  assert (Hw : worker_ok (shared st) w).
  { rewrite Hv in Hworkers. apply Forall_app in Hworkers.
    destruct Hworkers as (_ & Hw). now inversion Hw. }
  destruct Hw as (Hitems & Hwithin & Hret).
  pose proof (worker_turn_spec _ _ Hturn Hitems Hend Hwithin) as Hspec.
  unfold worker_ok. tauto.
Qed.

Lemma step_state_ok (i : nat) (st : State Score) :
  state_ok st -> state_ok (step hdr matcher item_substr_fn limit i st).
Proof.
  intros Hok.
  destruct (step_spec i Hok)
    as [-> | (w & sh' & w' & pre & post & Hv & Hlen & Hrun & -> & Hw
              & Hitems & Hwithin & Hempty & Hend & Hex & Hret & _)];
    [exact Hok|].
  destruct Hok as (_ & Hworkers). split; cbn; [exact Hempty|].
  rewrite Hv in Hworkers. apply Forall_app in Hworkers.
  destruct Hworkers as (Hpre & Hpost). inversion Hpost; subst.
  apply Forall_app. split; [|constructor].
  - eapply Forall_impl; [|exact Hpre].
    intros a. now apply worker_ok_flags.
  - unfold worker_ok. auto.
  - eapply Forall_impl; [|eassumption].
    intros a. now apply worker_ok_flags.
Qed.

Lemma step_clean (i : nat) (st : State Score) :
  state_ok st ->
  clean (step hdr matcher item_substr_fn limit i st) -> clean st.
Proof.
  intros Hok.
  destruct (step_spec i Hok)
    as [-> | (w & sh' & w' & pre & post & Hv & Hlen & Hrun & -> & Hw
              & Hitems & Hwithin & Hempty & Hend & Hex & Hret & _)];
    [auto|].
  intros (Hnoex & Hnothrew). cbn in *. split.
  - destruct (have_python_ex (shared st)); [|reflexivity].
    rewrite Hex in Hnoex by reflexivity. discriminate.
  - rewrite Hv. apply Forall_app in Hnothrew.
    destruct Hnothrew as (Hpre & Hpost). inversion Hpost; subst.
    apply Forall_app. split; [exact Hpre|]. constructor; [|assumption].
    intros what. rewrite Hrun. discriminate.
Qed.

Lemma step_length (i : nat) (st : State Score) :
  length (threads (step hdr matcher item_substr_fn limit i st))
  = length (threads st).
Proof.
  destruct (step_cases i st)
    as [-> | (w & sh' & w' & pre & post & Hv & _ & _ & _ & ->)];
    [reflexivity|].
  cbn. rewrite Hv, !length_app. reflexivity.
Qed.

(** A thread that has left its function stays as it is. *)
Lemma step_settled (i j : nat) (st : State Score) (w : Worker Score) :
  nth_error (threads st) j = Some w -> status w <> Running ->
  nth_error (threads (step hdr matcher item_substr_fn limit i st)) j
  = Some w.
Proof.
  intros Hnth Hleft.
  destruct (step_cases i st)
    as [-> | (w0 & sh' & w' & pre & post & Hv & Hlen & Hrun & _ & ->)];
    [exact Hnth|].
  cbn. rewrite Hv in Hnth.
  destruct (Nat.lt_ge_cases j (length pre)) as [Hlt | Hge].
  - rewrite nth_error_app1 in * by exact Hlt. exact Hnth.
  - rewrite nth_error_app2 in * by exact Hge.
    destruct (j - length pre) as [|k] eqn:Hk; cbn in *; [|exact Hnth].
    injection Hnth as <-. contradiction.
Qed.

(** A turn of a running thread ends it or shortens the iterator. *)
Lemma step_progress (i : nat) (st : State Score) (w : Worker Score) :
  state_ok st ->
  nth_error (threads st) i = Some w -> status w = Running ->
  exists w',
    nth_error (threads (step hdr matcher item_substr_fn limit i st)) i
    = Some w' /\
    (status w' <> Running \/
     length (pending (items_iter
               (shared (step hdr matcher item_substr_fn limit i st))))
     < length (pending (items_iter (shared st)))).
Proof.
  intros (Hend & Hworkers) Hnth Hrun.
  unfold step. rewrite Hnth, Hrun.
  destruct (worker_turn hdr matcher item_substr_fn limit (shared st) w)
    as [sh' w'] eqn:Hturn.
  destruct (@set_nth_split _ (threads st) i w w' Hnth)
    as (pre & post & Hv & Hset & Hlen).
  assert (Hw : worker_ok (shared st) w).
  { rewrite Hv in Hworkers. apply Forall_app in Hworkers.
    destruct Hworkers as (_ & Hw). now inversion Hw. }
  destruct Hw as (Hitems & Hwithin & _).
  pose proof (worker_turn_spec _ _ Hturn Hitems Hend Hwithin)
    as (_ & _ & _ & _ & _ & _ & Hshorter & _).
  exists w'. cbn. rewrite Hset, <- Hlen, nth_error_app2, Nat.sub_diag by lia.
  split; [reflexivity|].
  destruct (status w') eqn:Hs; try (left; discriminate).
  right. now apply Hshorter.
Qed.

Lemma held_cons (w : Worker Score) (v : list (Worker Score)) :
  held (w :: v) = length (matches w) + held v.
Proof. reflexivity. Qed.

Lemma grow_cases (len d : nat) :
  grow len d <= len + d /\
  (grow len d = len + d \/
   ((0 < limit)%Z /\ grow len d = Z.to_nat limit)).
Proof.
  unfold grow. destruct (Z.eqb_spec limit 0); [lia|].
  destruct (Nat.le_ge_cases (len + d) (Z.to_nat limit)).
  - rewrite Nat.min_l by assumption. lia.
  - rewrite Nat.min_r by assumption. lia.
Qed.

Lemma grow_full (len d : nat) :
  (0 < limit)%Z -> len = Z.to_nat limit -> grow len d = Z.to_nat limit.
Proof.
  unfold grow. intros Hpos ->. destruct (Z.eqb_spec limit 0); lia.
Qed.

Lemma step_counted (total i : nat) (st : State Score) :
  state_ok st -> counted total st ->
  counted total (step hdr matcher item_substr_fn limit i st).
Proof.
  intros Hok Hcounted Hclean'.
  pose proof (@step_clean i st Hok Hclean') as Hclean.
  destruct (Hcounted Hclean) as (Hle & Hcase).
  destruct (step_spec i Hok)
    as [Hsame | (w & sh' & w' & pre & post & Hv & Hlen & Hrun & Hstep & Hw
                 & _ & _ & _ & _ & _ & _ & _ & Hgrow)].
  - rewrite Hsame. auto.
  - rewrite Hstep in *. unfold left in *. cbn [shared threads] in *.
    destruct Hclean' as (Hnoex & Hnothrew).
    apply Forall_app in Hnothrew. destruct Hnothrew as (_ & Hnothrew).
    inversion Hnothrew as [|? ? Hw' _]; subst.
    destruct (Hgrow Hnoex Hw') as (d & Hd & Hlength).
    rewrite Hv in Hle, Hcase. rewrite held_app, held_cons in *.
    rewrite Hlength.
    destruct (grow_cases (length (matches w)) d) as (Hbound & Hgrown).
    split; [lia|].
    destruct Hcase as [Hall | (Hpos & Hfull)].
    + destruct Hgrown as [Hsum | (Hpos & Hk)]; [left; lia|].
      right. split; [exact Hpos|].
      apply Exists_app. right. apply Exists_cons_hd.
      unfold full. now rewrite Hlength.
    + right. split; [exact Hpos|].
      apply Exists_app in Hfull. apply Exists_app.
      destruct Hfull as [Hpre | Hpost]; [now left | right].
      inversion Hpost as [? ? Hwfull | ? ? Hrest]; subst.
      * apply Exists_cons_hd. unfold full in *.
        rewrite Hlength. now apply grow_full.
      * now apply Exists_cons_tl.
Qed.

(** All of it along a sequence of steps. *)
Lemma steps_invariants (total : nat) (st st' : State Score) :
  steps st st' ->
  state_ok st ->
  state_ok st' /\
  (clean st' -> clean st) /\
  (counted total st -> counted total st') /\
  length (threads st') = length (threads st) /\
  (forall j w, nth_error (threads st) j = Some w ->
               status w <> Running ->
               nth_error (threads st') j = Some w).
Proof.
  induction 1 as [st | st st' i _ IH]; intros Hok.
  - split; [exact Hok|]. split; [tauto|]. split; [tauto|].
    split; [reflexivity | auto].
  - destruct (IH (step_state_ok i Hok))
      as (Hok' & Hclean & Hcounted & Hlength & Hsettled).
    split; [|split; [|split; [|split]]].
    + exact Hok'.
    + intros Hc. apply (@step_clean i st Hok). now apply Hclean.
    + intros Hc. apply Hcounted. now apply step_counted.
    + rewrite Hlength. apply step_length.
    + intros j w Hnth Hleft. apply Hsettled; [|exact Hleft].
      now apply step_settled.
Qed.

(** *** Joining *)

Lemma settled_along_steps (st st' : State Score) (j : nat)
    (w : Worker Score) :
  steps st st' -> state_ok st ->
  nth_error (threads st) j = Some w -> status w <> Running ->
  nth_error (threads st') j = Some w.
Proof.
  intros Hsteps Hok.
  destruct (steps_invariants 0 Hsteps Hok) as (_ & _ & _ & _ & Hsettled).
  apply Hsettled.
Qed.

(** Enough turns end a thread. *)
Lemma iter_step_done (i n : nat) :
  forall (st : State Score) (w : Worker Score),
    state_ok st -> nth_error (threads st) i = Some w ->
    length (pending (items_iter (shared st))) < n ->
    exists w',
      nth_error
        (threads (Nat.iter n (step hdr matcher item_substr_fn limit i) st))
        i = Some w' /\
      status w' <> Running.
Proof.
  induction n as [|n IH]; intros st w Hok Hnth Hfuel; [lia|].
  destruct (status w) eqn:Hstatus.
  - rewrite Nat.iter_succ_r.
    destruct (step_progress i Hok Hnth Hstatus) as (w1 & Hnth1 & Hcase).
    destruct Hcase as [Hleft | Hshorter].
    + exists w1. split; [|exact Hleft].
      apply settled_along_steps
        with (st := step hdr matcher item_substr_fn limit i st);
        [apply iter_steps | now apply step_state_ok | exact Hnth1
        | exact Hleft].
    + apply IH with w1; [now apply step_state_ok | exact Hnth1 | lia].
  - exists w. split; [|rewrite Hstatus; discriminate].
    apply settled_along_steps with (st := st);
      [apply iter_steps | exact Hok | exact Hnth
      | rewrite Hstatus; discriminate].
  - exists w. split; [|rewrite Hstatus; discriminate].
    apply settled_along_steps with (st := st);
      [apply iter_steps | exact Hok | exact Hnth
      | rewrite Hstatus; discriminate].
Qed.

(** [join] returns: the thread has left its function. *)
Lemma join_done (i : nat) (st : State Score) (w : Worker Score) :
  state_ok st -> nth_error (threads st) i = Some w ->
  exists w',
    nth_error (threads (join hdr matcher item_substr_fn limit i st)) i
    = Some w' /\
    status w' <> Running.
Proof.
  intros Hok Hnth. unfold join. apply iter_step_done with w; auto. lia.
Qed.

(** All threads below [i] have returned. *)
Definition returned_below (i : nat) (st : State Score) : Prop :=
  forall j w, j < i -> nth_error (threads st) j = Some w ->
              status w = Returned.

(** When the loop over the threads ends without an exception, it was a
    sequence of steps and every thread it went over has returned. *)
Lemma join_threads_spec (n : nat) :
  forall (i : nat) (st : State Score) (acc : Z) (trace : list Event)
         (st' : State Score) (trace' : list Event) (acc' : Z),
    join_threads hdr matcher item_substr_fn limit n i st acc trace
    = (st', trace', Ok acc') ->
    state_ok st -> i + n <= length (threads st) ->
    returned_below i st ->
    steps st st' /\ returned_below (i + n) st'.
Proof.
  induction n as [|n IH];
    intros i st acc trace st' trace' acc' Hjoin Hok Hlen Hbelow.
  - cbn in Hjoin. injection Hjoin as <- _ _.
    rewrite Nat.add_0_r. split; [constructor | exact Hbelow].
  - cbn [join_threads] in Hjoin.
    pose proof (join_steps i st) as Hsteps.
    destruct (steps_invariants 0 Hsteps Hok)
      as (Hok1 & _ & _ & Hlength & Hsettled).
    destruct (nth_error (threads st) i) as [w|] eqn:Hnth;
      [|apply nth_error_None in Hnth; lia].
    destruct (join_done i Hok Hnth) as (w1 & Hnth1 & Hleft).
    rewrite Hnth1 in Hjoin.
    destruct (status w1) eqn:Hstatus; try discriminate;
      [now elim Hleft|].
    destruct (IH _ _ _ _ _ _ _ Hjoin Hok1) as (Hsteps' & Hbelow').
    + rewrite Hlength. lia.
    + intros j w2 Hj Hnth2.
      destruct (Nat.eq_dec j i) as [-> | Hne].
      * rewrite Hnth1 in Hnth2. injection Hnth2 as <-. exact Hstatus.
      * destruct (nth_error (threads st) j) as [w0|] eqn:Hnth0.
        -- assert (Hw0 : status w0 = Returned)
             by (apply (Hbelow j); [lia | exact Hnth0]).
           rewrite (Hsettled j w0 Hnth0) in Hnth2
             by (rewrite Hw0; discriminate).
           injection Hnth2 as <-. exact Hw0.
        -- apply nth_error_None in Hnth0.
           assert (Hsome : nth_error (threads st) i <> None)
             by (rewrite Hnth; discriminate).
           apply nth_error_Some in Hsome. lia.
    + split; [now apply steps_trans with (join hdr matcher item_substr_fn limit i st)|].
      now rewrite <- Nat.add_succ_comm.
Qed.

(** *** The merged list *)

Lemma start_ok (it : PyIter) (nr_threads : Z) :
  state_ok (start Score it nr_threads).
Proof.
  split; cbn; [discriminate|].
  apply Forall_forall. intros w Hin. apply repeat_spec in Hin. subst w.
  repeat split; cbn; try discriminate.
  unfold within_limit_len. lia.
Qed.

Lemma held_new_workers (n : nat) : held (repeat (new_worker Score) n) = 0.
Proof. induction n as [|n IH]; [reflexivity | exact IH]. Qed.

Lemma start_counted (it : PyIter) (nr_threads : Z) :
  counted (count_matches (pending it)) (start Score it nr_threads).
Proof.
  intros _. unfold left, start. cbn [shared threads items_iter pending].
  rewrite held_new_workers. cbn [Nat.add]. auto.
Qed.

Lemma insert_sorted_length (m : Match Score) (v : list (Match Score)) :
  length (insert_sorted hdr m v) = S (length v).
Proof.
  induction v as [|m' v IH]; cbn; [reflexivity|].
  destruct (match_lt hdr m m'); cbn; [reflexivity | now rewrite IH].
Qed.

Lemma sort_length (v : list (Match Score)) :
  length (sort hdr v) = length v.
Proof.
  unfold sort. induction v as [|m v IH]; cbn [fold_right]; [reflexivity|].
  now rewrite insert_sorted_length, IH.
Qed.

Lemma sort_limit_length (v : list (Match Score)) :
  length (sort_limit hdr v limit)
  = if (limit =? 0)%Z then length v
    else Nat.min (length v) (Z.to_nat limit).
Proof.
  unfold sort_limit, size.
  destruct (Z.eqb_spec limit 0) as [-> | Hne]; cbn [andb].
  - cbn. apply sort_length.
  - destruct (Z.gtb_spec limit 0); [|lia]. cbn [andb].
    destruct (Z.gtb_spec (Z.of_nat (length v)) limit).
    + rewrite length_firstn, sort_length. lia.
    + rewrite sort_length. lia.
Qed.

Lemma merge_matches_length (v : list (Worker Score)) :
  length (merge_matches hdr v limit)
  = if (limit =? 0)%Z then held v else Nat.min (held v) (Z.to_nat limit).
Proof.
  unfold merge_matches. rewrite sort_limit_length, length_concat, map_map.
  reflexivity.
Qed.

Lemma held_member (w : Worker Score) (v : list (Worker Score)) :
  In w v -> length (matches w) <= held v.
Proof.
  induction v as [|a v IH]; intros Hin; [contradiction|].
  rewrite held_cons. destruct Hin as [-> | Hin]; [lia|].
  specialize (IH Hin). lia.
Qed.

(** The size of the merged list, for a request that gets through the
    matching: [K = 0] keeps every match, [K > 0] keeps [min (total, K)]. *)
Lemma merged_size (it : PyIter) (nr_threads : Z) (sched : list nat)
    (st' : State Score) (trace : list Event) (acc : Z) :
  (1 <= nr_threads)%Z ->
  join_threads hdr matcher item_substr_fn limit (Z.to_nat nr_threads) 0
    (run hdr matcher item_substr_fn limit sched
         (start Score it nr_threads)) 0 []
  = (st', trace, Ok acc) ->
  have_python_ex (shared st') = false ->
  length (merge_matches hdr (threads st') limit)
  = if (limit =? 0)%Z then count_matches (pending it)
    else Nat.min (count_matches (pending it)) (Z.to_nat limit).
Proof.
  intros Hnr Hjoin Hnoex.
  set (st0 := start Score it nr_threads) in *.
  set (st1 := run hdr matcher item_substr_fn limit sched st0) in *.
  set (total := count_matches (pending it)).
  pose proof (start_ok it nr_threads) as Hok0. fold st0 in Hok0.
  pose proof (run_steps sched st0) as Hsteps01. fold st1 in Hsteps01.
  destruct (steps_invariants total Hsteps01 Hok0)
    as (Hok1 & _ & _ & Hlength1 & _).
  assert (Hthreads : length (threads st1) = Z.to_nat nr_threads).
  { rewrite Hlength1. unfold st0, start. cbn. apply repeat_length. }
  destruct (@join_threads_spec _ _ _ _ _ _ _ _ Hjoin Hok1)
    as (Hsteps1' & Hbelow).
  { lia. }
  { intros j w Hj. lia. }
  pose proof (steps_trans Hsteps01 Hsteps1') as Hsteps.
  destruct (steps_invariants total Hsteps Hok0)
    as (Hok' & _ & Hcounted & Hlength' & _).
  specialize (Hcounted (@start_counted it nr_threads)).
  assert (Hall : Forall (fun w => status w = Returned) (threads st')).
  { apply Forall_forall. intros w Hin.
    apply In_nth_error in Hin. destruct Hin as (j & Hnth).
    apply (Hbelow j w); [|exact Hnth].
    assert (Hsome : nth_error (threads st') j <> None)
      by (rewrite Hnth; discriminate).
    apply nth_error_Some in Hsome.
    destruct (steps_invariants total Hsteps1' Hok1) as (_ & _ & _ & Hl & _).
    lia. }
  assert (Hclean : clean st').
  { split; [exact Hnoex|].
    eapply Forall_impl; [|exact Hall].
    intros w Hw what. rewrite Hw. discriminate. }
  destruct Hok' as (Hempty & Hworkers).
  assert (Hleft : left st' = 0).
  { unfold left. rewrite Hempty; [reflexivity|].
    destruct (threads st') as [|w v] eqn:Hv.
    - cbn in Hlength'. unfold st0, start in Hlength'. cbn in Hlength'.
      rewrite repeat_length in Hlength'. lia.
    - inversion Hworkers as [|? ? (_ & _ & Hret) _]; subst.
      inversion Hall as [|? ? Hw _]; subst.
      specialize (Hret Hw). rewrite Hnoex, orb_false_r in Hret.
      exact Hret. }
  destruct (Hcounted Hclean) as (Hle & Hcase).
  rewrite Hleft, Nat.add_0_r in *.
  rewrite merge_matches_length. fold total.
  destruct (Z.eqb_spec limit 0) as [Hzero | Hpos].
  - destruct Hcase as [Hall' | (Hlt & _)]; [exact Hall' | lia].
  - destruct Hcase as [-> | (_ & Hfull)]; [reflexivity|].
    apply Exists_exists in Hfull. destruct Hfull as (w & Hin & Hw).
    pose proof (held_member w _ Hin) as Hmember. unfold full in Hw. lia.
Qed.

Lemma join_threads_steps (n : nat) :
  forall (i : nat) (st : State Score) (acc : Z) (trace : list Event),
    steps st
      (fst (fst (join_threads hdr matcher item_substr_fn limit n i st acc
                              trace))).
Proof.
  induction n as [|n IH]; intros i st acc trace; cbn [join_threads].
  - constructor.
  - pose proof (join_steps i st) as Hjoin.
    destruct (nth_error
                (threads (join hdr matcher item_substr_fn limit i st)) i)
      as [w|]; [|exact Hjoin].
    destruct (status w); try exact Hjoin;
      eapply steps_trans; [exact Hjoin | apply IH | exact Hjoin | apply IH].
Qed.

(** In every state of the request and after every candidate of a batch,
    a thread's list holds at most [limit] matches. *)
Lemma heap_within_limit (it : PyIter) (nr_threads : Z) (st : State Score)
    (i : nat) (w : Worker Score) (batch : list Item)
    (unmatched_objs : list PyObject) :
  (0 < limit)%Z ->
  steps (start Score it nr_threads) st ->
  nth_error (threads st) i = Some w ->
  (size (fst (fst (process_items hdr matcher item_substr_fn limit batch
                                 (matches w) unmatched_objs)))
   <= limit)%Z.
Proof.
  intros Hpos Hsteps Hnth.
  destruct (steps_invariants 0 Hsteps (start_ok it nr_threads))
    as ((_ & Hworkers) & _).
  apply nth_error_In in Hnth. rewrite Forall_forall in Hworkers.
  destruct (Hworkers w Hnth) as (_ & Hwithin & _).
  destruct (process_items_length batch (matches w) unmatched_objs Hwithin)
    as (Hafter & _).
  specialize (Hafter Hpos). unfold size. lia.
Qed.

(** *** Requests that go through

    A matcher that never throws, over an iterator of strings. *)

Definition never_throws : Prop :=
  forall s it what, match_ matcher s it <> Throw what.

Definition all_strings (objs : list PyObject) : Prop :=
  Forall (fun obj => ob_bytes obj <> None) objs.

(** No error so far, and none to come from the iterator. *)
Definition sound (st : State Score) : Prop :=
  clean st /\ all_strings (pending (items_iter (shared st))).

Lemma process_items_no_throw (batch : list Item) :
  never_throws ->
  forall matches unmatched_objs,
    snd (process_items hdr matcher item_substr_fn limit batch matches
                       unmatched_objs) = None.
Proof.
  intros Hnever. induction batch as [|it batch IH];
    intros matches unmatched_objs; [reflexivity|].
  cbn [process_items].
  assert (Hitem : snd (process_item hdr matcher item_substr_fn limit
                                    matches unmatched_objs it) = None).
  { unfold process_item.
    destruct (match_ matcher (item_str_of item_substr_fn (first it)) it)
      as [[sc|]|what] eqn:Hmatch.
    - cbn zeta. destruct (negb (limit =? 0)%Z); [|reflexivity].
      destruct (size _ >? limit)%Z; reflexivity.
    - reflexivity.
    - now elim (Hnever _ _ _ Hmatch). }
  destruct (process_item hdr matcher item_substr_fn limit matches
                         unmatched_objs it)
    as [[matches' unmatched_objs'] [what|]]; [discriminate | apply IH].
Qed.

Lemma collect_batch_strings (rest : list PyObject) :
  all_strings rest ->
  forall sh items acc sh' batch returned,
    collect_batch rest sh items acc = (sh', batch, returned) ->
    returned = false /\
    have_python_ex sh' = have_python_ex sh /\
    all_strings (pending (items_iter sh')).
Proof.
  unfold all_strings.
  induction 1 as [|item_obj rest Hobj Hrest IH];
    intros sh items acc sh' batch returned Hrun; cbn [collect_batch] in Hrun.
  - destruct (acc <? kBatchSizeBytes)%Z; injection Hrun as <- <- <-;
      cbn; auto.
  - destruct (acc <? kBatchSizeBytes)%Z.
    + destruct (ob_bytes item_obj) as [item_data|]; [|now elim Hobj].
      eapply IH. exact Hrun.
    + injection Hrun as <- <- <-. cbn. auto.
Qed.

Lemma step_sound (i : nat) (st : State Score) :
  never_throws -> sound st ->
  sound (step hdr matcher item_substr_fn limit i st).
Proof.
  intros Hnever ((Hnoex & Hnothrew) & Hstrings).
  destruct (step_cases i st)
    as [-> | (w & sh' & w' & pre & post & Hv & Hlen & Hrun & Hturn & ->)];
    [repeat split; assumption|].
  unfold sound, clean. cbn [shared threads].
  rewrite Hv in Hnothrew. apply Forall_app in Hnothrew.
  destruct Hnothrew as (Hpre & Hpost). inversion Hpost; subst.
  unfold worker_turn in Hturn.
  destruct (end_of_python_iter (shared st) || have_python_ex (shared st)).
  - injection Hturn as <- <-. repeat split; try assumption.
    apply Forall_app. split; [assumption|]. constructor; [|assumption].
    intros what. cbn. discriminate.
  - destruct (collect_batch _ _ _ _) as [[sh1 batch] returned] eqn:Hcollect.
    destruct (collect_batch_strings Hstrings _ _ _ Hcollect)
      as (-> & Hex & Hstrings').
    pose proof (process_items_no_throw batch Hnever (matches w) [])
      as Hnone.
    destruct (empty_vec batch);
      [|destruct (process_items hdr matcher item_substr_fn limit batch
                                (matches w) [])
          as [[matches' unmatched_objs'] [what|]]; [discriminate|]];
      injection Hturn as <- <-; rewrite Hex;
      (repeat split; try assumption);
      (apply Forall_app; split; [assumption|]; constructor; [|assumption]);
      intros what; cbn; discriminate.
Qed.

Lemma steps_sound (st st' : State Score) :
  never_throws -> steps st st' -> sound st -> sound st'.
Proof.
  intros Hnever. induction 1 as [|st st' i _ IH]; intros Hsound;
    [exact Hsound|].
  apply IH. now apply step_sound.
Qed.

(** The loop over the threads does not throw. *)
Lemma join_threads_sound (n : nat) :
  never_throws ->
  forall (i : nat) (st : State Score) (acc : Z) (trace : list Event),
    sound st ->
    exists st' trace' acc',
      join_threads hdr matcher item_substr_fn limit n i st acc trace
      = (st', trace', Ok acc') /\
      sound st'.
Proof.
  intros Hnever. induction n as [|n IH]; intros i st acc trace Hsound;
    cbn [join_threads].
  - now exists st, trace, acc.
  - pose proof (steps_sound Hnever (join_steps i st) Hsound) as Hsound1.
    destruct (nth_error
                (threads (join hdr matcher item_substr_fn limit i st)) i)
      as [w|] eqn:Hnth; [|eauto].
    destruct Hsound1 as ((Hnoex & Hnothrew) & Hstrings).
    pose proof Hnothrew as Hall. rewrite Forall_forall in Hall.
    specialize (Hall w (nth_error_In _ _ Hnth)).
    destruct (status w) eqn:Hstatus;
      try (apply IH; repeat split; assumption).
    now elim (Hall what).
Qed.

End WithMatcher.

(** The matcher and the substringer a request works with, when their
    construction does not throw. *)
Definition prepared (Score : Type) (hdr : Headers Score) (args : Args)
    : option (Matcher Score * option (string_ref -> Substr)) :=
  match invert_query hdr (query args) (query_inverting_delimiter args) with
  | Throw _ => None
  | Ok query =>
      match Matcher_new hdr query
              {| mo_cur_file := cur_file args;
                 mo_is_path := to_bool (is_path args);
                 mo_match_crfile := to_bool (match_crfile args) |}
              {| so_unicode := to_bool (unicode args) |} with
      | Throw _ => None
      | Ok matcher =>
          match match_mode_item_substr_fn hdr (mmode args) with
          | Throw _ => None
          | Ok item_substr_fn => Some (matcher, item_substr_fn)
          end
      end
  end.

(** The number of candidates of the iterator that match the request. *)
Definition total_matches (Score : Type) (hdr : Headers Score) (args : Args)
    (it : PyIter) : nat :=
  match prepared hdr args with
  | Some (matcher, item_substr_fn) =>
      count_matches matcher item_substr_fn (pending it)
  | None => 0
  end.

Lemma limit_of_nonneg (n : Z) : (0 <= limit_of n)%Z.
Proof.
  unfold limit_of. destruct (n >=? 0)%Z; [|lia].
  apply wrap_size_t_range.
Qed.

Lemma max_threads_of_range (n : Z) : is_unsigned (max_threads_of n).
Proof.
  unfold max_threads_of. destruct (n >=? 0)%Z.
  - apply Z.mod_pos_bound. reflexivity.
  - split; [lia | reflexivity].
Qed.

End TopKFacts.

Import TopKFacts.

(** C1.  With a limit [K > 0], in every state of a request and after
    every candidate a worker processes, the worker's list of matches holds
    at most [K] elements; and the list a request returns has
    [min (total_matches, K)] elements, all [total_matches] of them when
    [K = 0].  [total_matches] is the number of candidates of the iterator
    on which [matcher.match] returns true.  A request without
    highlighting over an iterator of strings, with a matcher that does not
    throw, does return such a list. *)
Theorem top_k_lists_and_result_size (Score : Type) (hdr : Headers Score)
    (args : Args) (it : PyIter) (sched : list nat) :
  is_unsigned (hardware_concurrency hdr) ->
  let K := limit_of (limit_int args) in
  let total := Z.of_nat (total_matches hdr args it) in
  (forall matcher item_substr_fn nr_threads st i w batch unmatched_objs,
      (0 < K)%Z ->
      steps hdr matcher item_substr_fn K (start Score it nr_threads) st ->
      nth_error (threads st) i = Some w ->
      (size (fst (fst (process_items hdr matcher item_substr_fn K batch
                                     (matches w) unmatched_objs)))
       <= K)%Z) /\
  (forall matches_list regexes_list error_pending,
      cpsm_ctrlp_match hdr args (Iterable it) sched
      = PyTuple matches_list regexes_list error_pending ->
      size matches_list
      = if (K =? 0)%Z then total else Z.min total K) /\
  (forall matcher item_substr_fn,
      prepared hdr args = Some (matcher, item_substr_fn) ->
      never_throws matcher -> all_strings (pending it) ->
      highlighting (highlight_mode args) = false ->
      exists matches_list error_pending,
        cpsm_ctrlp_match hdr args (Iterable it) sched
        = PyTuple matches_list [] error_pending).
Proof.
  intros Hhw K total.
  pose proof (limit_of_nonneg (limit_int args)) as HK. fold K in HK.
  split; [|split].
  - intros matcher item_substr_fn nr_threads st i w batch unmatched_objs
           Hpos Hsteps Hnth.
    now apply heap_within_limit with it nr_threads st i.
  - intros matches_list regexes_list error_pending Hresult.
    unfold total, total_matches, prepared.
    unfold cpsm_ctrlp_match, ctrlp_match_body, match_stage in Hresult.
    destruct (invert_query hdr (query args) (query_inverting_delimiter args))
      as [query|what]; [|discriminate].
    destruct (Matcher_new hdr query _ _) as [matcher|what];
      [|discriminate].
    destruct (match_mode_item_substr_fn hdr (mmode args))
      as [item_substr_fn|what]; [|discriminate].
    fold K in Hresult.
    set (nr_threads := get_nr_threads (hardware_concurrency hdr)
                         (max_threads_of (max_threads_int args))) in *.
    assert (Hnr : (1 <= nr_threads)%Z).
    { unfold nr_threads.
      rewrite get_nr_threads_value
        by (exact Hhw || apply max_threads_of_range).
      lia. }
    destruct (join_threads hdr matcher item_substr_fn K
                (Z.to_nat nr_threads) 0 _ 0 [])
      as [[st' trace] [acc|what]] eqn:Hjoin; [|discriminate].
    destruct (have_python_ex (shared st')) eqn:Hnoex; [discriminate|].
    cbn [snd bind] in Hresult. unfold output_stage in Hresult.
    cbn [the_matcher the_item_substr_fn all_matches error_left_set]
      in Hresult.
    pose proof (merged_size hdr matcher item_substr_fn HK it sched Hnr
                  Hjoin Hnoex) as Hsize.
    assert (Hlist : matches_list
                    = map (fun m => second (item m))
                          (merge_matches hdr (threads st') K)).
    { destruct (if highlighting (highlight_mode args) then _ else _)
        as [regexes|what]; cbn [bind] in Hresult; [|discriminate].
      now injection Hresult as <- _ _. }
    rewrite Hlist. unfold size. rewrite length_map, Hsize.
    destruct (Z.eqb_spec K 0); lia.
  - intros matcher item_substr_fn Hprepared Hnever Hstrings Hmode.
    unfold prepared in Hprepared.
    unfold cpsm_ctrlp_match, ctrlp_match_body, match_stage.
    destruct (invert_query hdr (query args) (query_inverting_delimiter args))
      as [query|what]; [|discriminate].
    destruct (Matcher_new hdr query _ _) as [matcher'|what];
      [|discriminate].
    destruct (match_mode_item_substr_fn hdr (mmode args))
      as [item_substr_fn'|what]; [|discriminate].
    injection Hprepared as -> ->. fold K.
    set (nr_threads := get_nr_threads (hardware_concurrency hdr)
                         (max_threads_of (max_threads_int args))).
    assert (Hstart : sound (start Score it nr_threads)).
    { repeat split; [|exact Hstrings].
      apply Forall_forall. intros w Hin. apply repeat_spec in Hin.
      subst w. intros what. discriminate. }
    pose proof (steps_sound Hnever
                  (run_steps hdr matcher item_substr_fn K sched _) Hstart)
      as Hrun.
    destruct (join_threads_sound hdr item_substr_fn K
                (Z.to_nat nr_threads) Hnever 0 0 [] Hrun)
      as (st' & trace & acc & -> & ((Hnoex & _) & _)).
    rewrite Hnoex. cbn [snd bind]. unfold output_stage. rewrite Hmode.
    cbn [bind]. eauto.
Qed.

Lemma top_k_lists_and_result_size_witness :
  exists matches_list regexes_list error_pending,
    cpsm_ctrlp_match (Scenario.small_headers 2)
                     (Scenario.request 2 0 "" "")
                     (Iterable Scenario.candidates) [0; 1; 0]
    = PyTuple matches_list regexes_list error_pending /\
    total_matches (Scenario.small_headers 2) (Scenario.request 2 0 "" "")
                  Scenario.candidates = 4 /\
    size matches_list = 2%Z.
Proof.
  eexists. eexists. eexists. split; [reflexivity|].
  split; [reflexivity|].
  assert (Hhw : is_unsigned
                  (hardware_concurrency (Scenario.small_headers 2)))
    by (split; [discriminate | reflexivity]).
  destruct (@top_k_lists_and_result_size Z (Scenario.small_headers 2)
              (Scenario.request 2 0 "" "") Scenario.candidates [0; 1; 0]
              Hhw)
    as (_ & Hsize & _).
  apply (Hsize _ _ _ eq_refl).
Defined.

(** ** What the batching and the join loop do *)

Module LoopFacts.

Import Word WordFacts PathUtil Driver TopKFacts.

(** The bytes of a batch. *)
Definition batch_bytes (pulled : list Item) : Z :=
  fold_right (fun it acc => (size (first it) + acc)%Z) 0%Z pulled.

(** The size of a string fits [Py_ssize_t]. *)
Definition fits_ssize (obj : PyObject) : Prop :=
  forall item_data,
    ob_bytes obj = Some item_data -> (size item_data < 2 ^ 63)%Z.

(** How the inner loop ended. *)
Inductive BatchEnd : Type :=
| BySize
| ByNull
| ByPythonEx.

Definition batch_end (sh' : Shared) (returned : bool) : BatchEnd :=
  if returned then ByPythonEx
  else if end_of_python_iter sh' then ByNull else BySize.

Lemma batch_bytes_nonneg (pulled : list Item) : (0 <= batch_bytes pulled)%Z.
Proof.
  induction pulled as [|it pulled IH]; [cbn; lia|].
  cbn [batch_bytes fold_right]. fold (batch_bytes pulled).
  unfold size. lia.
Qed.

(** The inner loop, entered with [end_of_python_iter] unset: it pulls
    [pulled] from the front of the iterator; before each pull the batch
    was below [kBatchSizeBytes]; and it stops by size with the batch at or
    above it, or by NULL with the iterator used up, or at an object that
    is no string, with [have_python_ex] set. *)
Lemma collect_batch_law (rest : list PyObject) :
  forall (sh : Shared) (items : list Item) (acc : Z)
         (sh' : Shared) (batch : list Item) (returned : bool),
    collect_batch rest sh items acc = (sh', batch, returned) ->
    end_of_python_iter sh = false -> (0 <= acc)%Z ->
    Forall fits_ssize rest ->
    exists pulled : list Item,
      Forall built_from_object pulled /\
      (forall k, k < length pulled ->
                 (acc + batch_bytes (firstn k pulled) < kBatchSizeBytes)%Z) /\
      match batch_end sh' returned with
      | BySize =>
          batch = items ++ pulled /\
          rest = map second pulled ++ pending (items_iter sh') /\
          (kBatchSizeBytes <= acc + batch_bytes pulled)%Z /\
          have_python_ex sh' = have_python_ex sh
      | ByNull =>
          batch = items ++ pulled /\
          rest = map second pulled /\ pending (items_iter sh') = [] /\
          (acc + batch_bytes pulled < kBatchSizeBytes)%Z /\
          have_python_ex sh' = have_python_ex sh
      | ByPythonEx =>
          have_python_ex sh' = true /\
          (acc + batch_bytes pulled < kBatchSizeBytes)%Z /\
          exists bad,
            ob_bytes bad = None /\
            rest = map second pulled ++ bad :: pending (items_iter sh')
      end.
Proof.
  unfold batch_end, kBatchSizeBytes.
  induction rest as [|item_obj rest IH];
    intros sh items acc sh' batch returned Hrun Hend Hacc Hfits.
  - exists []. cbn [collect_batch] in Hrun. unfold kBatchSizeBytes in Hrun.
    destruct (Z.ltb_spec acc 8192);
      injection Hrun as <- <- <-; cbn; rewrite ?app_nil_r, ?Hend;
      repeat split; auto; try lia; intros; lia.
  - cbn [collect_batch] in Hrun. unfold kBatchSizeBytes in Hrun.
    inversion Hfits as [|? ? Hobj Hrest]; subst.
    destruct (Z.ltb_spec acc 8192) as [Hlt | Hge].
    + destruct (ob_bytes item_obj) as [item_data|] eqn:Hbytes.
      * specialize (Hobj item_data Hbytes).
        assert (Hsize : (0 <= size item_data)%Z) by (unfold size; lia).
        rewrite wrap_size_t_small in Hrun
          by (unfold is_size_t; rewrite size_t_mod_eq; lia).
        fold kBatchSizeBytes in Hrun.
        destruct (IH _ _ _ _ _ _ Hrun Hend ltac:(lia) Hrest)
          as (pulled & Hbuilt & Hbelow & Hcase).
        exists ({| first := item_data; second := item_obj |} :: pulled).
        split; [constructor; [exact Hbytes | exact Hbuilt]|].
        split.
        { intros [|k] Hk; cbn [firstn batch_bytes fold_right first].
          - lia.
          - cbn [length] in Hk. specialize (Hbelow k ltac:(lia)).
            fold (batch_bytes (firstn k pulled)). lia. }
        cbn [batch_bytes fold_right first map second app].
        fold (batch_bytes pulled).
        destruct returned; [|destruct (end_of_python_iter sh')].
        -- destruct Hcase as (Hex & Hsum & bad & Hbad & Hrest').
           repeat split; [exact Hex | lia |].
           exists bad. split; [exact Hbad | now rewrite Hrest'].
        -- destruct Hcase as (-> & -> & Hnil & Hsum & Hex).
           rewrite <- app_assoc. repeat split; auto. lia.
        -- destruct Hcase as (-> & -> & Hsum & Hex).
           rewrite <- app_assoc. repeat split; auto. lia.
      * injection Hrun as <- <- <-. exists []. cbn.
        split; [constructor|]. split; [intros; lia|].
        split; [reflexivity|]. split; [lia|].
        now exists item_obj.
    + injection Hrun as <- <- <-. exists []. cbn. rewrite app_nil_r, Hend.
      repeat split; auto; try lia; intros; lia.
Qed.

End LoopFacts.

Import LoopFacts.

(** X1.  The batch of a worker's turn, taken with [end_of_python_iter]
    unset from an iterator of strings whose sizes fit [Py_ssize_t]: the
    worker pulls candidates from the front of the iterator while the batch
    is below [kBatchSizeBytes = 8192] bytes, and stops with the batch at
    or above it, or at NULL from [PyIter_Next] with [end_of_python_iter]
    set, or at an object that is no string with [have_python_ex] set and
    its function left. *)
Theorem batch_is_pulled_until_full_or_null (sh : Shared) :
  end_of_python_iter sh = false ->
  Forall fits_ssize (pending (items_iter sh)) ->
  let r := collect_batch (pending (items_iter sh)) sh [] 0 in
  let sh' := fst (fst r) in
  exists pulled : list Item,
    Forall (fun it => ob_bytes (second it) = Some (first it)) pulled /\
    (forall k, k < length pulled ->
               (batch_bytes (firstn k pulled) < kBatchSizeBytes)%Z) /\
    match batch_end sh' (snd r) with
    | BySize =>
        snd (fst r) = pulled /\
        pending (items_iter sh)
        = map second pulled ++ pending (items_iter sh') /\
        (kBatchSizeBytes <= batch_bytes pulled)%Z /\
        have_python_ex sh' = have_python_ex sh
    | ByNull =>
        snd (fst r) = pulled /\
        pending (items_iter sh) = map second pulled /\
        pending (items_iter sh') = [] /\
        (batch_bytes pulled < kBatchSizeBytes)%Z /\
        have_python_ex sh' = have_python_ex sh
    | ByPythonEx =>
        have_python_ex sh' = true /\
        (batch_bytes pulled < kBatchSizeBytes)%Z /\
        exists bad,
          ob_bytes bad = None /\
          pending (items_iter sh)
          = map second pulled ++ bad :: pending (items_iter sh')
    end.
Proof.
  intros Hend Hfits. cbv zeta.
  destruct (collect_batch (pending (items_iter sh)) sh [] 0)
    as [[sh1 batch] returned] eqn:Hrun.
  cbn [fst snd].
  destruct (@collect_batch_law _ _ _ _ _ _ _ Hrun Hend (Z.le_refl 0) Hfits)
    as (pulled & Hbuilt & Hbelow & Hcase).
  exists pulled. split; [exact Hbuilt|]. split; [exact Hbelow|].
  exact Hcase.
Qed.

Lemma batch_is_pulled_until_full_or_null_witness :
  let sh := {| items_iter :=
                 {| pending := [Scenario.py_str 1 "ma"; Scenario.py_int 2;
                                Scenario.py_str 3 "mb"];
                    ending := Exhausted |};
               end_of_python_iter := false;
               have_python_ex := false;
               error_indicator := false |} in
  exists pulled : list Item,
    (batch_bytes pulled < kBatchSizeBytes)%Z /\
    exists bad,
      ob_bytes bad = None /\
      pending (items_iter sh)
      = map second pulled ++ [bad; Scenario.py_str 3 "mb"].
Proof.
  cbv zeta.
  match goal with
  | |- context [pending (items_iter ?s)] =>
      destruct (@batch_is_pulled_until_full_or_null s eq_refl)
        as (pulled & _ & _ & Hcase)
  end.
  - repeat constructor; intros item_data Hbytes;
      try discriminate; injection Hbytes as <-; reflexivity.
  - exists pulled. destruct Hcase as (_ & Hsum & Hbad). split; assumption.
Defined.

(** X2.  The loop over the threads joins them in the order of their
    indices.  When it throws, it has joined the threads from [i] to some
    [j] and no later one, thread [j] has an exception and the message
    thrown is that thread's; when it does not throw, it has joined all
    [n] threads. *)
Theorem join_loop_joins_up_to_the_first_exception (Score : Type)
    (hdr : Headers Score) (matcher : Matcher Score)
    (item_substr_fn : option (string_ref -> Substr)) (limit : Z)
    (n : nat) :
  forall (i : nat) (st : State Score) (acc : Z) (trace : list Event),
    let r := join_threads hdr matcher item_substr_fn limit n i st acc
                          trace in
    match snd r with
    | Throw what =>
        exists j w,
          i <= j < i + n /\
          snd (fst r)
          = trace ++ map EvJoin (seq i (S (j - i))) ++ [EvThrow what] /\
          nth_error (threads (fst (fst r))) j = Some w /\
          status w = Threw what
    | Ok _ =>
        i + n <= length (threads st) ->
        snd (fst r) = trace ++ map EvJoin (seq i n)
    end.
Proof.
  induction n as [|n IH]; intros i st acc trace; cbn [join_threads].
  - cbn. intros _. now rewrite app_nil_r.
  - set (st1 := join hdr matcher item_substr_fn limit i st).
    assert (Hlength : length (threads st1) = length (threads st)).
    { unfold st1, join.
      generalize (length (pending (items_iter (shared st))) + 2).
      intros fuel. induction fuel as [|fuel IHfuel]; [reflexivity|].
      rewrite Nat.iter_succ, step_length. exact IHfuel. }
    destruct (nth_error (threads st1) i) as [w|] eqn:Hnth.
    + destruct (status w) eqn:Hstatus.
      * specialize (IH (S i) st1
                       (wrap_size_t (acc + size (matches w)))
                       (trace ++ [EvJoin i])).
        cbv zeta in IH.
        destruct (join_threads hdr matcher item_substr_fn limit n (S i) st1
                               _ _) as [[st' trace'] [acc'|what]];
          cbn [fst snd] in *.
        -- intros Hlen. rewrite IH by lia.
           rewrite <- app_assoc. reflexivity.
        -- destruct IH as (j & w' & Hj & Htrace & Hnth' & Hstatus').
           exists j, w'. split; [lia|]. split; [|auto].
           rewrite Htrace, <- app_assoc.
           replace (S (j - i)) with (S (S (j - S i))) by lia.
           reflexivity.
      * specialize (IH (S i) st1
                       (wrap_size_t (acc + size (matches w)))
                       (trace ++ [EvJoin i])).
        cbv zeta in IH.
        destruct (join_threads hdr matcher item_substr_fn limit n (S i) st1
                               _ _) as [[st' trace'] [acc'|what]];
          cbn [fst snd] in *.
        -- intros Hlen. rewrite IH by lia.
           rewrite <- app_assoc. reflexivity.
        -- destruct IH as (j & w' & Hj & Htrace & Hnth' & Hstatus').
           exists j, w'. split; [lia|]. split; [|auto].
           rewrite Htrace, <- app_assoc.
           replace (S (j - i)) with (S (S (j - S i))) by lia.
           reflexivity.
      * cbn [fst snd]. exists i, w. split; [lia|].
        rewrite Nat.sub_diag. cbn. rewrite <- app_assoc.
        repeat split; auto.
    + cbn [fst snd]. intros Hlen.
      apply nth_error_None in Hnth. lia.
Qed.

(** X3.  [join] returns: whatever turns the threads have taken before,
    after [threads[i].join()] thread [i] has left its function, by a
    return or by an exception.  The turns [join] grants are enough. *)
Theorem join_returns (Score : Type) (hdr : Headers Score)
    (matcher : Matcher Score)
    (item_substr_fn : option (string_ref -> Substr)) (limit : Z)
    (it : PyIter) (nr_threads : Z) (sched : list nat) (i : nat) :
  (0 <= limit)%Z -> i < Z.to_nat nr_threads ->
  exists w,
    nth_error
      (threads (join hdr matcher item_substr_fn limit i
                     (run hdr matcher item_substr_fn limit sched
                          (start Score it nr_threads)))) i
    = Some w /\
    status w <> Running.
Proof.
  intros Hlimit Hi.
  set (st := run hdr matcher item_substr_fn limit sched
                 (start Score it nr_threads)).
  destruct (@steps_invariants Score hdr matcher item_substr_fn limit Hlimit
              0 _ _ (run_steps hdr matcher item_substr_fn limit sched _)
              (@start_ok Score limit it nr_threads))
    as (Hok & _ & _ & Hlength & _).
  fold st in Hok, Hlength.
  destruct (nth_error (threads st) i) as [w|] eqn:Hnth.
  - exact (join_done hdr matcher item_substr_fn Hlimit i Hok Hnth).
  - apply nth_error_None in Hnth. rewrite Hlength in Hnth.
    unfold start in Hnth. cbn in Hnth. rewrite repeat_length in Hnth. lia.
Qed.

Lemma join_returns_witness :
  exists w,
    nth_error
      (threads (join (Scenario.small_headers 2) Scenario.small_matcher None
                     2 1
                     (run (Scenario.small_headers 2) Scenario.small_matcher
                          None 2 [0]
                          (start Z Scenario.candidates 2)))) 1
    = Some w /\
    status w <> Running.
Proof.
  apply (@join_returns Z (Scenario.small_headers 2) Scenario.small_matcher
           None 2 Scenario.candidates 2 [0] 1); [lia | cbn; lia].
Defined.

(** * More of the code *)

(** ** [path_basename] and the components of a path *)

Module BasenameFacts.

Import Word WordFacts PathUtil PathFacts.

(** A byte of the path is the separator. *)
Definition has_separator (c : string_ref) : bool :=
  existsb (Ascii.eqb path_separator) c.

Lemma has_separator_false (c : string_ref) :
  has_separator c = false <-> ~ In path_separator c.
Proof.
  unfold has_separator. split.
  - intros H Hin.
    assert (Htrue : existsb (Ascii.eqb path_separator) c = true).
    { apply existsb_exists. exists path_separator.
      split; [exact Hin | apply Ascii.eqb_refl]. }
    congruence.
  - intros Hnin. destruct (existsb _ c) eqn:E; [|reflexivity].
    apply existsb_exists in E. destruct E as (d & Hin & Hd).
    apply Ascii.eqb_eq in Hd. subst d. contradiction.
Qed.

Lemma find_last_of_None (s : string_ref) (c : ascii) :
  find_last_of s c = None -> ~ In c s.
Proof.
  induction s as [|d s IH]; simpl; intros H; [tauto|].
  destruct (find_last_of s c); [discriminate|].
  destruct (Ascii.eqb_spec d c) as [->|Hne]; [discriminate|].
  intros [Hd | Hin]; [congruence | now apply IH].
Qed.

Lemma find_last_of_Some (s : string_ref) (c : ascii) :
  forall pos,
    find_last_of s c = Some pos ->
    s = firstn pos s ++ c :: skipn (pos + 1) s /\
    ~ In c (skipn (pos + 1) s).
Proof.
  induction s as [|d s IH]; simpl; intros pos H; [discriminate|].
  destruct (find_last_of s c) as [q|] eqn:E.
  - injection H as <-. destruct (IH q eq_refl) as (Hsplit & Hnin).
    simpl. split; [now rewrite <- Hsplit | exact Hnin].
  - destruct (Ascii.eqb_spec d c) as [->|Hne]; [|discriminate].
    injection H as <-. simpl. split; [reflexivity|].
    now apply find_last_of_None.
Qed.

Lemma find_last_of_app (dir name : string_ref) (c : ascii) :
  ~ In c name ->
  find_last_of (dir ++ c :: name) c = Some (length dir).
Proof.
  intros Hnin. induction dir as [|d dir IH]; simpl.
  - destruct (find_last_of name c) as [q|] eqn:E.
    + apply find_last_of_Some in E. destruct E as (Hsplit & _).
      elim Hnin. rewrite Hsplit. apply in_or_app. right. now left.
    + now rewrite Ascii.eqb_refl.
  - now rewrite IH.
Qed.

Lemma find_first_of_app (body rest : string_ref) (c : ascii) :
  ~ In c body ->
  find_first_of (body ++ c :: rest) c = Some (length body).
Proof.
  induction body as [|d body IH]; simpl; intros Hnin.
  - now rewrite Ascii.eqb_refl.
  - destruct (Ascii.eqb_spec d c) as [->|Hne]; [tauto|].
    rewrite IH by tauto. reflexivity.
Qed.

Lemma find_first_of_absent (s : string_ref) (c : ascii) :
  ~ In c s -> find_first_of s c = None.
Proof.
  intros Hnin. destruct (find_first_of s c) as [pos|] eqn:E; [|reflexivity].
  apply find_first_of_Some in E. destruct E as (Hlt & _ & Hfst).
  elim Hnin. rewrite <- (firstn_skipn (pos + 1) s), Hfst.
  apply in_or_app. left. apply in_or_app. right. now left.
Qed.

(** The loop of [path_components_of], one turn unfolded. *)
Lemma path_components_of_loop_unfold (path : string_ref)
    (parts : list string_ref) :
  path_components_of_loop path parts
  = match find_first_of path path_separator with
    | None => if negb (empty path) then parts ++ [path] else parts
    | Some pos =>
        path_components_of_loop (remove_prefix path (pos + 1))
                                (parts ++ [substr path 0 (pos + 1)])
    end.
Proof.
  funelim (path_components_of_loop path parts).
  - rewrite Hpos. reflexivity.
  - rewrite e. reflexivity.
Qed.

(** The parts built so far stay in front of the result. *)
Lemma path_components_of_loop_parts (n : nat) :
  forall (path : string_ref) (parts : list string_ref),
    length path <= n ->
    path_components_of_loop path parts = parts ++ path_components_of path.
Proof.
  unfold path_components_of.
  induction n as [|n IH]; intros path parts Hlen.
  - destruct path; [|simpl in Hlen; lia].
    rewrite !path_components_of_loop_unfold. simpl. now rewrite app_nil_r.
  - rewrite (path_components_of_loop_unfold path parts),
      (path_components_of_loop_unfold path []).
    destruct (find_first_of path path_separator) as [pos|] eqn:Hpos.
    + apply find_first_of_Some in Hpos. destruct Hpos as (Hlt & _).
      assert (Hshort : length (remove_prefix path (pos + 1)) <= n)
        by (unfold remove_prefix; rewrite length_skipn; lia).
      rewrite (IH _ (parts ++ _) Hshort), (IH _ ([] ++ _) Hshort).
      now rewrite <- app_assoc.
    + destruct (negb (empty path)); [reflexivity | now rewrite app_nil_r].
Qed.

(** A path that starts with a component cut at a separator. *)
Lemma path_components_of_dir (c rest : string_ref) :
  dir_component c ->
  path_components_of (c ++ rest) = c :: path_components_of rest.
Proof.
  intros (body & -> & Hnin). unfold path_components_of at 1.
  rewrite path_components_of_loop_unfold, <- app_assoc. cbn [app].
  rewrite (@find_first_of_app body rest path_separator Hnin).
  unfold remove_prefix, substr. cbn [skipn].
  replace (length body + 1) with (length (body ++ [path_separator]))
    by (rewrite length_app; reflexivity).
  change (body ++ path_separator :: rest)
    with (body ++ [path_separator] ++ rest).
  rewrite app_assoc, skipn_app, firstn_app, Nat.sub_diag, skipn_all,
    firstn_all.
  cbn [skipn firstn app]. rewrite app_nil_r.
  apply (path_components_of_loop_parts (n := length rest)). lia.
Qed.

Lemma path_components_of_tail (c : string_ref) :
  tail_component c -> path_components_of c = [c].
Proof.
  intros (Hne & Hnin). unfold path_components_of.
  rewrite path_components_of_loop_unfold,
    (@find_first_of_absent c path_separator Hnin).
  destruct c; [contradiction | reflexivity].
Qed.

End BasenameFacts.

Import BasenameFacts.

(** X4.  [path_basename p] is what follows the last separator of [p]: it
    holds no separator, and [p] is a directory part, empty or ending with a
    separator, followed by it.  So a path without separator is its own
    basename and a path that ends with a separator has the empty
    basename. *)
Theorem path_basename_is_the_part_after_the_last_separator
    (p : string_ref) :
  ~ In path_separator (path_basename p) /\
  exists dir,
    p = dir ++ path_basename p /\
    (dir = [] \/ exists d, dir = d ++ [path_separator]).
Proof.
  unfold path_basename.
  destruct (find_last_of p path_separator) as [pos|] eqn:Hpos.
  - apply find_last_of_Some in Hpos. destruct Hpos as (Hsplit & Hnin).
    unfold substr_from. split; [exact Hnin|].
    exists (firstn pos p ++ [path_separator]). split.
    + rewrite <- app_assoc. exact Hsplit.
    + right. now exists (firstn pos p).
  - apply find_last_of_None in Hpos. split; [exact Hpos|].
    exists []. auto.
Qed.

(** X5.  Putting a directory part, a separator and a name without
    separator together and taking the basename gives the name back. *)
Theorem path_basename_of_joined_path (dir name : string_ref) :
  ~ In path_separator name ->
  path_basename (dir ++ path_separator :: name) = name /\
  path_basename name = name.
Proof.
  intros Hnin. unfold path_basename. split.
  - rewrite (@find_last_of_app dir name path_separator Hnin).
    unfold substr_from.
    replace (length dir + 1) with (length (dir ++ [path_separator]))
      by (rewrite length_app; reflexivity).
    change (dir ++ path_separator :: name)
      with (dir ++ [path_separator] ++ name).
    rewrite app_assoc, skipn_app, Nat.sub_diag, skipn_all. reflexivity.
  - destruct (find_last_of name path_separator) as [pos|] eqn:Hpos;
      [|reflexivity].
    apply find_last_of_Some in Hpos. destruct Hpos as (Hsplit & _).
    elim Hnin. rewrite Hsplit. apply in_or_app. right. now left.
Qed.

Lemma path_basename_of_joined_path_witness :
  path_basename (ref "src/foo/bar.cc") = ref "bar.cc" /\
  path_basename (ref "bar.cc") = ref "bar.cc".
Proof.
  apply (@path_basename_of_joined_path (ref "src/foo") (ref "bar.cc")).
  intros Hin. repeat (destruct Hin as [Hin | Hin]; [discriminate|]).
  exact Hin.
Defined.

(** X6.  [path_components_of] undoes concatenation: for components
    [dirs], each ending with its only separator, and an optional last
    component [tail] without separator, the components of the
    concatenated path are [dirs] followed by [tail]. *)
Theorem path_components_of_concatenated_components
    (dirs tail : list string_ref) :
  Forall dir_component dirs ->
  (tail = [] \/ exists c, tail = [c] /\ tail_component c) ->
  path_components_of (concat (dirs ++ tail)) = dirs ++ tail.
Proof.
  intros Hdirs Htail. induction Hdirs as [|c dirs Hc _ IH].
  - destruct Htail as [-> | (c & -> & Hc)]; [reflexivity|].
    cbn. rewrite app_nil_r. now apply path_components_of_tail.
  - cbn [app concat]. rewrite (path_components_of_dir _ Hc), IH.
    reflexivity.
Qed.

Lemma path_components_of_concatenated_components_witness :
  path_components_of (concat ([ref "src/"; ref "foo/"] ++ [ref "bar.cc"]))
  = [ref "src/"; ref "foo/"] ++ [ref "bar.cc"].
Proof.
  apply (@path_components_of_concatenated_components
           [ref "src/"; ref "foo/"] [ref "bar.cc"]).
  - repeat constructor.
    + exists (ref "src"). split; [reflexivity|].
      intros Hin. repeat (destruct Hin as [Hin | Hin]; [discriminate|]).
      exact Hin.
    + exists (ref "foo"). split; [reflexivity|].
      intros Hin. repeat (destruct Hin as [Hin | Hin]; [discriminate|]).
      exact Hin.
  - right. exists (ref "bar.cc"). split; [reflexivity|].
    split; [discriminate|].
    intros Hin. repeat (destruct Hin as [Hin | Hin]; [discriminate|]).
    exact Hin.
Defined.

(** X7.  The basename of a path is its one component without separator:
    the last component when the path does not end with a separator, and
    empty otherwise. *)
Theorem path_basename_is_the_component_without_separator (p : string_ref) :
  concat (filter (fun c => negb (has_separator c)) (path_components_of p))
  = path_basename p.
Proof.
  unfold path_components_of.
  destruct (path_components_of_loop_shape p [])
    as (dirs & tail & Hloop & Hdirs & Htail & Hcat).
  cbn [app] in Hloop. rewrite Hloop, filter_app.
  assert (Hnone : filter (fun c => negb (has_separator c)) dirs = []).
  { clear Hloop Hcat. induction Hdirs as [|c dirs (body & -> & _) _ IH];
      [reflexivity|].
    cbn [filter]. unfold has_separator at 1.
    rewrite existsb_app. cbn [existsb]. rewrite Ascii.eqb_refl.
    rewrite orb_true_r. cbn [negb orb]. exact IH. }
  rewrite Hnone. cbn [app].
  destruct Htail as [-> | (c & -> & Hne & Hnin)].
  - (* the path is empty or ends with a separator *)
    rewrite app_nil_r in Hcat. cbn [filter concat].
    destruct dirs as [|c dirs _] using rev_ind.
    + cbn in Hcat. subst p. reflexivity.
    + apply Forall_app in Hdirs. destruct Hdirs as (_ & Hc).
      apply Forall_inv in Hc. destruct Hc as (body & -> & _).
      rewrite concat_app in Hcat. cbn [concat] in Hcat.
      rewrite app_nil_r, app_assoc in Hcat. subst p.
      symmetry.
      apply (@path_basename_of_joined_path (concat dirs ++ body) []).
      tauto.
  - cbn [filter]. rewrite (proj2 (has_separator_false c) Hnin).
    cbn [negb concat]. rewrite app_nil_r.
    rewrite concat_app in Hcat. cbn [concat] in Hcat.
    rewrite app_nil_r in Hcat.
    destruct dirs as [|d dirs _] using rev_ind.
    + cbn in Hcat. subst p. symmetry.
      apply (@path_basename_of_joined_path [] c). exact Hnin.
    + apply Forall_app in Hdirs. destruct Hdirs as (_ & Hd).
      apply Forall_inv in Hd. destruct Hd as (body & -> & _).
      rewrite concat_app in Hcat. cbn [concat] in Hcat.
      rewrite app_nil_r, <- !app_assoc in Hcat. cbn [app] in Hcat.
      rewrite app_assoc in Hcat. subst p. symmetry.
      apply (@path_basename_of_joined_path (concat dirs ++ body) c).
      exact Hnin.
Qed.

(** ** [path_distance_between] as a distance *)

Module DistanceFacts.

Import Word WordFacts PathUtil PathFacts.

(** The number of equal leading components, counted without a machine
    integer. *)
Fixpoint leading (x y : list string_ref) : nat :=
  match x, y with
  | a :: x', b :: y' =>
      if string_ref_neqb a b then 0 else S (leading x' y')
  | _, _ => 0
  end.

Lemma string_ref_neqb_false (a b : string_ref) :
  string_ref_neqb a b = false <-> a = b.
Proof.
  unfold string_ref_neqb. rewrite negb_false_iff. apply string_ref_eqb_eq.
Qed.

Lemma leading_le (x y : list string_ref) :
  leading x y <= length x /\ leading x y <= length y.
Proof.
  revert y. induction x as [|a x IH]; intros [|b y]; simpl; try lia.
  destruct (string_ref_neqb a b); [lia|]. specialize (IH y). lia.
Qed.

Lemma common_prefix_loop_leading (x y : list string_ref) :
  forall acc : Z,
    (0 <= acc)%Z ->
    (acc + Z.of_nat (Nat.min (length x) (length y)) < size_t_mod)%Z ->
    common_prefix_loop string_ref_neqb x y acc
    = (acc + Z.of_nat (leading x y))%Z.
Proof.
  revert y. induction x as [|a x IH]; intros [|b y] acc Hacc Hbound;
    cbn [common_prefix_loop leading]; try lia.
  destruct (string_ref_neqb a b); [lia|].
  cbn [length] in Hbound. rewrite <- Nat.succ_min_distr in Hbound.
  rewrite wrap_size_t_small by (unfold is_size_t; lia).
  rewrite IH by lia. lia.
Qed.

(** Within [std::size_t] the distance is the exact difference. *)
Lemma path_distance_between_leading (x y : list string_ref) :
  (size x + size y < size_t_mod)%Z ->
  path_distance_between x y
  = (size x + size y - 2 * Z.of_nat (leading x y))%Z.
Proof.
  unfold size. intros Hbound.
  pose proof (leading_le x y) as (Hx & Hy).
  unfold path_distance_between, common_prefix, size.
  rewrite common_prefix_loop_leading by lia. cbn [Z.add].
  rewrite (@wrap_size_t_small (Z.of_nat (length x) + Z.of_nat (length y)))
    by (unfold is_size_t; lia).
  rewrite (@wrap_size_t_small (2 * Z.of_nat (leading x y)))
    by (unfold is_size_t; lia).
  apply wrap_size_t_small. unfold is_size_t. lia.
Qed.

Lemma leading_refl (x : list string_ref) : leading x x = length x.
Proof.
  induction x as [|a x IH]; [reflexivity|]. cbn [leading length].
  rewrite (proj2 (string_ref_neqb_false a a) eq_refl). now rewrite IH.
Qed.

Lemma leading_all (x y : list string_ref) :
  leading x y = length x -> length x = length y -> x = y.
Proof.
  revert y. induction x as [|a x IH]; intros [|b y]; cbn [leading length];
    try discriminate; [reflexivity|].
  destruct (string_ref_neqb a b) eqn:E; [discriminate|].
  apply string_ref_neqb_false in E. subst b.
  intros H1 H2. f_equal. apply IH; lia.
Qed.

Lemma leading_app (p x y : list string_ref) :
  leading (p ++ x) (p ++ y) = length p + leading x y.
Proof.
  induction p as [|a p IH]; [reflexivity|]. cbn [app leading length].
  rewrite (proj2 (string_ref_neqb_false a a) eq_refl). now rewrite IH.
Qed.

(** Two paths that agree with a third one up to some depth agree with
    each other up to that depth. *)
Lemma leading_min (x y z : list string_ref) :
  Nat.min (leading x y) (leading y z) <= leading x z.
Proof.
  revert y z. induction x as [|a x IH]; intros [|b y] [|c z];
    cbn [leading]; try lia.
  destruct (string_ref_neqb a b) eqn:Eab; [lia|].
  destruct (string_ref_neqb b c) eqn:Ebc; [lia|].
  apply string_ref_neqb_false in Eab, Ebc. subst b c.
  rewrite (proj2 (string_ref_neqb_false a a) eq_refl).
  specialize (IH y z). lia.
Qed.

End DistanceFacts.

Import DistanceFacts.

(** X8.  For decomposed paths whose sizes add up within [std::size_t],
    [path_distance_between x y] is 0 exactly when [x] and [y] are the same
    path. *)
Theorem path_distance_zero_iff_same_path (x y : list string_ref) :
  (size x + size y < size_t_mod)%Z ->
  path_distance_between x y = 0%Z <-> x = y.
Proof.
  intros Hbound. rewrite (path_distance_between_leading _ _ Hbound).
  pose proof (leading_le x y) as (Hx & Hy). unfold size in *. split.
  - intros Hzero. apply leading_all; lia.
  - intros <-. rewrite leading_refl. lia.
Qed.

Lemma path_distance_zero_iff_same_path_witness :
  path_distance_between (path_components_of (ref "a/b.txt"))
                        (path_components_of (ref "a/b.txt")) = 0%Z.
Proof.
  apply (@path_distance_zero_iff_same_path
           (path_components_of (ref "a/b.txt"))
           (path_components_of (ref "a/b.txt")) eq_refl).
  reflexivity.
Defined.

(** X9.  The triangle inequality: going from [x] to [z] is never longer
    than going through [y], for decomposed paths whose sizes add up
    pairwise within [std::size_t]. *)
Theorem path_distance_triangle (x y z : list string_ref) :
  (size x + size y < size_t_mod)%Z ->
  (size y + size z < size_t_mod)%Z ->
  (size x + size z < size_t_mod)%Z ->
  (path_distance_between x z
   <= path_distance_between x y + path_distance_between y z)%Z.
Proof.
  intros Hxy Hyz Hxz.
  rewrite !path_distance_between_leading by assumption.
  pose proof (leading_min x y z) as Hmin.
  pose proof (leading_le x y) as (_ & Hy1).
  pose proof (leading_le y z) as (Hy2 & _).
  unfold size. lia.
Qed.

Lemma path_distance_triangle_witness :
  (path_distance_between (path_components_of (ref "a/b/c.txt"))
                         (path_components_of (ref "a/d/e.txt"))
   <= path_distance_between (path_components_of (ref "a/b/c.txt"))
                            (path_components_of (ref "a/x.txt"))
      + path_distance_between (path_components_of (ref "a/x.txt"))
                              (path_components_of (ref "a/d/e.txt")))%Z.
Proof.
  apply (@path_distance_triangle
           (path_components_of (ref "a/b/c.txt"))
           (path_components_of (ref "a/x.txt"))
           (path_components_of (ref "a/d/e.txt"))); reflexivity.
Defined.

(** X10.  Leading components that two paths share do not count: the
    distance between [p ++ x] and [p ++ y] is the distance between [x]
    and [y]. *)
Theorem path_distance_ignores_shared_ancestors
    (p x y : list string_ref) :
  (size (p ++ x) + size (p ++ y) < size_t_mod)%Z ->
  path_distance_between (p ++ x) (p ++ y) = path_distance_between x y.
Proof.
  intros Hbound. unfold size in Hbound. rewrite !length_app in Hbound.
  rewrite !path_distance_between_leading
    by (unfold size; rewrite ?length_app; lia).
  rewrite leading_app. unfold size. rewrite !length_app. lia.
Qed.

Lemma path_distance_ignores_shared_ancestors_witness :
  path_distance_between
    (path_components_of (ref "src/") ++ path_components_of (ref "a/b.c"))
    (path_components_of (ref "src/") ++ path_components_of (ref "d.c"))
  = path_distance_between (path_components_of (ref "a/b.c"))
                          (path_components_of (ref "d.c")).
Proof.
  apply (@path_distance_ignores_shared_ancestors
           (path_components_of (ref "src/"))
           (path_components_of (ref "a/b.c"))
           (path_components_of (ref "d.c"))).
  reflexivity.
Defined.

(** ** Errors end the request without a tuple *)

Module ErrorFacts.

Import Word WordFacts PathUtil Driver TopKFacts.

Section WithMatcher.

Variable Score : Type.
Variable hdr : Headers Score.
Variable matcher : Matcher Score.
Variable item_substr_fn : option (string_ref -> Substr).
Variable limit : Z.

Hypothesis limit_nonneg : (0 <= limit)%Z.

(** After a loop over all threads that did not throw, every thread has
    returned, and there is at least one. *)
Lemma joined_all_returned (it : PyIter) (nr_threads : Z)
    (sched : list nat) (st' : State Score) (trace : list Event) (acc : Z) :
  (1 <= nr_threads)%Z ->
  join_threads hdr matcher item_substr_fn limit (Z.to_nat nr_threads) 0
    (run hdr matcher item_substr_fn limit sched
         (start Score it nr_threads)) 0 []
  = (st', trace, Ok acc) ->
  steps hdr matcher item_substr_fn limit (start Score it nr_threads) st' /\
  state_ok limit st' /\
  threads st' <> [] /\
  Forall (fun w => status w = Returned) (threads st').
Proof.
  intros Hnr Hjoin.
  set (st0 := start Score it nr_threads) in *.
  set (st1 := run hdr matcher item_substr_fn limit sched st0) in *.
  pose proof (@start_ok Score limit it nr_threads) as Hok0. fold st0 in Hok0.
  pose proof (run_steps hdr matcher item_substr_fn limit sched st0)
    as Hsteps01.
  fold st1 in Hsteps01.
  destruct (steps_invariants limit_nonneg 0 Hsteps01 Hok0)
    as (Hok1 & _ & _ & Hlength1 & _).
  assert (Hthreads : length (threads st1) = Z.to_nat nr_threads).
  { rewrite Hlength1. unfold st0, start. cbn. apply repeat_length. }
  destruct (@join_threads_spec Score hdr matcher item_substr_fn limit
              limit_nonneg _ _ _ _ _ _ _ _ Hjoin Hok1)
    as (Hsteps1' & Hbelow).
  { lia. }
  { intros j w Hj. lia. }
  destruct (steps_invariants limit_nonneg 0 Hsteps1' Hok1)
    as (Hok' & _ & _ & Hlength' & _).
  split; [now apply steps_trans with st1|]. split; [exact Hok'|]. split.
  - intros Hnil. rewrite Hnil in Hlength'. cbn in Hlength'. lia.
  - apply Forall_forall. intros w Hin.
    apply In_nth_error in Hin. destruct Hin as (j & Hnth).
    apply (Hbelow j w); [|exact Hnth].
    assert (Hsome : nth_error (threads st') j <> None)
      by (rewrite Hnth; discriminate).
    apply nth_error_Some in Hsome. lia.
Qed.

(** When the threads have all returned and no object failed to convert,
    the iterator is used up. *)
Lemma returned_means_used_up (st : State Score) :
  state_ok limit st -> threads st <> [] ->
  Forall (fun w => status w = Returned) (threads st) ->
  have_python_ex (shared st) = false ->
  pending (items_iter (shared st)) = [].
Proof.
  intros (Hempty & Hworkers) Hsome Hall Hnoex. apply Hempty.
  destruct (threads st) as [|w v]; [contradiction|].
  apply Forall_inv in Hworkers. apply Forall_inv in Hall.
  destruct Hworkers as (_ & _ & Hret). specialize (Hret Hall).
  now rewrite Hnoex, orb_false_r in Hret.
Qed.

(** An object that is no string stays in the iterator until
    [have_python_ex] is set. *)
Lemma collect_batch_keeps_bad (bad : PyObject) (rest : list PyObject) :
  ob_bytes bad = None ->
  forall sh items acc sh' batch returned,
    collect_batch rest sh items acc = (sh', batch, returned) ->
    In bad rest -> have_python_ex sh' = false ->
    In bad (pending (items_iter sh')).
Proof.
  intros Hbad. induction rest as [|item_obj rest IH];
    intros sh items acc sh' batch returned Hrun Hin Hnoex;
    [contradiction|].
  cbn [collect_batch] in Hrun.
  destruct (acc <? kBatchSizeBytes)%Z.
  - destruct (ob_bytes item_obj) as [item_data|] eqn:Hbytes.
    + destruct Hin as [-> | Hin]; [congruence|].
      now apply (IH _ _ _ _ _ _ Hrun).
    + injection Hrun as <- <- <-. cbn in Hnoex. discriminate.
  - injection Hrun as <- <- <-. exact Hin.
Qed.

(** [have_python_ex] is never cleared. *)
Lemma steps_keep_python_ex (st st' : State Score) :
  steps hdr matcher item_substr_fn limit st st' ->
  have_python_ex (shared st) = true ->
  have_python_ex (shared st') = true.
Proof.
  induction 1 as [|a b j _ IH]; intros Hset; [exact Hset|].
  apply IH.
  destruct (step_cases hdr matcher item_substr_fn limit j a)
    as [-> | (w & sh' & w' & pre & post & _ & _ & _ & Hturn & ->)];
    [exact Hset|].
  cbn [shared]. unfold worker_turn in Hturn.
  rewrite Hset, orb_true_r in Hturn. now injection Hturn as <- _.
Qed.

Lemma steps_keep_bad (bad : PyObject) (st st' : State Score) :
  ob_bytes bad = None ->
  steps hdr matcher item_substr_fn limit st st' ->
  In bad (pending (items_iter (shared st))) ->
  have_python_ex (shared st') = false ->
  In bad (pending (items_iter (shared st'))).
Proof.
  intros Hbad. induction 1 as [|st st' i Hsteps IH]; intros Hin Hnoex;
    [exact Hin|].
  apply IH; [|exact Hnoex].
  destruct (have_python_ex
              (shared (step hdr matcher item_substr_fn limit i st)))
    eqn:Hex.
  { rewrite (steps_keep_python_ex Hsteps Hex) in Hnoex. discriminate. }
  destruct (step_cases hdr matcher item_substr_fn limit i st)
    as [Hsame | (w & sh' & w' & pre & post & _ & _ & _ & Hturn & Hstep)].
  - rewrite Hsame. exact Hin.
  - rewrite Hstep in *. cbn [shared] in *. unfold worker_turn in Hturn.
    destruct (end_of_python_iter (shared st) || have_python_ex (shared st)).
    + injection Hturn as <- _. exact Hin.
    + destruct (collect_batch _ _ _ _) as [[sh1 batch] returned]
        eqn:Hcollect.
      assert (Hsh : sh' = sh1).
      { destruct returned; [now injection Hturn|].
        destruct (empty_vec batch); [now injection Hturn|].
        destruct (process_items _ _ _ _ _ _ _) as [[? ?] [?|]];
          now injection Hturn. }
      subst sh1.
      eapply collect_batch_keeps_bad; eauto.
Qed.

(** With a matcher that does not throw, no thread ends by an
    exception. *)
Lemma steps_no_threw (st st' : State Score) :
  never_throws matcher ->
  steps hdr matcher item_substr_fn limit st st' ->
  Forall (@no_threw Score) (threads st) ->
  Forall (@no_threw Score) (threads st').
Proof.
  intros Hnever. induction 1 as [|st st' i _ IH]; intros Hall;
    [exact Hall|].
  apply IH.
  destruct (step_cases hdr matcher item_substr_fn limit i st)
    as [-> | (w & sh' & w' & pre & post & Hv & _ & _ & Hturn & ->)];
    [exact Hall|].
  cbn [threads]. rewrite Hv in Hall. apply Forall_app in Hall.
  destruct Hall as (Hpre & Hpost). apply Forall_app. split; [exact Hpre|].
  constructor; [|now inversion Hpost].
  unfold worker_turn in Hturn.
  destruct (end_of_python_iter (shared st) || have_python_ex (shared st)).
  { injection Hturn as _ <-. intros what. discriminate. }
  destruct (collect_batch _ _ _ _) as [[sh1 batch] returned].
  destruct returned.
  { injection Hturn as _ <-. intros what. discriminate. }
  destruct (empty_vec batch).
  { injection Hturn as _ <-. intros what. discriminate. }
  pose proof (process_items_no_throw hdr item_substr_fn limit batch Hnever
                (matches w) []) as Hnone.
  destruct (process_items _ _ _ _ _ _ _) as [[? ?] [?|]];
    [discriminate|].
  injection Hturn as _ <-. intros what. discriminate.
Qed.

Lemma join_threads_no_threw (n : nat) :
  never_throws matcher ->
  forall (i : nat) (st : State Score) (acc : Z) (trace : list Event),
    Forall (@no_threw Score) (threads st) ->
    exists st' trace' acc',
      join_threads hdr matcher item_substr_fn limit n i st acc trace
      = (st', trace', Ok acc').
Proof.
  intros Hnever. induction n as [|n IH]; intros i st acc trace Hall;
    cbn [join_threads].
  - now exists st, trace, acc.
  - pose proof (steps_no_threw Hnever
                  (join_steps hdr matcher item_substr_fn limit i st) Hall)
      as Hall1.
    destruct (nth_error
                (threads (join hdr matcher item_substr_fn limit i st)) i)
      as [w|] eqn:Hnth; [|eauto].
    pose proof Hall1 as Hw. rewrite Forall_forall in Hw.
    specialize (Hw w (nth_error_In _ _ Hnth)).
    destruct (status w) eqn:Hstatus; try (apply IH; assumption).
    now elim (Hw what).
Qed.

End WithMatcher.

End ErrorFacts.

Import ErrorFacts.

(** X11.  A candidate that is not a string ends the request without a
    tuple, whatever the order of the threads: NULL is returned.  With a
    matcher that does not throw, the exception left set is the host's own
    (no [RuntimeError] replaces it). *)
Theorem non_string_candidate_gives_no_tuple (Score : Type)
    (hdr : Headers Score) (args : Args) (it : PyIter) (sched : list nat)
    (bad : PyObject) :
  is_unsigned (hardware_concurrency hdr) ->
  In bad (pending it) -> ob_bytes bad = None ->
  (exists err,
      cpsm_ctrlp_match hdr args (Iterable it) sched = PyNULL err) /\
  (forall matcher item_substr_fn,
      prepared hdr args = Some (matcher, item_substr_fn) ->
      never_throws matcher ->
      cpsm_ctrlp_match hdr args (Iterable it) sched
      = PyNULL HostException).
Proof.
  intros Hhw Hin Hbad.
  pose proof (limit_of_nonneg (limit_int args)) as HK.
  assert (Hnr : (1 <= get_nr_threads (hardware_concurrency hdr)
                        (max_threads_of (max_threads_int args)))%Z).
  { rewrite get_nr_threads_value
      by (exact Hhw || apply max_threads_of_range).
    lia. }
  assert (Hflag : forall matcher item_substr_fn st' trace acc,
             join_threads hdr matcher item_substr_fn
               (limit_of (limit_int args))
               (Z.to_nat (get_nr_threads (hardware_concurrency hdr)
                            (max_threads_of (max_threads_int args)))) 0
               (run hdr matcher item_substr_fn (limit_of (limit_int args))
                    sched
                    (start Score it
                       (get_nr_threads (hardware_concurrency hdr)
                          (max_threads_of (max_threads_int args))))) 0 []
             = (st', trace, Ok acc) ->
             have_python_ex (shared st') = true).
  { intros matcher item_substr_fn st' trace acc Hjoin.
    destruct (have_python_ex (shared st')) eqn:Hex; [reflexivity|].
    destruct (joined_all_returned hdr matcher item_substr_fn HK it sched
                Hnr Hjoin) as (Hsteps & Hok & Hsome & Hall).
    pose proof (returned_means_used_up Hok Hsome Hall Hex) as Hempty.
    pose proof (steps_keep_bad bad Hbad Hsteps Hin Hex) as Hstill.
    rewrite Hempty in Hstill. contradiction. }
  split.
  - unfold cpsm_ctrlp_match, ctrlp_match_body, match_stage.
    destruct (invert_query hdr (query args) (query_inverting_delimiter args))
      as [query|what]; [|cbn; eauto].
    destruct (Matcher_new hdr query _ _) as [matcher|what]; [|cbn; eauto].
    destruct (match_mode_item_substr_fn hdr (mmode args))
      as [item_substr_fn|what]; [|cbn; eauto].
    destruct (join_threads hdr matcher item_substr_fn _ _ 0 _ 0 [])
      as [[st' trace] [acc|what]] eqn:Hjoin; [|cbn; eauto].
    rewrite (Hflag _ _ _ _ _ Hjoin). cbn. eauto.
  - intros matcher item_substr_fn Hprepared Hnever.
    unfold prepared in Hprepared.
    unfold cpsm_ctrlp_match, ctrlp_match_body, match_stage.
    destruct (invert_query hdr (query args) (query_inverting_delimiter args))
      as [query|what]; [|discriminate].
    destruct (Matcher_new hdr query _ _) as [matcher'|what];
      [|discriminate].
    destruct (match_mode_item_substr_fn hdr (mmode args))
      as [item_substr_fn'|what]; [|discriminate].
    injection Hprepared as -> ->.
    destruct (join_threads_no_threw hdr item_substr_fn
                (limit_of (limit_int args))
                (Z.to_nat (get_nr_threads (hardware_concurrency hdr)
                             (max_threads_of (max_threads_int args))))
                Hnever 0
                (run hdr matcher item_substr_fn (limit_of (limit_int args))
                     sched
                     (start Score it
                        (get_nr_threads (hardware_concurrency hdr)
                           (max_threads_of (max_threads_int args)))))
                0 [])
      as (st' & trace & acc & Hjoin).
    { apply (steps_no_threw Hnever
               (run_steps hdr matcher item_substr_fn _ sched _)).
      apply Forall_forall. intros w Hw. apply repeat_spec in Hw. subst w.
      intros what. discriminate. }
    rewrite Hjoin, (Hflag _ _ _ _ _ Hjoin). reflexivity.
Qed.

Lemma non_string_candidate_gives_no_tuple_witness :
  cpsm_ctrlp_match (Scenario.small_headers 2) (Scenario.request 0 0 "" "")
    (Iterable {| pending := [Scenario.py_str 1 "ma"; Scenario.py_int 2;
                             Scenario.py_str 3 "mb"];
                 ending := Exhausted |}) [1; 0]
  = PyNULL HostException.
Proof.
  assert (Hhw : is_unsigned
                  (hardware_concurrency (Scenario.small_headers 2)))
    by (split; [discriminate | reflexivity]).
  destruct (@non_string_candidate_gives_no_tuple Z
              (Scenario.small_headers 2) (Scenario.request 0 0 "" "")
              {| pending := [Scenario.py_str 1 "ma"; Scenario.py_int 2;
                             Scenario.py_str 3 "mb"];
                 ending := Exhausted |} [1; 0] (Scenario.py_int 2) Hhw)
    as ((err & Herr) & _).
  - right. left. reflexivity.
  - reflexivity.
  - reflexivity.
Defined.

(** X12.  An exception in a worker is not lost: when a thread has ended
    by an exception, the request returns NULL with a [RuntimeError] and no
    tuple, whatever the other threads found. *)
Theorem worker_exception_gives_no_tuple (Score : Type)
    (hdr : Headers Score) (args : Args) (it : PyIter) (sched : list nat)
    (matcher : Matcher Score)
    (item_substr_fn : option (string_ref -> Substr))
    (j : nat) (w : Worker Score) (what : string) :
  prepared hdr args = Some (matcher, item_substr_fn) ->
  nth_error
    (threads (run hdr matcher item_substr_fn (limit_of (limit_int args))
                  sched
                  (start Score it
                     (nr_threads_of (hardware_concurrency hdr)
                                    (max_threads_int args))))) j
  = Some w ->
  status w = Threw what ->
  exists what',
    cpsm_ctrlp_match hdr args (Iterable it) sched
    = PyNULL (RuntimeError what').
Proof.
  intros Hprepared Hnth Hthrew.
  pose proof (limit_of_nonneg (limit_int args)) as HK.
  unfold prepared in Hprepared. unfold nr_threads_of in Hnth.
  unfold cpsm_ctrlp_match, ctrlp_match_body, match_stage.
  destruct (invert_query hdr (query args) (query_inverting_delimiter args))
    as [query|what0]; [|discriminate].
  destruct (Matcher_new hdr query _ _) as [matcher'|what0];
    [|discriminate].
  destruct (match_mode_item_substr_fn hdr (mmode args))
    as [item_substr_fn'|what0]; [|discriminate].
  injection Hprepared as -> ->.
  set (nr := get_nr_threads (hardware_concurrency hdr)
               (max_threads_of (max_threads_int args))) in *.
  set (st1 := run hdr matcher item_substr_fn (limit_of (limit_int args))
                  sched (start Score it nr)) in *.
  destruct (join_threads hdr matcher item_substr_fn _ (Z.to_nat nr) 0 st1
                         0 [])
    as [[st' trace] [acc|what1]] eqn:Hjoin; [|cbn; eauto].
  exfalso.
  pose proof (@start_ok Score (limit_of (limit_int args)) it nr) as Hok0.
  destruct (steps_invariants HK 0
              (run_steps hdr matcher item_substr_fn _ sched _) Hok0)
    as (Hok1 & _ & _ & Hlength1 & _).
  fold st1 in Hok1, Hlength1.
  destruct (@join_threads_spec Score hdr matcher item_substr_fn _ HK
              _ _ _ _ _ _ _ _ Hjoin Hok1) as (Hsteps & Hbelow).
  { rewrite Hlength1. unfold start. cbn. rewrite repeat_length. lia. }
  { intros k w0 Hk. lia. }
  assert (Hstill : nth_error (threads st') j = Some w).
  { apply (settled_along_steps HK j Hsteps Hok1 Hnth).
    rewrite Hthrew. discriminate. }
  assert (Hj : j < 0 + Z.to_nat nr).
  { assert (Hsome : nth_error (threads st1) j <> None)
      by (rewrite Hnth; discriminate).
    apply nth_error_Some in Hsome. rewrite Hlength1 in Hsome.
    unfold start in Hsome. cbn in Hsome. rewrite repeat_length in Hsome.
    lia. }
  specialize (Hbelow j w Hj Hstill). congruence.
Qed.

Lemma worker_exception_gives_no_tuple_witness :
  exists what',
    cpsm_ctrlp_match (Scenario.small_headers 2)
                     (Scenario.request 0 0 "" "")
                     (Iterable Scenario.candidates_throwing) [0]
    = PyNULL (RuntimeError what').
Proof.
  apply (@worker_exception_gives_no_tuple Z (Scenario.small_headers 2)
           (Scenario.request 0 0 "" "") Scenario.candidates_throwing [0]
           Scenario.small_matcher None 0
           {| items := []; unmatched_objs := []; matches := [];
              status := Threw "boom" |} "boom");
    reflexivity.
Defined.

(** ** The threads keep the least matches *)

From Stdlib Require Import Permutation Sorted.

Module OrderFacts.

Import Word WordFacts PathUtil Driver TopKFacts ErrorFacts.

(** What [std::push_heap], [std::pop_heap] and [std::sort] ask of
    [operator<]: a strict weak ordering. *)
Record strict_weak_order (Score : Type) (hdr : Headers Score) : Prop := {
  lt_irrefl : forall a, match_lt hdr a a = false;
  lt_trans : forall a b c,
      match_lt hdr a b = true -> match_lt hdr b c = true ->
      match_lt hdr a c = true;
  lt_between : forall a b c,
      match_lt hdr a c = true ->
      match_lt hdr a b = true \/ match_lt hdr b c = true
}.

Section WithMatcher.

Variable Score : Type.
Variable hdr : Headers Score.
Variable matcher : Matcher Score.
Variable item_substr_fn : option (string_ref -> Substr).
Variable limit : Z.

Hypothesis limit_nonneg : (0 <= limit)%Z.
Hypothesis order : strict_weak_order hdr.

(** [d] is not less than any match of [kept]. *)
Definition not_below (kept : list (Match Score)) (d : Match Score) : Prop :=
  Forall (fun m => match_lt hdr d m = false) kept.

Lemma not_less_chain (a b c : Match Score) :
  match_lt hdr a b = false -> match_lt hdr b c = false ->
  match_lt hdr a c = false.
Proof.
  intros Hab Hbc. destruct (match_lt hdr a c) eqn:Hac; [|reflexivity].
  destruct (lt_between order a b c Hac); congruence.
Qed.

(** [take_largest] takes a largest element out and keeps the rest. *)
Lemma take_largest_spec (v : list (Match Score)) :
  forall m big rest,
    take_largest hdr m v = (big, rest) ->
    Permutation (m :: v) (big :: rest) /\
    match_lt hdr big m = false /\
    not_below rest big.
Proof.
  unfold not_below.
  induction v as [|m' v IH]; intros m big rest Hrun; cbn in Hrun.
  - injection Hrun as <- <-. split; [reflexivity|].
    split; [apply (lt_irrefl order) | constructor].
  - destruct (match_lt hdr m m') eqn:Hlt.
    + destruct (take_largest hdr m' v) as [big' rest'] eqn:Hrec.
      injection Hrun as <- <-.
      destruct (IH _ _ _ Hrec) as (Hperm & Hbig & Hrest).
      assert (Hm : match_lt hdr big' m = false).
      { destruct (match_lt hdr big' m) eqn:E; [|reflexivity].
        rewrite (lt_trans order _ _ _ E Hlt) in Hbig. discriminate. }
      split; [|split; [exact Hm | constructor; assumption]].
      apply perm_trans with (m :: big' :: rest');
        [apply perm_skip; exact Hperm | apply perm_swap].
    + destruct (take_largest hdr m v) as [big' rest'] eqn:Hrec.
      injection Hrun as <- <-.
      destruct (IH _ _ _ Hrec) as (Hperm & Hbig & Hrest).
      split; [|split; [exact Hbig | constructor; [|assumption]]].
      * apply perm_trans with (m' :: m :: v); [apply perm_swap|].
        apply perm_trans with (m' :: big' :: rest');
          [apply perm_skip; exact Hperm | apply perm_swap].
      * now apply not_less_chain with m.
Qed.

(** [pop_heap], [back] and [pop_back] on a list that is not empty. *)
Lemma pop_heap_spec (v : list (Match Score)) :
  v <> [] ->
  exists big rest,
    pop_heap hdr v = rest ++ [big] /\
    back (pop_heap hdr v) = Some big /\
    pop_back (pop_heap hdr v) = rest /\
    Permutation v (big :: rest) /\
    not_below rest big.
Proof.
  destruct v as [|m v]; [contradiction|]. intros _. cbn [pop_heap].
  destruct (take_largest hdr m v) as [big rest] eqn:Hrun.
  destruct (take_largest_spec _ _ Hrun) as (Hperm & _ & Hrest).
  exists big, rest. split; [reflexivity|]. split; [|split; [|auto]].
  - unfold back. rewrite length_app. cbn [length].
    rewrite nth_error_app2 by lia.
    replace (length rest + 1 - 1 - length rest) with 0 by lia.
    reflexivity.
  - unfold pop_back. apply removelast_last.
Qed.

(** The match the worker builds from a candidate, if it matches. *)
Definition match_of_item (it : Item) : list (Match Score) :=
  match match_ matcher (item_str_of item_substr_fn (first it)) it with
  | Ok (Some sc) => [{| item := it; score := sc |}]
  | _ => []
  end.

Definition matches_of_items (batch : list Item) : list (Match Score) :=
  flat_map match_of_item batch.

Definition matches_of_objs (objs : list PyObject) : list (Match Score) :=
  flat_map (fun obj =>
              match ob_bytes obj with
              | Some item_data =>
                  match_of_item {| first := item_data; second := obj |}
              | None => []
              end) objs.

(** A thread's list [kept] and what it has dropped from it: nothing
    dropped is less than anything kept, and the thread only drops from a
    full list. *)
Definition keeps_least (kept dropped : list (Match Score)) : Prop :=
  Forall (not_below kept) dropped /\
  (dropped <> [] -> (0 < limit)%Z /\ length kept = Z.to_nat limit) /\
  within_limit_len limit (length kept).

Lemma keeps_least_nothing_dropped (kept dropped : list (Match Score)) :
  keeps_least kept dropped ->
  (Z.of_nat (length kept) < limit \/ limit = 0)%Z -> dropped = [].
Proof.
  intros (_ & Hfull & _) Hroom. destruct dropped as [|d dropped];
    [reflexivity|].
  destruct Hfull as (Hpos & Hlen); [discriminate|]. lia.
Qed.

(** One candidate keeps the thread's list the least of what it has
    seen. *)
Lemma process_item_keeps_least (kept dropped : list (Match Score))
    (unmatched_objs : list PyObject) (it : Item) :
  keeps_least kept dropped ->
  let r := process_item hdr matcher item_substr_fn limit kept
                        unmatched_objs it in
  snd r = None ->
  exists dropped',
    keeps_least (fst (fst r)) dropped' /\
    Permutation (fst (fst r) ++ dropped')
                (kept ++ dropped ++ match_of_item it).
Proof.
  intros Hkeeps. pose proof Hkeeps as (Hbelow & Hfull & Hwithin).
  unfold process_item, match_of_item.
  destruct (match_ matcher (item_str_of item_substr_fn (first it)) it)
    as [[sc|]|what]; cbn zeta.
  - set (m := {| item := it; score := sc |}). unfold push_heap.
    destruct (Z.eqb_spec limit 0) as [Hzero | Hpos]; cbn [negb].
    + (* no limit *)
      cbn [fst snd]. intros _.
      rewrite (keeps_least_nothing_dropped Hkeeps) by (now right).
      exists []. split.
      * split; [constructor | split; [intros H; now elim H|]].
        unfold within_limit_len. lia.
      * now rewrite !app_nil_r.
    + destruct (Z.gtb_spec (size (kept ++ [m])) limit) as [Hover | Hfits].
      * (* the list is over the limit: its largest element leaves *)
        destruct (@pop_heap_spec (kept ++ [m]))
          as (big & rest & Hpop & Hback & Hpopped & Hperm & Hrest);
          [now destruct kept|].
        rewrite Hback, Hpopped. cbn [fst snd]. intros _.
        unfold size in Hover. rewrite length_app in Hover.
        cbn [length] in Hover.
        pose proof (Permutation_length Hperm) as Hlength.
        rewrite length_app in Hlength. cbn [length] in Hlength.
        unfold within_limit_len in Hwithin.
        exists (big :: dropped). split.
        -- split; [|split].
           ++ constructor; [exact Hrest|].
              assert (Hbig : In big (kept ++ [m]))
                by (apply (Permutation_in big (Permutation_sym Hperm));
                    now left).
              apply in_app_or in Hbig.
              rewrite Forall_forall in Hbelow |- *.
              intros d Hd. specialize (Hbelow d Hd).
              unfold not_below in *. rewrite Forall_forall in Hbelow |- *.
              intros x Hx.
              destruct Hbig as [Hbig | [<- | []]].
              ** assert (Hxv : In x (kept ++ [m]))
                   by (apply (Permutation_in x (Permutation_sym Hperm));
                       now right).
                 apply in_app_or in Hxv. destruct Hxv as [Hxk | [<- | []]];
                   [now apply Hbelow|].
                 apply not_less_chain with big; [now apply Hbelow|].
                 unfold not_below in Hrest. rewrite Forall_forall in Hrest.
                 now apply Hrest.
              ** apply Hbelow.
                 assert (Hsame : Permutation kept rest).
                 { apply Permutation_cons_inv with m.
                   apply perm_trans with (kept ++ [m]);
                     [apply Permutation_cons_append | exact Hperm]. }
                 now apply (Permutation_in x (Permutation_sym Hsame)).
           ++ intros _. lia.
           ++ unfold within_limit_len. lia.
        -- apply perm_trans with (big :: rest ++ dropped);
             [apply Permutation_sym, Permutation_middle|].
           change (big :: rest ++ dropped) with ((big :: rest) ++ dropped).
           apply perm_trans with ((kept ++ [m]) ++ dropped);
             [apply Permutation_app_tail, Permutation_sym, Hperm|].
           rewrite <- app_assoc. apply Permutation_app_head.
           apply Permutation_app_comm.
      * (* the list fits *)
        cbn [fst snd]. intros _.
        unfold size in Hfits. rewrite length_app in Hfits.
        cbn [length] in Hfits.
        rewrite (keeps_least_nothing_dropped Hkeeps) by lia.
        exists []. split.
        -- split; [constructor | split; [intros H; now elim H|]].
           unfold within_limit_len. rewrite length_app. cbn [length]. lia.
        -- now rewrite !app_nil_r.
  - cbn [fst snd]. intros _. exists dropped. split; [exact Hkeeps|].
    now rewrite app_nil_r.
  - cbn [fst snd]. discriminate.
Qed.

(** A batch. *)
Lemma process_items_keeps_least (batch : list Item) :
  forall (kept dropped : list (Match Score))
         (unmatched_objs : list PyObject),
    keeps_least kept dropped ->
    let r := process_items hdr matcher item_substr_fn limit batch kept
                           unmatched_objs in
    snd r = None ->
    exists dropped',
      keeps_least (fst (fst r)) dropped' /\
      Permutation (fst (fst r) ++ dropped')
                  (kept ++ dropped ++ matches_of_items batch).
Proof.
  induction batch as [|it batch IH]; intros kept dropped unmatched_objs
                                            Hkeeps.
  - cbn. intros _. exists dropped. split; [exact Hkeeps|].
    now rewrite app_nil_r.
  - cbn [process_items matches_of_items flat_map].
    pose proof (process_item_keeps_least unmatched_objs it Hkeeps) as Hitem.
    cbv zeta in Hitem.
    destruct (process_item hdr matcher item_substr_fn limit kept
                           unmatched_objs it)
      as [[kept1 unmatched_objs1] [what|]]; cbn [fst snd] in *;
      [discriminate|].
    destruct (Hitem eq_refl) as (dropped1 & Hkeeps1 & Hperm1).
    intros Hnone.
    destruct (IH kept1 dropped1 unmatched_objs1 Hkeeps1 Hnone)
      as (dropped' & Hkeeps' & Hperm').
    exists dropped'. split; [exact Hkeeps'|].
    apply perm_trans with (kept1 ++ dropped1 ++ matches_of_items batch);
      [exact Hperm'|].
    fold (matches_of_items batch).
    rewrite !app_assoc. apply Permutation_app_tail.
    rewrite <- app_assoc. exact Hperm1.
Qed.

Lemma matches_of_objs_app (a b : list PyObject) :
  matches_of_objs (a ++ b) = matches_of_objs a ++ matches_of_objs b.
Proof. apply flat_map_app. Qed.

Lemma matches_of_objs_built (pulled : list Item) :
  Forall built_from_object pulled ->
  matches_of_objs (map second pulled) = matches_of_items pulled.
Proof.
  induction 1 as [|it pulled Hit _ IH]; [reflexivity|].
  cbn [map matches_of_objs matches_of_items flat_map].
  unfold built_from_object in Hit. rewrite Hit.
  fold (matches_of_objs (map second pulled)). rewrite IH.
  now destruct it.
Qed.

Lemma perm_around (A : Type) (a b c d p : list A) :
  Permutation (a ++ c) (b ++ d) ->
  Permutation (a ++ p ++ c) (b ++ p ++ d).
Proof.
  intros H.
  apply perm_trans with (p ++ a ++ c).
  - rewrite !app_assoc. apply Permutation_app_tail, Permutation_app_comm.
  - apply perm_trans with (p ++ b ++ d);
      [now apply Permutation_app_head|].
    rewrite !app_assoc. apply Permutation_app_tail, Permutation_app_comm.
Qed.

(** One turn of a worker that ends without error. *)
Lemma worker_turn_keeps_least (sh sh' : Shared) (w w' : Worker Score)
    (dropped : list (Match Score)) :
  worker_turn hdr matcher item_substr_fn limit sh w = (sh', w') ->
  items w = [] ->
  have_python_ex sh' = false -> no_threw w' ->
  keeps_least (matches w) dropped ->
  exists dropped',
    keeps_least (matches w') dropped' /\
    Permutation
      ((matches w' ++ dropped') ++ matches_of_objs (pending (items_iter sh')))
      ((matches w ++ dropped) ++ matches_of_objs (pending (items_iter sh))).
Proof.
  intros Hturn Hitems Hnoex Hnothrew Hkeeps. unfold worker_turn in Hturn.
  destruct (end_of_python_iter sh || have_python_ex sh) eqn:Hflags.
  - injection Hturn as <- <-. exists dropped. now split.
  - apply orb_false_iff in Hflags. destruct Hflags as (Hend0 & _).
    destruct (collect_batch (pending (items_iter sh)) sh (items w) 0)
      as [[sh1 batch] returned] eqn:Hcollect.
    destruct (collect_batch_spec _ _ _ _ Hcollect Hend0)
      as (pulled & Hbuilt & _ & _ & Hreturned & Hloop).
    destruct returned.
    + injection Hturn as <- <-. rewrite Hreturned in Hnoex by reflexivity.
      discriminate.
    + destruct (Hloop eq_refl) as (Hbatch & Hrest & _ & _).
      rewrite Hitems in Hbatch. cbn [app] in Hbatch. subst batch.
      assert (Hleft : matches_of_objs (pending (items_iter sh))
                      = matches_of_items pulled
                        ++ matches_of_objs (pending (items_iter sh1))).
      { rewrite Hrest, matches_of_objs_app, matches_of_objs_built
          by exact Hbuilt.
        reflexivity. }
      destruct (empty_vec pulled) eqn:Hempty.
      * injection Hturn as <- <-. destruct pulled; [|discriminate].
        exists dropped. split; [exact Hkeeps|].
        rewrite Hleft. reflexivity.
      * pose proof (process_items_keeps_least pulled [] Hkeeps) as Hbatch.
        cbv zeta in Hbatch.
        destruct (process_items hdr matcher item_substr_fn limit pulled
                                (matches w) [])
          as [[matches' unmatched_objs'] [what|]];
          injection Hturn as <- <-; cbn [fst snd matches] in *.
        -- now elim (Hnothrew what).
        -- destruct (Hbatch eq_refl) as (dropped' & Hkeeps' & Hperm).
           exists dropped'. split; [exact Hkeeps'|].
           rewrite Hleft, !app_assoc. apply Permutation_app_tail.
           rewrite <- !app_assoc. exact Hperm.
Qed.

(** The threads and the bag of all that they keep or have dropped. *)
Inductive accounted : list (Worker Score) -> list (Match Score) -> Prop :=
| accounted_nil : accounted [] []
| accounted_cons (w : Worker Score) (dropped : list (Match Score))
    (v : list (Worker Score)) (bag : list (Match Score)) :
    keeps_least (matches w) dropped -> accounted v bag ->
    accounted (w :: v) ((matches w ++ dropped) ++ bag).

Lemma accounted_app (a b : list (Worker Score))
    (ba bb : list (Match Score)) :
  accounted a ba -> accounted b bb -> accounted (a ++ b) (ba ++ bb).
Proof.
  induction 1 as [|w dropped v bag Hw _ IH]; intros Hb; [exact Hb|].
  cbn [app]. rewrite <- app_assoc. constructor; [exact Hw | now apply IH].
Qed.

Lemma accounted_split (pre : list (Worker Score)) :
  forall (w : Worker Score) (post : list (Worker Score))
         (bag : list (Match Score)),
    accounted (pre ++ w :: post) bag ->
    exists bpre dropped bpost,
      accounted pre bpre /\ keeps_least (matches w) dropped /\
      accounted post bpost /\
      bag = bpre ++ (matches w ++ dropped) ++ bpost.
Proof.
  induction pre as [|a pre IH]; intros w post bag H; cbn [app] in H;
    inversion H as [|? dropped ? bag0 Hw Hrest]; subst.
  - exists [], dropped, bag0.
    split; [constructor|]. split; [exact Hw|].
    split; [exact Hrest | reflexivity].
  - destruct (IH _ _ _ Hrest) as (bpre & dw & bpost & Hpre & Hkw & Hpost
                                  & ->).
    exists ((matches a ++ dropped) ++ bpre), dw, bpost.
    split; [now constructor|]. split; [exact Hkw|].
    split; [exact Hpost|]. now rewrite <- !app_assoc.
Qed.

(** Of the matches of all candidates, each is kept or was dropped by a
    thread, or its candidate is still in the iterator. *)
Definition all_accounted (all : list (Match Score)) (st : State Score)
    : Prop :=
  clean st ->
  exists bag,
    accounted (threads st) bag /\
    Permutation
      (bag ++ matches_of_objs (pending (items_iter (shared st)))) all.

Lemma step_all_accounted (all : list (Match Score)) (i : nat)
    (st : State Score) :
  state_ok limit st -> all_accounted all st ->
  all_accounted all (step hdr matcher item_substr_fn limit i st).
Proof.
  intros Hok Hacc Hclean'.
  pose proof (@step_clean Score hdr matcher item_substr_fn limit
                limit_nonneg i st Hok Hclean') as Hclean.
  destruct (Hacc Hclean) as (bag & Hbag & Hperm).
  destruct (step_cases hdr matcher item_substr_fn limit i st)
    as [Hsame | (w & sh' & w' & pre & post & Hv & _ & _ & Hturn & Hstep)].
  - rewrite Hsame. eauto.
  - rewrite Hstep in *. cbn [shared threads] in *.
    destruct Hclean' as (Hnoex & Hnothrew).
    apply Forall_app in Hnothrew. destruct Hnothrew as (_ & Hnothrew).
    apply Forall_inv in Hnothrew.
    rewrite Hv in Hbag.
    destruct (accounted_split _ _ _ Hbag)
      as (bpre & dropped & bpost & Hpre & Hkw & Hpost & ->).
    assert (Hitems : items w = []).
    { destruct Hok as (_ & Hworkers). rewrite Hv in Hworkers.
      apply Forall_app in Hworkers. destruct Hworkers as (_ & Hw).
      apply Forall_inv in Hw. now destruct Hw. }
    destruct (worker_turn_keeps_least _ _ Hturn Hitems Hnoex Hnothrew Hkw)
      as (dropped' & Hkw' & Hturned).
    exists (bpre ++ (matches w' ++ dropped') ++ bpost). split.
    + apply accounted_app; [exact Hpre | now constructor].
    + apply perm_trans
        with ((bpre ++ (matches w ++ dropped) ++ bpost)
              ++ matches_of_objs (pending (items_iter (shared st))));
        [|exact Hperm].
      rewrite <- !app_assoc. apply Permutation_app_head.
      rewrite (app_assoc (matches w')), (app_assoc (matches w)).
      apply perm_around. exact Hturned.
Qed.

Lemma steps_all_accounted (all : list (Match Score))
    (st st' : State Score) :
  steps hdr matcher item_substr_fn limit st st' ->
  state_ok limit st -> all_accounted all st -> all_accounted all st'.
Proof.
  induction 1 as [|st st' i _ IH]; intros Hok Hacc; [exact Hacc|].
  apply IH; [now apply step_state_ok | now apply step_all_accounted].
Qed.

Lemma accounted_threads (v : list (Worker Score))
    (bag : list (Match Score)) :
  accounted v bag ->
  exists dropped_by,
    Forall2 (fun w dropped => keeps_least (matches w) dropped)
            v dropped_by /\
    Permutation bag (concat (map (@matches Score) v) ++ concat dropped_by).
Proof.
  induction 1 as [|w dropped v bag Hw _ (dropped_by & Hall & Hperm)].
  - exists []. split; [constructor | reflexivity].
  - exists (dropped :: dropped_by). split; [now constructor|].
    cbn [map concat].
    apply perm_trans
      with ((matches w ++ dropped)
            ++ concat (map (@matches Score) v) ++ concat dropped_by);
      [now apply Permutation_app_head|].
    rewrite <- !app_assoc. apply Permutation_app_head.
    rewrite !app_assoc. apply Permutation_app_tail, Permutation_app_comm.
Qed.

Lemma start_all_accounted (it : PyIter) (nr_threads : Z) :
  all_accounted (matches_of_objs (pending it)) (start Score it nr_threads).
Proof.
  intros _. exists []. split; [|reflexivity].
  unfold start. cbn [threads].
  induction (Z.to_nat nr_threads) as [|n IH]; [constructor|].
  cbn [repeat].
  change (@nil (Match Score))
    with ((matches (new_worker Score) ++ []) ++ @nil (Match Score)).
  constructor; [|exact IH].
  split; [constructor | split; [intros H; now elim H|]].
  unfold within_limit_len. cbn. lia.
Qed.

(** After a join of all threads without an exception or a failed
    conversion, every match is kept or was dropped by a thread. *)
Lemma joined_threads_accounted (it : PyIter) (nr_threads : Z)
    (sched : list nat) (st' : State Score) (trace : list Event) (acc : Z) :
  (1 <= nr_threads)%Z ->
  join_threads hdr matcher item_substr_fn limit (Z.to_nat nr_threads) 0
    (run hdr matcher item_substr_fn limit sched
         (start Score it nr_threads)) 0 []
  = (st', trace, Ok acc) ->
  have_python_ex (shared st') = false ->
  exists dropped_by : list (list (Match Score)),
    Permutation
      (concat (map (@matches Score) (threads st')) ++ concat dropped_by)
      (matches_of_objs (pending it)) /\
    Forall2 (fun w dropped => keeps_least (matches w) dropped)
            (threads st') dropped_by.
Proof.
  intros Hnr Hjoin Hnoex.
  destruct (joined_all_returned hdr matcher item_substr_fn limit_nonneg it
              sched Hnr Hjoin) as (Hsteps & Hok & Hsome & Hall).
  pose proof (returned_means_used_up Hok Hsome Hall Hnoex) as Hempty.
  assert (Hclean : clean st').
  { split; [exact Hnoex|]. eapply Forall_impl; [|exact Hall].
    intros w Hw what. rewrite Hw. discriminate. }
  destruct (steps_all_accounted Hsteps
              (@start_ok Score limit it nr_threads)
              (@start_all_accounted it nr_threads) Hclean)
    as (bag & Hbag & Hperm).
  rewrite Hempty in Hperm. cbn in Hperm. rewrite app_nil_r in Hperm.
  destruct (accounted_threads Hbag) as (dropped_by & Hthreads & Hbagperm).
  exists dropped_by. split; [|exact Hthreads].
  apply perm_trans with bag; [now apply Permutation_sym | exact Hperm].
Qed.

End WithMatcher.

End OrderFacts.

Import OrderFacts.

(** X13.  When [operator<] is a strict weak ordering and the threads have
    been joined without an exception or a failed conversion, the matches
    of the candidates are exactly what the threads keep and what they
    have dropped; a thread has dropped only from a list of [limit]
    matches, and nothing it has dropped is less than anything it keeps.
    With [limit = 0] nothing is dropped. *)
Theorem threads_keep_the_least_matches (Score : Type)
    (hdr : Headers Score) (matcher : Matcher Score)
    (item_substr_fn : option (string_ref -> Substr)) (limit : Z)
    (it : PyIter) (nr_threads : Z) (sched : list nat)
    (st' : State Score) (trace : list Event) (acc : Z) :
  strict_weak_order hdr ->
  (0 <= limit)%Z -> (1 <= nr_threads)%Z ->
  join_threads hdr matcher item_substr_fn limit (Z.to_nat nr_threads) 0
    (run hdr matcher item_substr_fn limit sched
         (start Score it nr_threads)) 0 []
  = (st', trace, Ok acc) ->
  have_python_ex (shared st') = false ->
  exists dropped_by : list (list (Match Score)),
    Permutation
      (concat (map (@matches Score) (threads st')) ++ concat dropped_by)
      (matches_of_objs matcher item_substr_fn (pending it)) /\
    Forall2
      (fun w dropped =>
         Forall (fun d =>
                   Forall (fun m => match_lt hdr d m = false) (matches w))
                dropped /\
         (dropped <> [] ->
          (0 < limit)%Z /\ length (matches w) = Z.to_nat limit))
      (threads st') dropped_by.
Proof.
  intros Horder Hlimit Hnr Hjoin Hnoex.
  destruct (@joined_threads_accounted Score hdr matcher item_substr_fn
              limit Hlimit Horder it nr_threads sched st' trace acc
              Hnr Hjoin Hnoex) as (dropped_by & Hperm & Hthreads).
  exists dropped_by. split; [exact Hperm|].
  eapply Forall2_impl; [|exact Hthreads].
  intros w dropped (Hbelow & Hfull & _). split; assumption.
Qed.

Lemma small_headers_order (hardware_concurrency : Z) :
  strict_weak_order (Scenario.small_headers hardware_concurrency).
Proof.
  constructor; cbn [match_lt Scenario.small_headers].
  - intros a. apply Z.ltb_irrefl.
  - intros a b c Hab Hbc. apply Z.ltb_lt in Hab, Hbc. apply Z.ltb_lt. lia.
  - intros a b c Hac. apply Z.ltb_lt in Hac.
    destruct (Z.ltb_spec (score a) (score b)); [now left|].
    right. apply Z.ltb_lt. lia.
Qed.

Lemma threads_keep_the_least_matches_witness :
  let joined :=
    join_threads (Scenario.small_headers 2) Scenario.small_matcher None 2
      (Z.to_nat 2) 0
      (run (Scenario.small_headers 2) Scenario.small_matcher None 2
           [0; 1; 0] (start Z Scenario.candidates 2)) 0 [] in
  exists dropped_by : list (list (Match Z)),
    Permutation
      (concat (map (@matches Z) (threads (fst (fst joined))))
       ++ concat dropped_by)
      (matches_of_objs Scenario.small_matcher None
                       (pending Scenario.candidates)).
Proof.
  cbv zeta.
  destruct (@threads_keep_the_least_matches Z (Scenario.small_headers 2)
              Scenario.small_matcher None 2 Scenario.candidates 2 [0; 1; 0]
              (fst (fst (join_threads (Scenario.small_headers 2)
                           Scenario.small_matcher None 2 (Z.to_nat 2) 0
                           (run (Scenario.small_headers 2)
                                Scenario.small_matcher None 2 [0; 1; 0]
                                (start Z Scenario.candidates 2)) 0 [])))
              [EvJoin 0; EvJoin 1] 2%Z
              (small_headers_order 2))
    as (dropped_by & Hperm & _).
  - lia.
  - lia.
  - vm_compute. reflexivity.
  - vm_compute. reflexivity.
  - exists dropped_by. exact Hperm.
Defined.

(** ** The sorted and limited list *)

Module SortFacts.

Import Word WordFacts PathUtil Driver TopKFacts ErrorFacts OrderFacts.

Section WithOrder.

Variable Score : Type.
Variable hdr : Headers Score.

Hypothesis order : strict_weak_order hdr.

(** [b] may stand after [a] in a sorted list: it is not less than [a]. *)
Definition in_order (a b : Match Score) : Prop :=
  match_lt hdr b a = false.

Lemma insert_sorted_perm (m : Match Score) (v : list (Match Score)) :
  Permutation (insert_sorted hdr m v) (m :: v).
Proof.
  induction v as [|m' v IH]; cbn [insert_sorted]; [reflexivity|].
  destruct (match_lt hdr m m'); [reflexivity|].
  apply perm_trans with (m' :: m :: v);
    [now apply perm_skip | apply perm_swap].
Qed.

Lemma insert_sorted_sorted (m : Match Score) (v : list (Match Score)) :
  StronglySorted in_order v ->
  StronglySorted in_order (insert_sorted hdr m v).
Proof.
  induction 1 as [|m' v Hsorted IH Hall]; cbn [insert_sorted].
  - repeat constructor.
  - destruct (match_lt hdr m m') eqn:Hlt.
    + constructor; [now constructor|].
      assert (Hm' : in_order m m').
      { unfold in_order. destruct (match_lt hdr m' m) eqn:E; [|reflexivity].
        pose proof (lt_trans order _ _ _ Hlt E) as Hmm.
        now rewrite (lt_irrefl order m) in Hmm. }
      constructor; [exact Hm'|].
      eapply Forall_impl; [|exact Hall].
      intros x Hx. unfold in_order in *.
      destruct (match_lt hdr x m) eqn:E; [|reflexivity].
      pose proof (lt_trans order _ _ _ E Hlt) as Hxm'.
      now rewrite Hxm' in Hx.
    + constructor; [exact IH|].
      rewrite Forall_forall in Hall |- *. intros x Hx.
      apply (Permutation_in x (insert_sorted_perm m v)) in Hx.
      destruct Hx as [<- | Hx]; [exact Hlt | now apply Hall].
Qed.

Lemma sort_perm (v : list (Match Score)) : Permutation (sort hdr v) v.
Proof.
  unfold sort. induction v as [|m v IH]; cbn [fold_right]; [reflexivity|].
  apply perm_trans with (m :: fold_right (insert_sorted hdr) [] v);
    [apply insert_sorted_perm | now apply perm_skip].
Qed.

Lemma sort_sorted (v : list (Match Score)) :
  StronglySorted in_order (sort hdr v).
Proof.
  unfold sort. induction v as [|m v IH]; cbn [fold_right];
    [constructor | now apply insert_sorted_sorted].
Qed.

(** In a sorted list, what stands behind is not less than what stands in
    front. *)
Lemma sorted_app (a b : list (Match Score)) :
  StronglySorted in_order (a ++ b) ->
  StronglySorted in_order a /\ StronglySorted in_order b /\
  Forall (fun x => Forall (in_order x) b) a.
Proof.
  induction a as [|x a IH]; cbn [app]; intros H.
  - repeat split; [constructor | exact H | constructor].
  - inversion H as [|? ? Hsorted Hall]; subst.
    destruct (IH Hsorted) as (Ha & Hb & Hab).
    apply Forall_app in Hall. destruct Hall as (Hxa & Hxb).
    repeat split; [now constructor | exact Hb | now constructor].
Qed.

(** The number of elements of [v] that are less than [r]. *)
Definition below (r : Match Score) (v : list (Match Score)) : nat :=
  length (filter (fun x => match_lt hdr x r) v).

Lemma below_app (r : Match Score) (a b : list (Match Score)) :
  below r (a ++ b) = below r a + below r b.
Proof. unfold below. now rewrite filter_app, length_app. Qed.

Lemma below_perm (r : Match Score) (a b : list (Match Score)) :
  Permutation a b -> below r a = below r b.
Proof.
  unfold below. induction 1 as [|x a b _ IH|x y a|a b c _ IH1 _ IH2];
    cbn [filter]; try reflexivity.
  - destruct (match_lt hdr x r); cbn [length]; now rewrite IH.
  - destruct (match_lt hdr x r), (match_lt hdr y r); reflexivity.
  - now rewrite IH1.
Qed.

Lemma below_le (r : Match Score) (v : list (Match Score)) :
  below r v <= length v.
Proof. unfold below. apply filter_length_le. Qed.

Lemma below_all (r : Match Score) (v : list (Match Score)) :
  Forall (fun x => match_lt hdr x r = true) v -> below r v = length v.
Proof.
  unfold below. induction 1 as [|x v Hx _ IH]; [reflexivity|].
  cbn [filter]. rewrite Hx. cbn [length]. now rewrite IH.
Qed.

Lemma below_none (r : Match Score) (v : list (Match Score)) :
  Forall (in_order r) v -> below r v = 0.
Proof.
  unfold below, in_order. induction 1 as [|x v Hx _ IH]; [reflexivity|].
  cbn [filter]. now rewrite Hx.
Qed.

Lemma below_member (r : Match Score) (w : Worker Score)
    (v : list (Worker Score)) :
  In w v ->
  below r (matches w) <= below r (concat (map (@matches Score) v)).
Proof.
  induction v as [|a v IH]; intros Hin; [contradiction|].
  cbn [map concat]. rewrite below_app.
  destruct Hin as [-> | Hin]; [lia|]. specialize (IH Hin). lia.
Qed.

(** An element of the first [k] of a sorted list has fewer than [k]
    elements below it. *)
Lemma below_in_front (r : Match Score) (front back : list (Match Score)) :
  StronglySorted in_order (front ++ back) -> In r front ->
  below r (front ++ back) < length front.
Proof.
  intros Hsorted Hin. apply in_split in Hin.
  destruct Hin as (a & b & ->). rewrite <- app_assoc in *.
  cbn [app] in *.
  apply sorted_app in Hsorted. destruct Hsorted as (_ & Hrest & _).
  inversion Hrest as [|? ? _ Hafter]; subst.
  rewrite below_app. unfold below at 2. cbn [filter].
  rewrite (lt_irrefl order r).
  fold (below r (b ++ back)). rewrite (below_none Hafter).
  pose proof (below_le r a). rewrite !length_app. cbn [length]. lia.
Qed.

(** [sort_limit] returns the front of the sorted list, of at most
    [limit] elements when [limit] is positive. *)
Lemma sort_limit_front (v : list (Match Score)) (limit : Z) :
  exists back,
    sort hdr v = sort_limit hdr v limit ++ back /\
    ((0 < limit)%Z -> length (sort_limit hdr v limit) <= Z.to_nat limit).
Proof.
  pose proof (Permutation_length (sort_perm v)) as Hlen.
  unfold sort_limit, size.
  destruct (Z.gtb_spec limit 0) as [Hpos|Hzero]; cbn [andb].
  - destruct (Z.gtb_spec (Z.of_nat (length v)) limit) as [Hlong|Hshort].
    + exists (skipn (Z.to_nat limit) (sort hdr v)).
      split; [now rewrite firstn_skipn|].
      intros _. rewrite length_firstn. lia.
    + exists []. split; [now rewrite app_nil_r|]. intros _. lia.
  - exists []. split; [now rewrite app_nil_r | lia].
Qed.

Lemma each_dropped (P : Match Score -> Prop)
    (R : Worker Score -> list (Match Score) -> Prop)
    (v : list (Worker Score)) (dropped_by : list (list (Match Score))) :
  Forall2 R v dropped_by ->
  (forall w dropped, In w v -> R w dropped -> Forall P dropped) ->
  Forall P (concat dropped_by).
Proof.
  induction 1 as [|w dropped v dropped_by Hw _ IH]; intros Hall;
    cbn [concat]; [constructor|].
  apply Forall_app. split.
  - apply (Hall w); [now left | exact Hw].
  - apply IH. intros w' dropped' Hin. apply Hall. now right.
Qed.

(** A match dropped by a thread is not less than any match in the front
    of the merged and sorted list. *)
Lemma dropped_not_in_front (limit : Z) (v : list (Worker Score))
    (dropped_by : list (list (Match Score)))
    (front back : list (Match Score)) :
  Forall2 (fun w dropped => keeps_least hdr limit (matches w) dropped)
          v dropped_by ->
  sort hdr (concat (map (@matches Score) v)) = front ++ back ->
  ((0 < limit)%Z -> length front <= Z.to_nat limit) ->
  Forall (fun d => Forall (fun r => match_lt hdr d r = false) front)
         (concat dropped_by).
Proof.
  intros Hthreads Hsort Hfront.
  assert (Hsorted : StronglySorted in_order (front ++ back)).
  { rewrite <- Hsort. apply sort_sorted. }
  assert (Hcount : forall r,
             below r (front ++ back)
             = below r (concat (map (@matches Score) v))).
  { intros r. rewrite <- Hsort. apply below_perm, sort_perm. }
  apply (each_dropped Hthreads).
  intros w dropped Hin (Hnotbelow & Hfull & _).
  apply Forall_forall. intros d Hd. apply Forall_forall. intros r Hr.
  destruct (match_lt hdr d r) eqn:Hlt; [exfalso | reflexivity].
  destruct Hfull as (Hpos & Hlen); [intros ->; contradiction|].
  assert (Hall : Forall (fun m => match_lt hdr m r = true) (matches w)).
  { rewrite Forall_forall in Hnotbelow.
    specialize (Hnotbelow d Hd). unfold not_below in Hnotbelow.
    eapply Forall_impl; [|exact Hnotbelow].
    intros m Hdm. cbv beta in Hdm.
    destruct (lt_between order d m r Hlt); congruence. }
  pose proof (@below_all r (matches w) Hall) as Hbelow.
  pose proof (@below_member r w v Hin) as Hle.
  pose proof (@below_in_front r front back Hsorted Hr) as Hlt'.
  rewrite Hcount in Hlt'. specialize (Hfront Hpos). lia.
Qed.

(** The merged list of joined threads: sorted, and with what it leaves
    out the matches of all candidates, none left out being less than one
    that is in. *)
Lemma merge_matches_least (matcher : Matcher Score)
    (item_substr_fn : option (string_ref -> Substr)) (limit : Z)
    (it : PyIter) (nr_threads : Z) (sched : list nat)
    (st' : State Score) (trace : list Event) (acc : Z) :
  (0 <= limit)%Z -> (1 <= nr_threads)%Z ->
  join_threads hdr matcher item_substr_fn limit (Z.to_nat nr_threads) 0
    (run hdr matcher item_substr_fn limit sched
         (start Score it nr_threads)) 0 []
  = (st', trace, Ok acc) ->
  have_python_ex (shared st') = false ->
  let returned := merge_matches hdr (threads st') limit in
  StronglySorted in_order returned /\
  exists omitted,
    Permutation (returned ++ omitted)
                (matches_of_objs matcher item_substr_fn (pending it)) /\
    Forall (fun o => Forall (fun r => match_lt hdr o r = false) returned)
           omitted.
Proof.
  intros Hlimit Hnr Hjoin Hnoex returned.
  destruct (@joined_threads_accounted Score hdr matcher item_substr_fn
              limit Hlimit order it nr_threads sched st' trace acc
              Hnr Hjoin Hnoex) as (dropped_by & Hperm & Hthreads).
  destruct (sort_limit_front (concat (map (@matches Score) (threads st')))
                             limit) as (back & Hsort & Hfront).
  fold (merge_matches hdr (threads st') limit) in Hsort, Hfront.
  fold returned in Hsort, Hfront.
  pose proof (sort_sorted (concat (map (@matches Score) (threads st'))))
    as Hsorted.
  rewrite Hsort in Hsorted. apply sorted_app in Hsorted.
  destruct Hsorted as (Hreturned & _ & Hback).
  split; [exact Hreturned|].
  exists (back ++ concat dropped_by). split.
  - rewrite app_assoc, <- Hsort.
    apply perm_trans
      with (concat (map (@matches Score) (threads st'))
            ++ concat dropped_by); [|exact Hperm].
    apply Permutation_app_tail, sort_perm.
  - apply Forall_app. split.
    + apply Forall_forall. intros o Ho. apply Forall_forall. intros r Hr.
      rewrite Forall_forall in Hback. specialize (Hback r Hr).
      rewrite Forall_forall in Hback. exact (Hback o Ho).
    + eapply dropped_not_in_front; eassumption.
Qed.

End WithOrder.

End SortFacts.

Import SortFacts.

(** X14.  When [operator<] is a strict weak ordering and a request
    returns a tuple, the list of items in it is that of a list of matches
    in ascending order, which with the matches left out makes up the
    matches of all candidates, and no match left out is less than a
    returned one.  [sort_limit] is taken as the sort and cut described for
    [match.h]. *)
Theorem returned_items_are_the_least_matches (Score : Type)
    (hdr : Headers Score) (args : Args) (it : PyIter) (sched : list nat)
    (matcher : Matcher Score)
    (item_substr_fn : option (string_ref -> Substr))
    (matches_list : list PyObject) (regexes_list : list string)
    (error_pending : bool) :
  strict_weak_order hdr ->
  is_unsigned (hardware_concurrency hdr) ->
  prepared hdr args = Some (matcher, item_substr_fn) ->
  cpsm_ctrlp_match hdr args (Iterable it) sched
  = PyTuple matches_list regexes_list error_pending ->
  exists returned omitted : list (Match Score),
    matches_list = map (fun m => second (item m)) returned /\
    StronglySorted (fun a b => match_lt hdr b a = false) returned /\
    Permutation (returned ++ omitted)
                (matches_of_objs matcher item_substr_fn (pending it)) /\
    Forall (fun o => Forall (fun r => match_lt hdr o r = false) returned)
           omitted.
Proof.
  intros Horder Hhw Hprepared Hresult.
  pose proof (limit_of_nonneg (limit_int args)) as HK.
  unfold prepared in Hprepared.
  unfold cpsm_ctrlp_match, ctrlp_match_body, match_stage in Hresult.
  destruct (invert_query hdr (query args) (query_inverting_delimiter args))
    as [query|what]; [|discriminate].
  destruct (Matcher_new hdr query _ _) as [matcher'|what];
    [|discriminate].
  destruct (match_mode_item_substr_fn hdr (mmode args))
    as [item_substr_fn'|what]; [|discriminate].
  injection Hprepared as -> ->.
  set (K := limit_of (limit_int args)) in *.
  set (nr_threads := get_nr_threads (hardware_concurrency hdr)
                       (max_threads_of (max_threads_int args))) in *.
  assert (Hnr : (1 <= nr_threads)%Z).
  { unfold nr_threads.
    rewrite get_nr_threads_value
      by (exact Hhw || apply max_threads_of_range).
    lia. }
  destruct (join_threads hdr matcher item_substr_fn K
              (Z.to_nat nr_threads) 0 _ 0 [])
    as [[st' trace] [acc|what]] eqn:Hjoin; [|discriminate].
  destruct (have_python_ex (shared st')) eqn:Hnoex; [discriminate|].
  cbn [snd bind] in Hresult. unfold output_stage in Hresult.
  cbn [the_matcher the_item_substr_fn all_matches error_left_set]
    in Hresult.
  destruct (@merge_matches_least Score hdr Horder matcher item_substr_fn K
              it nr_threads sched st' trace acc HK Hnr Hjoin Hnoex)
    as (Hsorted & omitted & Hperm & Hleast).
  exists (merge_matches hdr (threads st') K), omitted.
  split; [|split; [exact Hsorted | split; assumption]].
  destruct (if highlighting (highlight_mode args) then _ else _)
    as [regexes|what]; cbn [bind] in Hresult; [|discriminate].
  now injection Hresult as <- _ _.
Qed.

Lemma returned_items_are_the_least_matches_witness :
  exists (returned omitted : list (Match Z))
         (matches_list : list PyObject),
    cpsm_ctrlp_match (Scenario.small_headers 2)
                     (Scenario.request 2 0 "" "")
                     (Iterable Scenario.candidates) [0; 1; 0]
    = PyTuple matches_list [] false /\
    matches_list = map (fun m => second (item m)) returned /\
    length returned = 2 /\
    Permutation (returned ++ omitted)
                (matches_of_objs Scenario.small_matcher None
                                 (pending Scenario.candidates)).
Proof.
  destruct (@returned_items_are_the_least_matches Z
              (Scenario.small_headers 2) (Scenario.request 2 0 "" "")
              Scenario.candidates [0; 1; 0] Scenario.small_matcher None
              (map (fun m => second (item m))
                   (merge_matches (Scenario.small_headers 2)
                      (threads
                         (fst (fst (join_threads (Scenario.small_headers 2)
                                      Scenario.small_matcher None 2
                                      (Z.to_nat 2) 0
                                      (run (Scenario.small_headers 2)
                                           Scenario.small_matcher None 2
                                           [0; 1; 0]
                                           (start Z Scenario.candidates 2))
                                      0 []))))
                      2))
              [] false (small_headers_order 2))
    as (returned & omitted & Hlist & _ & Hperm & _).
  - vm_compute. split; [intros H; discriminate H | reflexivity].
  - vm_compute. reflexivity.
  - vm_compute. reflexivity.
  - exists returned, omitted. eexists. split; [vm_compute; reflexivity|].
    split; [exact Hlist|]. split; [|exact Hperm].
    apply (f_equal (@length PyObject)) in Hlist.
    rewrite !length_map in Hlist. rewrite <- Hlist. vm_compute.
    reflexivity.
Defined.

(** ** The error indicator *)

Module FlagFacts.

Import Word WordFacts PathUtil Driver TopKFacts ErrorFacts.

(** [PyIter_Next] returns NULL with an exception set. *)
Definition raises (e : IterEnd) : bool :=
  match e with
  | Raises => true
  | Exhausted => false
  end.

(** Without a failed conversion, the error indicator is set only by the
    iterator, and only once it has returned NULL. *)
Definition flags_ok (it : PyIter) (sh : Shared) : Prop :=
  have_python_ex sh = false ->
  if end_of_python_iter sh
  then error_indicator sh = raises (ending it)
  else error_indicator sh = false /\ ending (items_iter sh) = ending it.

Lemma collect_batch_flags (rest : list PyObject) :
  forall (sh : Shared) (items : list Item) (acc : Z)
         (sh' : Shared) (batch : list Item) (returned : bool),
    collect_batch rest sh items acc = (sh', batch, returned) ->
    end_of_python_iter sh = false ->
    have_python_ex sh' = false ->
    have_python_ex sh = false /\
    if end_of_python_iter sh'
    then error_indicator sh'
         = raises (ending (items_iter sh)) || error_indicator sh
    else error_indicator sh' = error_indicator sh /\
         ending (items_iter sh') = ending (items_iter sh).
Proof.
  induction rest as [|item_obj rest IH];
    intros sh items acc sh' batch returned Hrun Hend Hnoex;
    cbn [collect_batch] in Hrun.
  - destruct (acc <? kBatchSizeBytes)%Z; injection Hrun as <- <- <-;
      cbn in *.
    + split; [exact Hnoex|]. now destruct (ending (items_iter sh)).
    + split; [exact Hnoex|]. rewrite Hend. split; reflexivity.
  - destruct (acc <? kBatchSizeBytes)%Z.
    + destruct (ob_bytes item_obj) as [item_data|].
      * now apply IH with (1 := Hrun).
      * injection Hrun as <- <- <-. cbn in Hnoex. discriminate.
    + injection Hrun as <- <- <-. cbn in *.
      split; [exact Hnoex|]. rewrite Hend. split; reflexivity.
Qed.

Section WithMatcher.

Variable Score : Type.
Variable hdr : Headers Score.
Variable matcher : Matcher Score.
Variable item_substr_fn : option (string_ref -> Substr).
Variable limit : Z.

Hypothesis limit_nonneg : (0 <= limit)%Z.

Lemma worker_turn_flags_ok (it : PyIter) (sh sh' : Shared)
    (w w' : Worker Score) :
  worker_turn hdr matcher item_substr_fn limit sh w = (sh', w') ->
  flags_ok it sh -> flags_ok it sh'.
Proof.
  unfold worker_turn. intros Hturn Hflags.
  destruct (end_of_python_iter sh || have_python_ex sh) eqn:Hgo;
    [now injection Hturn as <- _|].
  apply orb_false_iff in Hgo. destruct Hgo as (Hend & Hex).
  destruct (collect_batch (pending (items_iter sh)) sh (items w) 0)
    as [[sh1 batch] returned] eqn:Hbatch.
  assert (Hsh : sh' = sh1).
  { destruct returned; [now injection Hturn as <- _|].
    destruct (empty_vec batch); [now injection Hturn as <- _|].
    destruct (process_items hdr matcher item_substr_fn limit batch
                            (matches w) [])
      as [[matches' unmatched_objs'] [what|]];
      now injection Hturn as <- _. }
  subst sh1. intros Hnoex.
  destruct (collect_batch_flags _ _ _ _ Hbatch Hend Hnoex)
    as (_ & Hafter).
  unfold flags_ok in Hflags. rewrite Hend in Hflags.
  destruct (Hflags Hex) as (Herr & Hending).
  rewrite Herr, Hending, ?orb_false_r in Hafter. exact Hafter.
Qed.

Lemma steps_flags_ok (it : PyIter) (st st' : State Score) :
  steps hdr matcher item_substr_fn limit st st' ->
  flags_ok it (shared st) -> flags_ok it (shared st').
Proof.
  induction 1 as [|st st' i _ IH]; intros Hflags; [exact Hflags|].
  apply IH.
  destruct (step_cases hdr matcher item_substr_fn limit i st)
    as [-> | (w & sh' & w' & pre & post & _ & _ & _ & Hturn & ->)];
    [exact Hflags|].
  cbn [shared]. eapply worker_turn_flags_ok; eassumption.
Qed.

(** After the join, the error indicator says how the iterator ended. *)
Lemma joined_error_indicator (it : PyIter) (nr_threads : Z)
    (sched : list nat) (st' : State Score) (trace : list Event) (acc : Z) :
  (1 <= nr_threads)%Z ->
  join_threads hdr matcher item_substr_fn limit (Z.to_nat nr_threads) 0
    (run hdr matcher item_substr_fn limit sched
         (start Score it nr_threads)) 0 []
  = (st', trace, Ok acc) ->
  have_python_ex (shared st') = false ->
  error_indicator (shared st') = raises (ending it).
Proof.
  intros Hnr Hjoin Hnoex.
  destruct (joined_all_returned hdr matcher item_substr_fn limit_nonneg it
              sched Hnr Hjoin) as (Hsteps & (_ & Hworkers) & Hsome & Hall).
  assert (Hflags : flags_ok it (shared st')).
  { apply (@steps_flags_ok it _ _ Hsteps). intros _. cbn.
    split; reflexivity. }
  destruct (threads st') as [|w v]; [contradiction|].
  apply Forall_inv in Hworkers. apply Forall_inv in Hall.
  destruct Hworkers as (_ & _ & Hreturned). specialize (Hreturned Hall).
  rewrite Hnoex, orb_false_r in Hreturned.
  unfold flags_ok in Hflags. rewrite Hreturned in Hflags.
  exact (Hflags Hnoex).
Qed.

End WithMatcher.

End FlagFacts.

Import FlagFacts.

(** X15.  A tuple is returned with the error indicator of the interpreter
    set exactly when the iterator ended by raising: the exception of the
    iterator is then left pending, and nothing else leaves one. *)
Theorem tuple_leaves_the_iterator_error_pending (Score : Type)
    (hdr : Headers Score) (args : Args) (it : PyIter) (sched : list nat)
    (matches_list : list PyObject) (regexes_list : list string)
    (error_pending : bool) :
  is_unsigned (hardware_concurrency hdr) ->
  cpsm_ctrlp_match hdr args (Iterable it) sched
  = PyTuple matches_list regexes_list error_pending ->
  error_pending = raises (ending it).
Proof.
  intros Hhw Hresult.
  pose proof (limit_of_nonneg (limit_int args)) as HK.
  unfold cpsm_ctrlp_match, ctrlp_match_body, match_stage in Hresult.
  destruct (invert_query hdr (query args) (query_inverting_delimiter args))
    as [query|what]; [|discriminate].
  destruct (Matcher_new hdr query _ _) as [matcher|what];
    [|discriminate].
  destruct (match_mode_item_substr_fn hdr (mmode args))
    as [item_substr_fn|what]; [|discriminate].
  set (K := limit_of (limit_int args)) in *.
  set (nr_threads := get_nr_threads (hardware_concurrency hdr)
                       (max_threads_of (max_threads_int args))) in *.
  assert (Hnr : (1 <= nr_threads)%Z).
  { unfold nr_threads.
    rewrite get_nr_threads_value
      by (exact Hhw || apply max_threads_of_range).
    lia. }
  destruct (join_threads hdr matcher item_substr_fn K
              (Z.to_nat nr_threads) 0 _ 0 [])
    as [[st' trace] [acc|what]] eqn:Hjoin; [|discriminate].
  destruct (have_python_ex (shared st')) eqn:Hnoex; [discriminate|].
  cbn [snd bind] in Hresult. unfold output_stage in Hresult.
  cbn [the_matcher the_item_substr_fn all_matches error_left_set]
    in Hresult.
  rewrite (joined_error_indicator hdr matcher item_substr_fn HK it sched
             Hnr Hjoin Hnoex) in Hresult.
  destruct (if highlighting (highlight_mode args) then _ else _)
    as [regexes|what]; cbn [bind] in Hresult; [|discriminate].
  now injection Hresult as _ _ <-.
Qed.

Lemma tuple_leaves_the_iterator_error_pending_witness :
  cpsm_ctrlp_match (Scenario.small_headers 2) (Scenario.request 0 0 "" "")
                   (Iterable Scenario.candidates_raising) [0]
  = PyTuple [Scenario.py_str 1 "ma"] [] true /\
  true = raises (ending Scenario.candidates_raising).
Proof.
  split; [reflexivity|].
  apply (@tuple_leaves_the_iterator_error_pending Z
           (Scenario.small_headers 2) (Scenario.request 0 0 "" "")
           Scenario.candidates_raising [0] [Scenario.py_str 1 "ma"] []
           true).
  - vm_compute. split; [intros H; discriminate H | reflexivity].
  - reflexivity.
Defined.

(** ** The schedule of the threads *)

Module ScheduleFacts.

Import Word WordFacts PathUtil Driver DriverFacts TopKFacts ErrorFacts
       OrderFacts SortFacts FlagFacts.

Section WithOrder.

Variable Score : Type.
Variable hdr : Headers Score.

Hypothesis order : strict_weak_order hdr.

(** No two different matches of [v] are equivalent for [operator<]. *)
Definition total_on (v : list (Match Score)) : Prop :=
  forall a b, In a v -> In b v ->
              match_lt hdr a b = false -> match_lt hdr b a = false -> a = b.

Lemma sorted_unique (l1 : list (Match Score)) :
  forall l2,
    total_on l1 ->
    StronglySorted (in_order hdr) l1 -> StronglySorted (in_order hdr) l2 ->
    Permutation l1 l2 -> l1 = l2.
Proof.
  induction l1 as [|a t1 IH]; intros l2 Htotal Hs1 Hs2 Hperm.
  - apply Permutation_nil in Hperm. now subst.
  - destruct l2 as [|b t2];
      [now apply Permutation_sym, Permutation_nil_cons in Hperm|].
    inversion Hs1 as [|? ? Hs1' Ha]; subst.
    inversion Hs2 as [|? ? Hs2' Hb]; subst.
    assert (Heq : a = b).
    { assert (Hba : In b (a :: t1)).
      { apply (Permutation_in b (Permutation_sym Hperm)). now left. }
      assert (Hab : In a (b :: t2)).
      { apply (Permutation_in a Hperm). now left. }
      destruct Hba as [Hba | Hba]; [exact Hba|].
      destruct Hab as [Hab | Hab]; [now symmetry|].
      rewrite Forall_forall in Ha, Hb.
      apply Htotal; [now left | now right | apply (Hb a Hab)
                     | apply (Ha b Hba)]. }
    subst b. f_equal. apply IH; [|assumption|assumption|].
    + intros x y Hx Hy. apply Htotal; now right.
    + now apply Permutation_cons_inv with a.
Qed.

Lemma sorted_join (a b : list (Match Score)) :
  StronglySorted (in_order hdr) a -> StronglySorted (in_order hdr) b ->
  Forall (fun x => Forall (in_order hdr x) b) a ->
  StronglySorted (in_order hdr) (a ++ b).
Proof.
  induction 1 as [|x a _ IH Hx]; intros Hb Hab; cbn [app]; [exact Hb|].
  constructor.
  - apply IH; [exact Hb | now apply Forall_inv_tail in Hab].
  - apply Forall_app. split; [exact Hx | now apply Forall_inv in Hab].
Qed.

(** The least [n] of a bag in order: there is one such list when the
    order is total on the bag. *)
Lemma least_unique (all r1 o1 r2 o2 : list (Match Score)) :
  total_on all ->
  StronglySorted (in_order hdr) r1 -> StronglySorted (in_order hdr) r2 ->
  Permutation (r1 ++ o1) all -> Permutation (r2 ++ o2) all ->
  Forall (fun o => Forall (fun r => match_lt hdr o r = false) r1) o1 ->
  Forall (fun o => Forall (fun r => match_lt hdr o r = false) r2) o2 ->
  length r1 = length r2 ->
  r1 = r2.
Proof.
  intros Htotal Hs1 Hs2 Hp1 Hp2 Hl1 Hl2 Hlen.
  assert (Hjoin : forall r o,
             StronglySorted (in_order hdr) r ->
             Forall (fun o =>
                       Forall (fun r => match_lt hdr o r = false) r) o ->
             StronglySorted (in_order hdr) (r ++ sort hdr o)).
  { intros r o Hs Hl.
    apply sorted_join; [exact Hs | now apply sort_sorted|].
    apply Forall_forall. intros x Hx. apply Forall_forall. intros y Hy.
    apply (Permutation_in y (sort_perm hdr o)) in Hy.
    rewrite Forall_forall in Hl. specialize (Hl y Hy).
    rewrite Forall_forall in Hl. exact (Hl x Hx). }
  assert (Hperm : forall r o,
             Permutation (r ++ o) all ->
             Permutation (r ++ sort hdr o) all).
  { intros r o Hp. apply perm_trans with (r ++ o); [|exact Hp].
    apply Permutation_app_head, sort_perm. }
  assert (Hsame : r1 ++ sort hdr o1 = r2 ++ sort hdr o2).
  { apply sorted_unique.
    - intros a b Ha Hb. apply Htotal.
      + apply (Permutation_in a (Hperm _ _ Hp1) Ha).
      + apply (Permutation_in b (Hperm _ _ Hp1) Hb).
    - now apply Hjoin.
    - now apply Hjoin.
    - apply perm_trans with all;
        [now apply Hperm | now apply Permutation_sym, Hperm]. }
  apply (f_equal (firstn (length r1))) in Hsame.
  rewrite firstn_app, firstn_all, Nat.sub_diag, firstn_0, app_nil_r
    in Hsame.
  rewrite Hlen, firstn_app, firstn_all, Nat.sub_diag, firstn_0, app_nil_r
    in Hsame.
  exact Hsame.
Qed.

(** What a request that returns a tuple has gone through. *)
Lemma tuple_inversion (args : Args) (it : PyIter) (sched : list nat)
    (matcher : Matcher Score)
    (item_substr_fn : option (string_ref -> Substr))
    (result : PyResult) :
  prepared hdr args = Some (matcher, item_substr_fn) ->
  cpsm_ctrlp_match hdr args (Iterable it) sched = result ->
  (exists matches_list regexes_list error_pending,
      result = PyTuple matches_list regexes_list error_pending) ->
  let K := limit_of (limit_int args) in
  let nr_threads := get_nr_threads (hardware_concurrency hdr)
                      (max_threads_of (max_threads_int args)) in
  exists st' trace acc,
    join_threads hdr matcher item_substr_fn K (Z.to_nat nr_threads) 0
      (run hdr matcher item_substr_fn K sched
           (start Score it nr_threads)) 0 []
    = (st', trace, Ok acc) /\
    have_python_ex (shared st') = false /\
    output_stage hdr args
      {| the_matcher := matcher;
         the_item_substr_fn := item_substr_fn;
         all_matches := merge_matches hdr (threads st') K;
         error_left_set := error_indicator (shared st') |}
    = Ok result.
Proof.
  intros Hprepared Hresult (ms & rs & e & Htuple) K nr_threads.
  unfold prepared in Hprepared.
  unfold cpsm_ctrlp_match, ctrlp_match_body, match_stage in Hresult.
  destruct (invert_query hdr (query args) (query_inverting_delimiter args))
    as [query|what]; [|discriminate].
  destruct (Matcher_new hdr query _ _) as [matcher'|what];
    [|discriminate].
  destruct (match_mode_item_substr_fn hdr (mmode args))
    as [item_substr_fn'|what]; [|discriminate].
  injection Hprepared as -> ->.
  fold K nr_threads in Hresult.
  destruct (join_threads hdr matcher item_substr_fn K
              (Z.to_nat nr_threads) 0 _ 0 [])
    as [[st' trace] [acc|what]] eqn:Hjoin;
    [|cbn in Hresult; congruence].
  exists st', trace, acc. split; [reflexivity|].
  destruct (have_python_ex (shared st')) eqn:Hnoex;
    [cbn in Hresult; congruence|].
  split; [reflexivity|].
  cbn [snd bind] in Hresult.
  destruct (output_stage hdr args _) as [r|what];
    [now subst | congruence].
Qed.

End WithOrder.

End ScheduleFacts.

Import ScheduleFacts.

(** X16.  When [operator<] is a strict weak ordering in which no two
    different matches of the candidates are equivalent, two runs of the
    same request that both return a tuple return the same tuple, however
    the threads were scheduled.  [sort_limit] is taken as the sort and cut
    described for [match.h]. *)
Theorem result_does_not_depend_on_the_schedule (Score : Type)
    (hdr : Headers Score) (args : Args) (it : PyIter)
    (sched1 sched2 : list nat) (matcher : Matcher Score)
    (item_substr_fn : option (string_ref -> Substr))
    (matches1 matches2 : list PyObject) (regexes1 regexes2 : list string)
    (error1 error2 : bool) :
  strict_weak_order hdr ->
  is_unsigned (hardware_concurrency hdr) ->
  prepared hdr args = Some (matcher, item_substr_fn) ->
  total_on hdr (matches_of_objs matcher item_substr_fn (pending it)) ->
  cpsm_ctrlp_match hdr args (Iterable it) sched1
  = PyTuple matches1 regexes1 error1 ->
  cpsm_ctrlp_match hdr args (Iterable it) sched2
  = PyTuple matches2 regexes2 error2 ->
  PyTuple matches1 regexes1 error1 = PyTuple matches2 regexes2 error2.
Proof.
  intros Horder Hhw Hprepared Htotal Hrun1 Hrun2.
  pose proof (limit_of_nonneg (limit_int args)) as HK.
  assert (Hnr : (1 <= get_nr_threads (hardware_concurrency hdr)
                        (max_threads_of (max_threads_int args)))%Z).
  { rewrite get_nr_threads_value
      by (exact Hhw || apply max_threads_of_range).
    lia. }
  destruct (@tuple_inversion Score hdr args it sched1 matcher
              item_substr_fn _ Hprepared Hrun1)
    as (st1 & trace1 & acc1 & Hjoin1 & Hnoex1 & Hout1); [eauto|].
  destruct (@tuple_inversion Score hdr args it sched2 matcher
              item_substr_fn _ Hprepared Hrun2)
    as (st2 & trace2 & acc2 & Hjoin2 & Hnoex2 & Hout2); [eauto|].
  destruct (@merge_matches_least Score hdr Horder matcher item_substr_fn
              _ it _ sched1 st1 trace1 acc1 HK Hnr Hjoin1 Hnoex1)
    as (Hsorted1 & omitted1 & Hperm1 & Hleast1).
  destruct (@merge_matches_least Score hdr Horder matcher item_substr_fn
              _ it _ sched2 st2 trace2 acc2 HK Hnr Hjoin2 Hnoex2)
    as (Hsorted2 & omitted2 & Hperm2 & Hleast2).
  assert (Hmerged : merge_matches hdr (threads st1)
                                  (limit_of (limit_int args))
                    = merge_matches hdr (threads st2)
                                    (limit_of (limit_int args))).
  { eapply least_unique; try eassumption.
    rewrite (merged_size hdr matcher item_substr_fn HK it sched1 Hnr
               Hjoin1 Hnoex1).
    rewrite (merged_size hdr matcher item_substr_fn HK it sched2 Hnr
               Hjoin2 Hnoex2).
    reflexivity. }
  rewrite (joined_error_indicator hdr matcher item_substr_fn HK it sched1
             Hnr Hjoin1 Hnoex1) in Hout1.
  rewrite (joined_error_indicator hdr matcher item_substr_fn HK it sched2
             Hnr Hjoin2 Hnoex2) in Hout2.
  rewrite Hmerged in Hout1. congruence.
Qed.

Lemma result_does_not_depend_on_the_schedule_witness :
  total_on (Scenario.small_headers 2)
           (matches_of_objs Scenario.small_matcher None
                            (pending Scenario.candidates)) /\
  cpsm_ctrlp_match (Scenario.small_headers 2)
                   (Scenario.request 2 0 "detailed" "")
                   (Iterable Scenario.candidates) [0; 1; 0]
  = cpsm_ctrlp_match (Scenario.small_headers 2)
                     (Scenario.request 2 0 "detailed" "")
                     (Iterable Scenario.candidates) [1; 1; 0; 0].
Proof.
  assert (Htotal : total_on (Scenario.small_headers 2)
                     (matches_of_objs Scenario.small_matcher None
                                      (pending Scenario.candidates))).
  { intros a b Ha Hb. vm_compute in Ha, Hb.
    destruct Ha as [<-|[<-|[<-|[<-|[]]]]];
      destruct Hb as [<-|[<-|[<-|[<-|[]]]]];
      intros Hab Hba; try reflexivity;
      vm_compute in Hab, Hba; discriminate. }
  split; [exact Htotal|].
  assert (Hrun1 : cpsm_ctrlp_match (Scenario.small_headers 2)
                    (Scenario.request 2 0 "detailed" "")
                    (Iterable Scenario.candidates) [0; 1; 0]
                  = PyTuple [Scenario.py_str 1 "ma"; Scenario.py_str 4 "mbc"]
                            ["ma"%string; "mbc"%string] false)
    by (vm_compute; reflexivity).
  assert (Hrun2 : cpsm_ctrlp_match (Scenario.small_headers 2)
                    (Scenario.request 2 0 "detailed" "")
                    (Iterable Scenario.candidates) [1; 1; 0; 0]
                  = PyTuple [Scenario.py_str 1 "ma"; Scenario.py_str 4 "mbc"]
                            ["ma"%string; "mbc"%string] false)
    by (vm_compute; reflexivity).
  rewrite Hrun1, Hrun2.
  apply (@result_does_not_depend_on_the_schedule Z
           (Scenario.small_headers 2) (Scenario.request 2 0 "detailed" "")
           Scenario.candidates [0; 1; 0] [1; 1; 0; 0]
           Scenario.small_matcher None).
  - apply small_headers_order.
  - vm_compute. split; [intros H; discriminate H | reflexivity].
  - vm_compute. reflexivity.
  - exact Htotal.
  - exact Hrun1.
  - exact Hrun2.
Defined.

(** ** The objects of a batch *)

Module OwnershipFacts.

Import Word WordFacts PathUtil Driver TopKFacts.

Section WithMatcher.

Variable Score : Type.
Variable hdr : Headers Score.
Variable matcher : Matcher Score.
Variable item_substr_fn : option (string_ref -> Substr).
Variable limit : Z.

(** The object a match holds. *)
Definition held_obj (m : Match Score) : PyObject := second (item m).

Lemma take_largest_perm (v : list (Match Score)) :
  forall m big rest,
    take_largest hdr m v = (big, rest) ->
    Permutation (m :: v) (big :: rest).
Proof.
  induction v as [|m' v IH]; intros m big rest Hrun; cbn in Hrun.
  - injection Hrun as <- <-. reflexivity.
  - destruct (match_lt hdr m m').
    + destruct (take_largest hdr m' v) as [big' rest'] eqn:Hrec.
      injection Hrun as <- <-.
      apply perm_trans with (m :: big' :: rest');
        [apply perm_skip, IH, Hrec | apply perm_swap].
    + destruct (take_largest hdr m v) as [big' rest'] eqn:Hrec.
      injection Hrun as <- <-.
      apply perm_trans with (m' :: m :: v); [apply perm_swap|].
      apply perm_trans with (m' :: big' :: rest');
        [apply perm_skip, IH, Hrec | apply perm_swap].
Qed.

Lemma pop_heap_back (v : list (Match Score)) :
  v <> [] ->
  exists big rest,
    back (pop_heap hdr v) = Some big /\
    pop_back (pop_heap hdr v) = rest /\
    Permutation v (big :: rest).
Proof.
  destruct v as [|m v]; [contradiction|]. intros _. cbn [pop_heap].
  destruct (take_largest hdr m v) as [big rest] eqn:Hrun.
  exists big, rest. split; [|split].
  - unfold back. rewrite length_app. cbn [length].
    rewrite nth_error_app2 by lia.
    replace (length rest + 1 - 1 - length rest) with 0 by lia.
    reflexivity.
  - unfold pop_back. apply removelast_last.
  - now apply take_largest_perm.
Qed.

Lemma process_item_objects (matches : list (Match Score))
    (released : list PyObject) (it : Item)
    (matches' : list (Match Score)) (released' : list PyObject) :
  process_item hdr matcher item_substr_fn limit matches released it
  = (matches', released', None) ->
  Permutation (map held_obj matches' ++ released')
              (map held_obj matches ++ released ++ [second it]).
Proof.
  unfold process_item.
  destruct (match_ matcher (item_str_of item_substr_fn (first it)) it)
    as [[sc|]|what]; [| |discriminate].
  - set (m := {| item := it; score := sc |}).
    assert (Hkept : Permutation
                      (map held_obj (matches ++ [m]) ++ released)
                      (map held_obj matches ++ released ++ [second it])).
    { rewrite map_app, <- app_assoc. apply Permutation_app_head.
      cbn [map]. apply Permutation_app_comm. }
    destruct (negb (limit =? 0)%Z);
      [|intros H; injection H as <- <-; exact Hkept].
    unfold push_heap.
    destruct (size (matches ++ [m]) >? limit)%Z;
      [|intros H; injection H as <- <-; exact Hkept].
    destruct (@pop_heap_back (matches ++ [m]))
      as (big & rest & -> & -> & Hperm); [now destruct matches|].
    intros H. injection H as <- <-.
    apply perm_trans with (map held_obj (matches ++ [m]) ++ released);
      [|exact Hkept].
    apply perm_trans with (map held_obj (big :: rest) ++ released);
      [|apply Permutation_app_tail, Permutation_map, Permutation_sym,
        Hperm].
    cbn [map app]. rewrite app_assoc.
    apply Permutation_sym, Permutation_cons_append.
  - intros H. injection H as <- <-. now rewrite app_assoc.
Qed.

End WithMatcher.

End OwnershipFacts.

Import OwnershipFacts.

(** X17.  When the loop over a batch ends without an exception, every
    object of the batch, of the thread's matches and of its list of
    objects to release is afterwards in exactly one of the two lists: the
    loop neither loses nor doubles a reference. *)
Theorem batch_objects_are_kept_or_released (Score : Type)
    (hdr : Headers Score) (matcher : Matcher Score)
    (item_substr_fn : option (string_ref -> Substr)) (limit : Z)
    (batch : list Item) :
  forall (matches : list (Match Score)) (unmatched_objs : list PyObject)
         (matches' : list (Match Score)) (unmatched_objs' : list PyObject),
    process_items hdr matcher item_substr_fn limit batch matches
                  unmatched_objs
    = (matches', unmatched_objs', None) ->
    Permutation
      (map (fun m => second (item m)) matches' ++ unmatched_objs')
      (map (fun m => second (item m)) matches ++ unmatched_objs
       ++ map second batch).
Proof.
  induction batch as [|it batch IH];
    intros matches unmatched_objs matches' unmatched_objs' Hrun;
    cbn [process_items] in Hrun.
  - injection Hrun as <- <-. cbn [map]. now rewrite app_nil_r.
  - destruct (process_item hdr matcher item_substr_fn limit matches
                           unmatched_objs it)
      as [[matches1 unmatched1] [what|]] eqn:Hitem; [discriminate|].
    apply perm_trans
      with (map (fun m => second (item m)) matches1 ++ unmatched1
            ++ map second batch);
      [now apply IH|].
    rewrite !app_assoc. cbn [map].
    change (second it :: map second batch)
      with ([second it] ++ map second batch).
    rewrite !app_assoc. apply Permutation_app_tail.
    rewrite <- !app_assoc.
    exact (@process_item_objects Score hdr matcher item_substr_fn limit
             matches unmatched_objs it matches1 unmatched1 Hitem).
Qed.

Lemma batch_objects_are_kept_or_released_witness :
  let batch := [{| first := ref "mab"; second := Scenario.py_str 1 "mab" |};
                {| first := ref "zz"; second := Scenario.py_str 2 "zz" |};
                {| first := ref "m"; second := Scenario.py_str 3 "m" |}] in
  process_items (Scenario.small_headers 2) Scenario.small_matcher None 1
                batch [] []
  = ([Scenario.match_of 3 "m"],
     [Scenario.py_str 2 "zz"; Scenario.py_str 1 "mab"], None) /\
  Permutation
    (map (fun m => second (item m)) [Scenario.match_of 3 "m"]
     ++ [Scenario.py_str 2 "zz"; Scenario.py_str 1 "mab"])
    (map (fun m : Match Z => second (item m)) [] ++ []
     ++ map second batch).
Proof.
  cbv zeta. split; [vm_compute; reflexivity|].
  apply (@batch_objects_are_kept_or_released Z (Scenario.small_headers 2)
           Scenario.small_matcher None 1).
  vm_compute. reflexivity.
Defined.
